(** * Verification of the task-state serializer (file.cpp) and of the
      polynomial multiplication interface (gwnum/polymult.h)

    The development has two parts.

    - [Writer], [Reader] and [File] embed src/src/file.cpp and src/file.h:
      byte buffers are [list byte], the C++ [int] and fixed-width integers are
      [Z] with their wrap-around written out, the file system is a finite map
      from file names to contents, and the results of the system calls that
      can fail are explicit arguments.
    - [Polymult] embeds the declarations of src/src/gwnum/polymult.h (option
      bits, handle, plan and header structures, the recognition macro).  The
      bodies of the polymult routines live in polymult.c, which is not among
      the sources; they are modelled from the specification, each such
      definition saying so. *)

From Stdlib Require Import ZArith List Lia.
From coqutil Require Import Byte Word.LittleEndianList.
From stdpp Require Import gmap strings list.

Local Open Scope Z_scope.

(** ** Machine integers *)

Module Cint.

Definition INT_MAX : Z := 2 ^ 31 - 1.
Definition INT_MIN : Z := - 2 ^ 31.

(** Conversion to [int] / [int32_t]: two's complement on 32 bits. *)
Definition wrap_int (z : Z) : Z := (z + 2 ^ 31) mod 2 ^ 32 - 2 ^ 31.

(** Conversion to [uint32_t] and [uint64_t]. *)
Definition wrap_u32 (z : Z) : Z := z mod 2 ^ 32.
Definition wrap_u64 (z : Z) : Z := z mod 2 ^ 64.

Definition int_add (a b : Z) : Z := wrap_int (a + b).
Definition int_mul (a b : Z) : Z := wrap_int (a * b).
Definition int_abs (a : Z) : Z := wrap_int (Z.abs a).

(** A [char] is signed on the x86 targets of the program; this is its
    value after promotion to [int]. *)
Definition char_to_int (b : byte) : Z :=
  let u := byte.unsigned b in if u <? 128 then u else u - 256.

(** [a << n] on [int]. *)
Definition int_shl (a n : Z) : Z := wrap_int (Z.shiftl a n).

Definition is_int (z : Z) : Prop := INT_MIN <= z <= INT_MAX.
Definition is_u32 (z : Z) : Prop := 0 <= z < 2 ^ 32.
Definition is_u64 (z : Z) : Prop := 0 <= z < 2 ^ 64.

End Cint.

Import Cint.

(** ** Byte-level helpers *)

#[export] Instance byte_eq_decision : EqDecision byte :=
  fun a b =>
    match Z.eq_dec (byte.unsigned a) (byte.unsigned b) with
    | left e => left (byte.unsigned_inj a b e)
    | right ne => right (fun e => ne (f_equal byte.unsigned e))
    end.

(** [n] bytes starting at offset [off] of a buffer. *)
Definition slice (off n : Z) (bs : list byte) : list byte :=
  firstn (Z.to_nat n) (skipn (Z.to_nat off) bs).

(** An array of [uint32_t] seen through a [char*], and back. *)
Definition bytes_of_limbs (ls : list Z) : list byte :=
  flat_map (le_split 4) ls.

Fixpoint limbs_of_bytes (n : nat) (bs : list byte) : list Z :=
  match n with
  | O => []
  | S n' => le_combine (firstn 4 bs) :: limbs_of_bytes n' (skipn 4 bs)
  end.

(** ** arithmetic::Giant

    arithmetic.h is not among the sources.  file.cpp uses five operations
    of the class; they are the interface below.  [giant_data] is the limb
    array behind [data()], least significant limb first, of which
    [size()] limbs make the magnitude. *)

Class GiantOps (G : Type) := {
  giant_size : G -> Z;
  giant_data : G -> list Z;
  giant_is_neg : G -> bool;
  giant_init : list Z -> G -> G;
  giant_neg : G -> G
}.

(** What the serializer relies on for one value [g]: [size()] counts the
    limbs of [data()], a negative value has at least one limb,
    [init(data, size, v)] gives [v] the magnitude held in the limbs with a
    positive sign whatever [v] was, and [neg] flips the sign. *)
Record giant_faithful {G} `{GiantOps G} (g : G) : Prop := {
  giant_data_length : Z.of_nat (length (giant_data g)) = giant_size g;
  giant_data_range : Forall is_u32 (giant_data g);
  giant_neg_nonzero : giant_is_neg g = true -> 0 < giant_size g;
  giant_init_data : forall old,
    giant_is_neg g = false -> giant_init (giant_data g) old = g;
  giant_neg_init : forall old,
    giant_is_neg g = true -> giant_neg (giant_init (giant_data g) old) = g
}.

(** A sign and magnitude instance, used to run the model on examples. *)
Record SMGiant := { sm_limbs : list Z; sm_negative : bool }.

#[export] Instance SMGiant_ops : GiantOps SMGiant := {
  giant_size g := Z.of_nat (length (sm_limbs g));
  giant_data g := sm_limbs g;
  giant_is_neg g := sm_negative g;
  giant_init ls _ := {| sm_limbs := ls; sm_negative := false |};
  giant_neg g :=
    {| sm_limbs := sm_limbs g;
       sm_negative := match sm_limbs g with
                      | [] => false
                      | _ => negb (sm_negative g)
                      end |}
}.

(** ** Writer (file.cpp lines 14-53) *)

Module Writer.

Record t := { _buffer : list byte }.

(** [_buffer.insert(_buffer.end(), first, last)]. *)
Definition insert_end (w : t) (bs : list byte) : t :=
  {| _buffer := _buffer w ++ bs |}.

Definition write_int32 (value : Z) (w : t) : t :=
  insert_end w (le_split 4 value).

Definition write_uint32 (value : Z) (w : t) : t :=
  insert_end w (le_split 4 value).

Definition write_uint64 (value : Z) (w : t) : t :=
  insert_end w (le_split 8 value).

(** A [double] is carried as its 8-byte object representation: the
    serializer only copies it. *)
Definition write_double (value : Z) (w : t) : t :=
  insert_end w (le_split 8 value).

Definition write_string (value : list byte) (w : t) : t :=
  let len := wrap_int (Z.of_nat (length value)) in
  insert_end (insert_end w (le_split 4 len)) value.

Definition write_Giant {G} `{GiantOps G} (value : G) (w : t) : t :=
  let len := wrap_int (giant_size value) in
  let len := if giant_is_neg value then int_mul len (-1) else len in
  insert_end (insert_end w (le_split 4 len))
             (bytes_of_limbs (firstn (Z.to_nat (giant_size value)) (giant_data value))).

Definition write_raw (ptr : list byte) (count : Z) (w : t) : t :=
  insert_end w (slice 0 count ptr).

End Writer.

(** ** Reader (file.cpp lines 72-134)

    [_data] is the buffer the reader was built over and [_size] the
    [int] it was given as its length.  A call either returns [true] with
    the value it stored through the reference, returns [false], or
    dereferences bytes outside offsets [[0, _size)]. *)

Module Reader.

Record t := {
  _format_version : byte;
  _type : byte;
  _version : byte;
  _data : list byte;
  _size : Z;
  _pos : Z
}.

Definition set_pos (r : t) (pos : Z) : t :=
  {| _format_version := _format_version r; _type := _type r;
     _version := _version r; _data := _data r; _size := _size r;
     _pos := pos |}.

Inductive outcome (A : Type) : Type :=
| Returned_true (value : A) (r : t)
| Returned_false (r : t)
| Out_of_bounds.
Arguments Returned_true {A} value r.
Arguments Returned_false {A} r.
Arguments Out_of_bounds {A}.

(** The bytes [_data + off .. _data + off + n), when they lie inside
    the buffer. *)
Definition deref (r : t) (off n : Z) : option (list byte) :=
  if (0 <=? off) && (0 <=? n) && (off + n <=? _size r)
  then Some (slice off n (_data r))
  else None.

Definition read_int32 (r : t) : outcome Z :=
  if _size r <? int_add (_pos r) 4 then Returned_false r
  else match deref r (_pos r) 4 with
       | None => Out_of_bounds
       | Some bs =>
           Returned_true (wrap_int (le_combine bs))
                         (set_pos r (int_add (_pos r) 4))
       end.

Definition read_uint32 (r : t) : outcome Z :=
  if _size r <? int_add (_pos r) 4 then Returned_false r
  else match deref r (_pos r) 4 with
       | None => Out_of_bounds
       | Some bs =>
           Returned_true (le_combine bs) (set_pos r (int_add (_pos r) 4))
       end.

Definition read_uint64 (r : t) : outcome Z :=
  if _size r <? int_add (_pos r) 8 then Returned_false r
  else match deref r (_pos r) 8 with
       | None => Out_of_bounds
       | Some bs =>
           Returned_true (le_combine bs) (set_pos r (int_add (_pos r) 8))
       end.

(** Line 101 tests for 4 bytes; lines 103-104 load and skip
    [sizeof(double)] = 8. *)
Definition read_double (r : t) : outcome Z :=
  if _size r <? int_add (_pos r) 4 then Returned_false r
  else match deref r (_pos r) 8 with
       | None => Out_of_bounds
       | Some bs =>
           Returned_true (le_combine bs) (set_pos r (int_add (_pos r) 8))
       end.

(** [value] is the string the caller passes by reference; line 116
    inserts at its end. *)
Definition read_string (value : list byte) (r : t) : outcome (list byte) :=
  if _size r <? int_add (_pos r) 4 then Returned_false r
  else match deref r (_pos r) 4 with
       | None => Out_of_bounds
       | Some bs =>
           let len := wrap_int (le_combine bs) in
           let r1 := set_pos r (int_add (_pos r) 4) in
           if _size r1 <? int_add (_pos r1) len then Returned_false r1
           else match deref r1 (_pos r1) len with
                | None => Out_of_bounds
                | Some body =>
                    Returned_true (value ++ body)
                                  (set_pos r1 (int_add (_pos r1) len))
                end
       end.

Definition read_Giant {G} `{GiantOps G} (value : G) (r : t) : outcome G :=
  if _size r <? int_add (_pos r) 4 then Returned_false r
  else match deref r (_pos r) 4 with
       | None => Out_of_bounds
       | Some bs =>
           let len := wrap_int (le_combine bs) in
           let r1 := set_pos r (int_add (_pos r) 4) in
           if _size r1 <? int_add (_pos r1) (int_mul (int_abs len) 4)
           then Returned_false r1
           else match deref r1 (_pos r1) (4 * int_abs len) with
                | None => Out_of_bounds
                | Some body =>
                    let v := giant_init
                               (limbs_of_bytes (Z.to_nat (int_abs len)) body)
                               value in
                    let v := if len <? 0 then giant_neg v else v in
                    Returned_true v
                      (set_pos r1 (int_add (_pos r1) (int_mul (int_abs len) 4)))
                end
       end.

(** The reader [File::get_reader] builds over a buffer (line 189 passes
    [_buffer.data()] and [(int)_buffer.size()]). *)
Definition over (fv ty ver : byte) (buffer : list byte) (pos : Z) : t :=
  {| _format_version := fv; _type := ty; _version := ver;
     _data := buffer; _size := wrap_int (Z.of_nat (length buffer));
     _pos := pos |}.

End Reader.

(** ** Sequences of serialized values

    One constructor per overload of [Writer::write] / [Reader::read]. *)

Section Values.
Context {G : Type} `{GiantOps G}.

Inductive value : Type :=
| VInt32 (v : Z)
| VUInt32 (v : Z)
| VUInt64 (v : Z)
| VDouble (v : Z)
| VString (v : list byte)
| VGiant (v : G).

Definition write_value (v : value) (w : Writer.t) : Writer.t :=
  match v with
  | VInt32 x => Writer.write_int32 x w
  | VUInt32 x => Writer.write_uint32 x w
  | VUInt64 x => Writer.write_uint64 x w
  | VDouble x => Writer.write_double x w
  | VString s => Writer.write_string s w
  | VGiant g => Writer.write_Giant g w
  end.

Definition write_all (vs : list value) (w : Writer.t) : Writer.t :=
  fold_left (fun w v => write_value v w) vs w.

(** The bytes one write appends to the buffer. *)
Definition encode (v : value) : list byte :=
  Writer._buffer (write_value v {| Writer._buffer := [] |}).

(** The variable a read stores into: its type and, for the two overloads
    that take an object by reference, what it holds before the call. *)
Inductive dest : Type :=
| DInt32
| DUInt32
| DUInt64
| DDouble
| DString (cur : list byte)
| DGiant (cur : G).

Definition bind_outcome {A B} (o : Reader.outcome A)
    (k : A -> Reader.t -> Reader.outcome B) : Reader.outcome B :=
  match o with
  | Reader.Returned_true v r => k v r
  | Reader.Returned_false r => Reader.Returned_false r
  | Reader.Out_of_bounds => Reader.Out_of_bounds
  end.

Definition read_value (d : dest) (r : Reader.t) : Reader.outcome value :=
  match d with
  | DInt32 =>
      bind_outcome (Reader.read_int32 r) (fun v => Reader.Returned_true (VInt32 v))
  | DUInt32 =>
      bind_outcome (Reader.read_uint32 r) (fun v => Reader.Returned_true (VUInt32 v))
  | DUInt64 =>
      bind_outcome (Reader.read_uint64 r) (fun v => Reader.Returned_true (VUInt64 v))
  | DDouble =>
      bind_outcome (Reader.read_double r) (fun v => Reader.Returned_true (VDouble v))
  | DString cur =>
      bind_outcome (Reader.read_string cur r) (fun v => Reader.Returned_true (VString v))
  | DGiant cur =>
      bind_outcome (Reader.read_Giant cur r) (fun v => Reader.Returned_true (VGiant v))
  end.

(** Reads in order, stopping at the first call that does not return
    [true]. *)
Fixpoint read_all (ds : list dest) (r : Reader.t) : Reader.outcome (list value) :=
  match ds with
  | [] => Reader.Returned_true [] r
  | d :: ds' =>
      bind_outcome (read_value d r) (fun v r1 =>
      bind_outcome (read_all ds' r1) (fun vs r2 =>
      Reader.Returned_true (v :: vs) r2))
  end.

(** A value of its C++ type. *)
Definition value_ok (v : value) : Prop :=
  match v with
  | VInt32 x => is_int x
  | VUInt32 x => is_u32 x
  | VUInt64 x => is_u64 x
  | VDouble x => is_u64 x
  | VString _ => True
  | VGiant g => giant_faithful g
  end.

(** [d] is a variable of the type of [v], a string being empty as
    default-constructed. *)
Definition fresh_for (v : value) (d : dest) : Prop :=
  match v, d with
  | VInt32 _, DInt32 => True
  | VUInt32 _, DUInt32 => True
  | VUInt64 _, DUInt64 => True
  | VDouble _, DDouble => True
  | VString _, DString cur => cur = []
  | VGiant _, DGiant _ => True
  | _, _ => False
  end.

End Values.

Arguments value G : clear implicits.
Arguments dest G : clear implicits.

(** ** File (file.cpp lines 136-264) *)

Module File.

Definition MAGIC_NUM : Z := 0x9f2b3cd4.

Record t := {
  _filename : string;
  _fingerprint : Z;
  _buffer : list byte;
  hash : bool;
  appid : Z
}.

Definition set_buffer (f : t) (buffer : list byte) : t :=
  {| _filename := _filename f; _fingerprint := _fingerprint f;
     _buffer := buffer; hash := hash f; appid := appid f |}.

(** The files that exist, by name. *)
Abbreviation filesystem := (gmap string (list byte)).

(** What the system calls of [writeThrough] do.  The open fails; or the
    write reports [n] bytes and these are the bytes of the file; or, in
    the POSIX branch, [fwrite] reports [n] bytes, which it has put in the
    buffer of the stream, and the flush of [fclose] fails after [landed]
    of them: the file holds those only. *)
Inductive write_result : Type :=
| Open_fails
| Wrote (n : nat)
| Lost_on_close (n landed : nat).

(** Whether the bytes the write reported are the bytes of the file. *)
Definition reached_file (io : write_result) : bool :=
  match io with
  | Lost_on_close n landed => (n <=? landed)%nat
  | _ => true
  end.

(** What the reads of [get_reader] deliver: the byte counts of the two
    [fread] calls, and the content of the local array [md5hash] before
    line 169 fills it. *)
Record read_env := {
  delivered : nat;
  md5_delivered : nat;
  md5hash_garbage : list byte
}.

(** The string a [char] array holds: the bytes before the first NUL. *)
Fixpoint c_str (bs : list byte) : list byte :=
  match bs with
  | [] => []
  | b :: bs' => if decide (b = Byte.x00) then [] else b :: c_str bs'
  end.

(** [remove(name)] and [rename(from, to)], their results ignored as in
    the source. *)
Definition remove (name : string) (fs : filesystem) : filesystem :=
  delete name fs.

Definition rename (from to : string) (fs : filesystem) : filesystem :=
  match fs !! from with
  | Some content => <[to := content]> (delete from fs)
  | None => fs
  end.

(** Lines 192-212.  Both branches return false when the file cannot be
    created, and otherwise whether the write reported all [count] bytes.
    The Windows branch writes through (line 196), so the file holds what
    [WriteFile] reported.  The POSIX branch tests the count of [fwrite]
    (line 207) and does not look at the result of [fclose] (line 209): a
    failed flush leaves fewer bytes in the file than the returned value
    tells. *)
Definition writeThrough (filename : string) (buffer : list byte) (count : Z)
    (io : write_result) (fs : filesystem) : filesystem * bool :=
  match io with
  | Open_fails => (fs, false)
  | Wrote n =>
      let written := firstn n (slice 0 count buffer) in
      (<[filename := written]> fs, Z.of_nat (length written) =? count)
  | Lost_on_close n landed =>
      let written := firstn n (slice 0 count buffer) in
      (<[filename := firstn landed written]> fs,
       Z.of_nat (length written) =? count)
  end.

Section WithMD5.

(** md5.h is not among the sources: [md5_raw_input] is the 32 hexadecimal
    digits the routine of that name leaves in its output array. *)
Variable md5_raw_input : list byte -> list byte.

Definition hash_str (w : Writer.t) : list byte :=
  c_str (md5_raw_input (Writer._buffer w)).

(** Lines 214-233.  [io_new] and [io_md5] are the results of the two
    [writeThrough] calls. *)
Definition commit_writer (f : t) (writer : Writer.t)
    (io_new io_md5 : write_result) (fs : filesystem) : filesystem * t :=
  let new_filename := _filename f +:+ ".new" in
  let '(fs1, ok) :=
    writeThrough new_filename (Writer._buffer writer)
                 (Z.of_nat (length (Writer._buffer writer))) io_new fs in
  if negb ok then (remove new_filename fs1, f)
  else
    let fs2 := remove (_filename f) fs1 in
    let fs3 := rename new_filename (_filename f) fs2 in
    let fs4 :=
      if hash f
      then fst (writeThrough (_filename f +:+ ".md5") (hash_str writer) 32
                             io_md5 fs3)
      else fs3 in
    (fs4, set_buffer f (Writer._buffer writer)).

(** Lines 162-180: [true] when the saved hash lets the buffer through. *)
Definition saved_hash_accepts (f : t) (buffer : list byte) (env : read_env)
    (fs : filesystem) : bool :=
  if hash f then
    match fs !! (_filename f +:+ ".md5") with
    | None => true
    | Some saved =>
        let got := firstn (md5_delivered env) (firstn 32 saved) in
        let md5hash :=
          got ++ skipn (length got)
                       (resize 33 Byte.x00 (md5hash_garbage env)) in
        let md5hash := <[32%nat := Byte.x00]> md5hash in
        let saved_hash := c_str md5hash in
        match saved_hash with
        | [] => true
        | _ => bool_decide (saved_hash = c_str (md5_raw_input buffer))
        end
    end
  else true.

(** Lines 148-190.  Returns the file object with the buffer the call
    leaves in it, and the reader or [None] for [nullptr]. *)
Definition get_reader (f : t) (env : read_env) (fs : filesystem)
    : t * option Reader.t :=
  match fs !! _filename f with
  | None => (f, None)
  | Some content =>
      let filelen := wrap_int (Z.of_nat (length content)) in
      let resized := resize (Z.to_nat (wrap_u64 filelen)) Byte.x00 (_buffer f) in
      let got := firstn (delivered env)
                        (firstn (Z.to_nat (wrap_u64 filelen)) content) in
      let buffer := got ++ skipn (length got) resized in
      let f1 := set_buffer f buffer in
      let filelen := wrap_int (Z.of_nat (length got)) in
      if negb (wrap_u64 filelen =? Z.of_nat (length buffer)) then (f1, None)
      else if negb (saved_hash_accepts f buffer env fs) then (f1, None)
      else if Z.of_nat (length buffer) <? 8 then (f1, None)
      else if negb (le_combine (firstn 4 buffer) =? MAGIC_NUM) then (f1, None)
      else if negb (char_to_int (nth 4 buffer Byte.x00) =? appid f) then (f1, None)
      else (f1, Some (Reader.over (nth 5 buffer Byte.x00) (nth 6 buffer Byte.x00)
                                  (nth 7 buffer Byte.x00) buffer 8))
  end.

(** The result of [File::read]: the value returned together with the
    reader [state.read] was called on, if it was called. *)
Inductive read_result : Type :=
| Read_returns (ret : bool) (called_on : option Reader.t) (f : t)
| Read_out_of_bounds.

(** task.h is not among the sources: [state_type] is [state.type()]
    promoted to [int], [state_read] the virtual [state.read]. *)
Variable state_type : Z.
Variable state_read : Reader.t -> bool.

(** Lines 243-254. *)
Definition read (f : t) (env : read_env) (fs : filesystem) : read_result :=
  match get_reader f env fs with
  | (f1, None) => Read_returns false None f1
  | (f1, Some reader) =>
      if negb (char_to_int (Reader._type reader) =? state_type)
      then Read_returns false None f1
      else match Reader.read_uint32 reader with
           | Reader.Out_of_bounds => Read_out_of_bounds
           | Reader.Returned_false _ => Read_returns false None f1
           | Reader.Returned_true fingerprint reader1 =>
               if negb (fingerprint =? _fingerprint f1)
               then Read_returns false None f1
               else Read_returns (state_read reader1) (Some reader1) f1
           end
  end.

(** The checks of [get_reader] on a file image [content]: the file
    exists, [fread] delivered all of it, the saved hash lets it through,
    it has the 8 header bytes, the magic number and the application id. *)
Record header_accepted (f : t) (env : read_env) (fs : filesystem)
    (content : list byte) : Prop := {
  acc_exists : fs !! _filename f = Some content;
  acc_full_read : (length content <= delivered env)%nat;
  acc_hash : saved_hash_accepts f content env fs = true;
  acc_length : 8 <= Z.of_nat (length content);
  acc_magic : le_combine (firstn 4 content) = MAGIC_NUM;
  acc_appid : char_to_int (nth 4 content Byte.x00) = appid f
}.

(** The checks of [File::read] itself: the type byte and the
    fingerprint stored after the header. *)
Record state_accepted (f : t) (content : list byte) : Prop := {
  acc_type : char_to_int (nth 6 content Byte.x00) = state_type;
  acc_has_fingerprint : 12 <= Z.of_nat (length content);
  acc_fingerprint : le_combine (slice 8 4 content) = _fingerprint f
}.

End WithMD5.

(** The reader [File::read] hands to [state.read]: past the header and
    the fingerprint. *)
Definition payload_reader (content : list byte) : Reader.t :=
  Reader.over (nth 5 content Byte.x00) (nth 6 content Byte.x00)
              (nth 7 content Byte.x00) content 12.

(** The constructor (file.h line 80) with the member initialisers of
    lines 108-109: hashing on, [appid] the static [FILE_APPID], which is
    defined outside file.cpp.  [_hash_filename] and [_children] of the
    header are not used by file.cpp, which builds the name of the hash file
    where it needs it. *)
Definition File (FILE_APPID : Z) (filename : string) (fingerprint : Z) : t :=
  {| _filename := filename; _fingerprint := fingerprint; _buffer := [];
     hash := true; appid := FILE_APPID |}.

(** Lines 136-139. *)
Definition add_child (FILE_APPID : Z) (f : t) (name : string) : t :=
  File FILE_APPID ((_filename f +:+ ".") +:+ name) (_fingerprint f).

(** Lines 141-146.  The writer takes the vector of the file by move
    construction, which leaves the vector of the file empty, and is
    cleared. *)
Definition get_writer (f : t) : t * Writer.t :=
  (set_buffer f [], {| Writer._buffer := [] |}).

(** Lines 235-241. *)
Definition clear (f : t) (fs : filesystem) : filesystem * t :=
  let fs1 := remove (_filename f) fs in
  let md5_filename := _filename f +:+ ".md5" in
  (remove md5_filename fs1, set_buffer f []).

Section Steps.

Variable md5_raw_input : list byte -> list byte.

(** The files as each system call of lines 214-233 leaves them, in the
    order of the calls: the write of the temporary file, then its removal
    when the write failed, or else the removal of the old file, the rename
    and, with hashing on, the write of the hash.  The last of them is what
    [commit_writer] returns. *)
Definition commit_writer_states (f : t) (writer : Writer.t)
    (io_new io_md5 : write_result) (fs : filesystem) : list filesystem :=
  let new_filename := _filename f +:+ ".new" in
  let '(fs1, ok) :=
    writeThrough new_filename (Writer._buffer writer)
                 (Z.of_nat (length (Writer._buffer writer))) io_new fs in
  if negb ok then [fs1; remove new_filename fs1]
  else
    let fs2 := remove (_filename f) fs1 in
    let fs3 := rename new_filename (_filename f) fs2 in
    if hash f
    then [fs1; fs2; fs3;
          fst (writeThrough (_filename f +:+ ".md5") (hash_str md5_raw_input writer)
                            32 io_md5 fs3)]
    else [fs1; fs2; fs3].

End Steps.

Section Write.

Variable md5_raw_input : list byte -> list byte.

(** [FILE_APPID] is the static member of line 77 of file.h; [state_type]
    and [state_version] are [state.type()] and [state.version()] promoted
    to [int], [state_write] the virtual [state.write] (task.h is not among
    the sources). *)
Variable FILE_APPID : Z.
Variable state_type state_version : Z.
Variable state_write : Writer.t -> Writer.t.

(** The [int] of line 260. *)
Definition header_word : Z :=
  int_add (int_add (int_add FILE_APPID (int_shl 0 8)) (int_shl state_type 16))
          (int_shl state_version 24).

(** Lines 256-264.  [MAGIC_NUM] and [_fingerprint] are [uint32_t], the
    sum of line 260 is an [int]. *)
Definition write (f : t) (io_new io_md5 : write_result) (fs : filesystem)
    : filesystem * t :=
  let '(f1, writer) := get_writer f in
  let writer := Writer.write_uint32 MAGIC_NUM writer in
  let writer := Writer.write_int32 header_word writer in
  let writer := Writer.write_uint32 (_fingerprint f1) writer in
  let writer := state_write writer in
  commit_writer md5_raw_input f1 writer io_new io_md5 fs.

End Write.

End File.

(** ** Polymult (gwnum/polymult.h)

    A coefficient is an opaque gwnum; the model carries the integer it
    stands for.  A polynomial is the list of its coefficients, lowest
    degree first, and [invecN_size] is the length of the list. *)

Module Polymult.

(** *** Option bits (polymult.h lines 100-127) *)

Definition POLYMULT_INVEC1_MONIC : Z := 0x1.
Definition POLYMULT_INVEC2_MONIC : Z := 0x2.
Definition POLYMULT_INVEC1_RLP : Z := 0x4.
Definition POLYMULT_INVEC2_RLP : Z := 0x8.
Definition POLYMULT_INVEC1_MONIC_RLP : Z :=
  Z.lor POLYMULT_INVEC1_MONIC POLYMULT_INVEC1_RLP.
Definition POLYMULT_INVEC2_MONIC_RLP : Z :=
  Z.lor POLYMULT_INVEC2_MONIC POLYMULT_INVEC2_RLP.
Definition POLYMULT_INVEC1_NEGATE : Z := 0x10.
Definition POLYMULT_INVEC2_NEGATE : Z := 0x20.
Definition POLYMULT_CIRCULAR : Z := 0x100.
Definition POLYMULT_MULHI : Z := 0x200.
Definition POLYMULT_MULLO : Z := 0x400.
Definition POLYMULT_MULMID : Z := 0x800.
Definition POLYMULT_NO_UNFFT : Z := 0x1000.
Definition POLYMULT_STARTNEXTFFT : Z := 0x2000.
Definition POLYMULT_NEXTFFT : Z := 0x4000.
Definition POLYMULT_FMADD : Z := 0x8000.
Definition POLYMULT_FMSUB : Z := 0x10000.
Definition POLYMULT_FNMADD : Z := 0x20000.
Definition POLYMULT_PRE_FFT : Z := 0x40.
Definition POLYMULT_PRE_COMPRESS : Z := 0x80.

(** [options & flag]. *)
Definition has_option (options flag : Z) : bool :=
  negb (Z.land options flag =? 0).

(** *** Structures (polymult.h lines 159-168, 196-284)

    Of [pmhandle_struct] the fields of the thread pool (events, mutex,
    counters) and the copies of the arguments of the current call are left
    out: the model is sequential and passes the arguments.  Where two
    structures of the source use one field name, the second is prefixed
    here: [twiddles1] and [twiddles2] of the handle are [cur_twiddles1] and
    [cur_twiddles2], [options] and [fft_size] of the header are
    [hdr_options] and [hdr_fft_size], [circular_size] and [options] of a
    [polymult_arg] are [arg_circular_size] and [arg_options].  A vector
    carries its size, and the output vector is what the routines
    return. *)

Record twiddle_entry := {
  size : Z;
  twiddles1 : list Z;
  twiddles2 : list Z
}.

Record pmhandle := {
  twiddles_initialized : Z;
  twiddles_are_from_cache : bool;
  cur_twiddles1 : list Z;
  cur_twiddles2 : list Z;
  KARAT_BREAK : Z;
  FFT_BREAK : Z;
  L2_CACHE_SIZE : Z;
  cached_twiddles_enabled : bool;
  twiddle_cache_additions_disabled : bool;
  cached_twiddles : list twiddle_entry;
  cached_twiddles_count : Z
}.

(** The declared length of the array [cached_twiddles] (line 225). *)
Definition CACHED_TWIDDLES_SLOTS : Z := 40.

Definition no_twiddles : twiddle_entry :=
  {| size := 0; twiddles1 := []; twiddles2 := [] |}.

(** A handle as polymult_init leaves it: nothing cached, caching on.
    The break points and the cache size are set in polymult.c; the values
    here stand for them in examples. *)
Definition initial_handle (karat_break fft_break : Z) : pmhandle :=
  {| twiddles_initialized := 0;
     twiddles_are_from_cache := false;
     cur_twiddles1 := [];
     cur_twiddles2 := [];
     KARAT_BREAK := karat_break;
     FFT_BREAK := fft_break;
     L2_CACHE_SIZE := 256;
     cached_twiddles_enabled := true;
     twiddle_cache_additions_disabled := false;
     cached_twiddles := replicate 40 no_twiddles;
     cached_twiddles_count := 0 |}.

Record polymult_arg := {
  invec2 : list Z;
  outvec_size : nat;
  fmavec : list Z;
  arg_circular_size : nat;
  first_mulmid : nat;
  arg_options : Z
}.

Record preprocessed_poly_header := {
  self_ptr : Z;
  num_lines : Z;
  element_size : Z;
  padded_element_size : Z;
  hdr_options : Z;
  hdr_fft_size : Z;
  monic_ones_included : bool
}.

Record polymult_plan := {
  emulate_circular : bool;
  strip_monic_from_invec1 : bool;
  strip_monic_from_invec2 : bool;
  post_monic_addin_invec1 : bool;
  post_monic_addin_invec2 : bool;
  impl : Z;
  fft_size : nat;
  adjusted_invec1_size : nat;
  adjusted_invec2_size : nat;
  adjusted_outvec_size : nat;
  true_invec1_size : nat;
  true_invec2_size : nat;
  true_outvec_size : nat;
  circular_size : nat;
  LSWs_skipped : nat;
  MSWs_skipped : nat;
  addin : list nat;
  subout : option nat;
  adjusted_shift : nat;
  adjusted_pad : nat
}.

(** *** Recognition of preprocessed polys (polymult.h lines 134-140)

    A pointer is an address, [NULL] is 0.  [memory] gives, for an
    address, the [preprocessed_poly_header] a cast of that address reads.
    [sizeof_gwarray_header] comes from gwnum.h, which is not among the
    sources. *)

Section Preprocessed.

Variable sizeof_gwarray_header : Z.

Definition memory := Z -> preprocessed_poly_header.

Definition header_of (mem : memory) (p : Z) : preprocessed_poly_header :=
  mem (p - sizeof_gwarray_header).

Definition is_preprocessed_poly (mem : memory) (p : Z) : bool :=
  negb (p =? 0) && (self_ptr (header_of mem p) =? p).

Definition is_preffted_poly (mem : memory) (p : Z) : bool :=
  has_option (hdr_options (header_of mem p)) POLYMULT_PRE_FFT.

Definition preprocessed_num_elements (mem : memory) (p : Z) : Z :=
  num_lines (header_of mem p).

Definition preprocessed_element_size (mem : memory) (p : Z) : Z :=
  padded_element_size (header_of mem p).

Definition preprocessed_fft_size (mem : memory) (p : Z) : Z :=
  hdr_fft_size (header_of mem p).

Definition preprocessed_poly_size (mem : memory) (p : Z) : Z :=
  preprocessed_num_elements mem p * preprocessed_element_size mem p.

Definition preprocessed_monics_included (mem : memory) (p : Z) : bool :=
  monic_ones_included (header_of mem p).

Definition store_header (mem : memory) (addr : Z)
    (hdr : preprocessed_poly_header) : memory :=
  fun a => if a =? addr then hdr else mem a.

(** Modelled from the spec: polymult_preprocess, whose body is in
    polymult.c.  Section 4.H: the routine returns a new array whose header
    sits immediately before the returned pointer, by exactly one
    engine-defined header size; section 3: the header carries the
    self-pointer sentinel, the number of lines, the raw and padded element
    size, the requested options, the selected fft_size and the monic flag.
    [block] is the address the engine's allocator returned for the header;
    [lines], [elem], [fft] and [monics] are the values the routine computed
    for the fields.  The padded size is rounded up to a multiple of 64
    unless the poly is compressed (polymult.h line 256). *)
Definition polymult_preprocess (mem : memory) (block : Z)
    (lines elem fft : Z) (monics : bool) (options : Z) : memory * Z :=
  let p := block + sizeof_gwarray_header in
  let padded :=
    if has_option options POLYMULT_PRE_COMPRESS then elem
    else (elem + 63) / 64 * 64 in
  let hdr := {| self_ptr := p; num_lines := lines; element_size := elem;
                padded_element_size := padded; hdr_options := options;
                hdr_fft_size := fft; monic_ones_included := monics |} in
  (store_header mem block hdr, p).

End Preprocessed.

(** *** Twiddle cache *)

Section Twiddles.

(** The sine and cosine tables for one size; their values are floating
    point numbers computed in polymult.c and are not interpreted here. *)
Variable build_twiddles : Z -> list Z * list Z.

Definition cache_lookup (h : pmhandle) (sz : Z) : option twiddle_entry :=
  List.find (fun e => size e =? sz)
            (firstn (Z.to_nat (cached_twiddles_count h)) (cached_twiddles h)).

Definition use_twiddles (h : pmhandle) (e : twiddle_entry) (from_cache : bool)
    (cache : list twiddle_entry) (count : Z) : pmhandle :=
  {| twiddles_initialized := size e;
     twiddles_are_from_cache := from_cache;
     cur_twiddles1 := twiddles1 e;
     cur_twiddles2 := twiddles2 e;
     KARAT_BREAK := KARAT_BREAK h;
     FFT_BREAK := FFT_BREAK h;
     L2_CACHE_SIZE := L2_CACHE_SIZE h;
     cached_twiddles_enabled := cached_twiddles_enabled h;
     twiddle_cache_additions_disabled := twiddle_cache_additions_disabled h;
     cached_twiddles := cache;
     cached_twiddles_count := count |}.

(** Modelled from the spec: the routine that readies the twiddle tables,
    whose body is in polymult.c.  Section 4.A: lookup is by exact match on
    the size; on a miss a new table is built, and inserted if additions are
    enabled and the cache has fewer than 40 entries; otherwise the new
    table is built and used but not cached.  Additions are enabled when
    [cached_twiddles_enabled] is set and
    [twiddle_cache_additions_disabled] is not (polymult.h lines 219-220).
    The insertion is the array store [cached_twiddles[count] = entry]. *)
Definition ensure (h : pmhandle) (sz : Z) : pmhandle :=
  match cache_lookup h sz with
  | Some e =>
      use_twiddles h e true (cached_twiddles h) (cached_twiddles_count h)
  | None =>
      let '(t1, t2) := build_twiddles sz in
      let e := {| size := sz; twiddles1 := t1; twiddles2 := t2 |} in
      if cached_twiddles_enabled h
         && negb (twiddle_cache_additions_disabled h)
         && (cached_twiddles_count h <? CACHED_TWIDDLES_SLOTS)
      then use_twiddles h e true
             (<[Z.to_nat (cached_twiddles_count h) := e]> (cached_twiddles h))
             (cached_twiddles_count h + 1)
      else use_twiddles h e false (cached_twiddles h) (cached_twiddles_count h)
  end.

(** The entry a miss builds. *)
Definition built_entry (sz : Z) : twiddle_entry :=
  {| size := sz; twiddles1 := fst (build_twiddles sz);
     twiddles2 := snd (build_twiddles sz) |}.

(** The handle after a run of requests. *)
Definition ensure_all (h : pmhandle) (sizes : list Z) : pmhandle :=
  fold_left ensure sizes h.

End Twiddles.

Definition additions_enabled (h : pmhandle) : bool :=
  cached_twiddles_enabled h && negb (twiddle_cache_additions_disabled h).

(** The array has its 40 slots and the count stays within them. *)
Record cache_ok (h : pmhandle) : Prop := {
  cache_slots : Z.of_nat (length (cached_twiddles h)) = CACHED_TWIDDLES_SLOTS;
  cache_count : 0 <= cached_twiddles_count h <= CACHED_TWIDDLES_SLOTS
}.

(** *** Polynomials as coefficient lists *)

(** Coefficient [k], zero past the end. *)
Definition coef (p : list Z) (k : nat) : Z := nth k p 0.

(** [f 0 + ... + f (n-1)]. *)
Fixpoint sumZ (f : nat -> Z) (n : nat) : Z :=
  match n with
  | O => 0
  | S n' => sumZ f n' + f n'
  end.

(** The sum over [i + j = k] of [a[i] * b[j]]. *)
Definition convolution (a b : list Z) (k : nat) : Z :=
  sumZ (fun i => coef a i * coef b (k - i)) (S k).

Definition table (f : nat -> Z) (n : nat) : list Z := map f (seq 0 n).

Definition poly_add (a b : list Z) : list Z :=
  table (fun k => coef a k + coef b k) (Nat.max (length a) (length b)).

Definition poly_sub (a b : list Z) : list Z :=
  table (fun k => coef a k - coef b k) (Nat.max (length a) (length b)).

(** Multiplication by [X^n]. *)
Definition poly_shift (n : nat) (a : list Z) : list Z := replicate n 0 ++ a.

(** The reference: the O(n*m) schoolbook loop
    [for i, for j: out[i+j] += a[i] * b[j]] over a zeroed output. *)
Definition schoolbook (a b : list Z) : list Z :=
  fold_left
    (fun out i =>
       fold_left
         (fun out j => alter (Z.add (coef a i * coef b j)) (i + j)%nat out)
         (seq 0 (length b)) out)
    (seq 0 (length a))
    (replicate (length a + length b - 1) 0).







(** *** What a stored vector stands for *)

(** Modelled from the spec: the loading of a line in polymult.c.
    Sections 4.F and 6: NEGATE negates the stored coefficients on load;
    the stored coefficients of an RLP are those of degrees 0 .. n-1 of a
    polynomial whose coefficients of degrees k and -k are equal. *)
Definition loaded (rlp negate : bool) (v : list Z) : list Z :=
  let v := if negate then map Z.opp v else v in
  if rlp then rev (tl v) ++ v else v.

(** Modelled from the spec: the polynomial a stored vector stands for.
    Section 6: MONIC leaves out an implied leading coefficient of one,
    which NEGATE does not negate; on an RLP the leading coefficient stands
    at both ends. *)
Definition expanded (monic rlp negate : bool) (v : list Z) : list Z :=
  let x := loaded rlp negate v in
  if monic then (if rlp then 1 :: x ++ [1] else x ++ [1]) else x.

Definition expanded1 (options : Z) (v : list Z) : list Z :=
  expanded (has_option options POLYMULT_INVEC1_MONIC)
           (has_option options POLYMULT_INVEC1_RLP)
           (has_option options POLYMULT_INVEC1_NEGATE) v.

Definition expanded2 (options : Z) (v : list Z) : list Z :=
  expanded (has_option options POLYMULT_INVEC2_MONIC)
           (has_option options POLYMULT_INVEC2_RLP)
           (has_option options POLYMULT_INVEC2_NEGATE) v.

(** *** Kernels *)

(** Modelled from the spec: the brute force kernel of polymult.c.
    Section 4.D: for each output index k, out[k] is the sum over i+j=k of
    in1[i] * in2[j]. *)
Definition brute_force (in1 in2 : list Z) : list Z :=
  table (convolution in1 in2) (length in1 + length in2 - 1).

(** The recursion base of Karatsuba: an output size below KARAT_BREAK,
    or inputs that cannot be halved. *)
Definition karatsuba_base (karat_break : Z) (in1 in2 : list Z) : bool :=
  (Z.of_nat (length in1 + length in2 - 1) <? karat_break)
  || (Nat.max (length in1) (length in2) <=? 1)%nat.

(** Modelled from the spec: the Karatsuba kernel of polymult.c.
    Section 4.E: split each input polynomial in halves, three half-size
    recursive multiplications, combine with two subtractions and two
    additions; the recursion base is brute force at size < KARAT_BREAK.
    The halves are cut at half the longer input, rounded up.  [depth]
    bounds the recursion; the entry point passes the length of the longer
    input, which the halving does not exhaust before the base case
    ([karatsuba_depth_suffices] below). *)
Fixpoint karatsuba (depth : nat) (karat_break : Z) (in1 in2 : list Z) : list Z :=
  match depth with
  | O => brute_force in1 in2
  | S depth' =>
      let n := Nat.max (length in1) (length in2) in
      if karatsuba_base karat_break in1 in2
      then brute_force in1 in2
      else
        let half := Nat.div2 (S n) in
        let lo1 := firstn half in1 in
        let hi1 := skipn half in1 in
        let lo2 := firstn half in2 in
        let hi2 := skipn half in2 in
        let low := karatsuba depth' karat_break lo1 lo2 in
        let high := karatsuba depth' karat_break hi1 hi2 in
        let cross :=
          karatsuba depth' karat_break (poly_add lo1 hi1) (poly_add lo2 hi2) in
        let middle := poly_sub (poly_sub cross low) high in
        table (coef (poly_add (poly_add low (poly_shift half middle))
                              (poly_shift (half + half) high)))
              (length in1 + length in2 - 1)
  end.

(** Whether the recursion of [karatsuba] reaches a base case on every
    branch before [depth] runs out. *)
Fixpoint karatsuba_terminates (depth : nat) (karat_break : Z)
    (in1 in2 : list Z) : bool :=
  karatsuba_base karat_break in1 in2
  || match depth with
     | O => false
     | S depth' =>
         let half := Nat.div2 (S (Nat.max (length in1) (length in2))) in
         let lo1 := firstn half in1 in
         let hi1 := skipn half in1 in
         let lo2 := firstn half in2 in
         let hi2 := skipn half in2 in
         karatsuba_terminates depth' karat_break lo1 lo2
         && karatsuba_terminates depth' karat_break hi1 hi2
         && karatsuba_terminates depth' karat_break (poly_add lo1 hi1)
                                 (poly_add lo2 hi2)
     end.

(** Modelled from the spec: the poly-FFT kernel of polymult.c.
    Section 4.F: a forward transform of length [fft_size] on each input
    line, a pointwise multiply, an inverse transform.  The transforms work
    on floating point data; the model carries the integers the data stand
    for and not the rounding.  On exact data the inverse transform of the
    pointwise product of two transforms of length n is the cyclic
    convolution of length n: coefficient [k] is the sum of
    [in1[i] * in2[j]] over the [i] and [j] with [(i + j) mod n = k]. *)
Definition poly_fft (fft_size : nat) (in1 in2 : list Z) : list Z :=
  table (fun k =>
           sumZ (fun i =>
                   sumZ (fun j =>
                           if ((i + j) mod fft_size =? k)%nat
                           then coef in1 i * coef in2 j else 0)
                        (length in2))
                (length in1))
        fft_size.

(** [n] with its factors [p] divided out. *)
Fixpoint divide_out (fuel p n : nat) : nat :=
  match fuel with
  | O => n
  | S fuel' =>
      if (1 <? p)%nat && (0 <? n)%nat && (n mod p =? 0)%nat
      then divide_out fuel' p (n / p)
      else n
  end.

(** Modelled from the spec: the lengths the poly-FFT has butterflies
    for, 2^a * 3^b * 5^c (sections 3, 4.A and 4.F). *)
Definition is_fft_size (n : nat) : bool :=
  (divide_out n 5 (divide_out n 3 (divide_out n 2 n)) =? 1)%nat.

Fixpoint next_fft_size (fuel n : nat) : nat :=
  match fuel with
  | O => n
  | S fuel' => if is_fft_size n then n else next_fft_size fuel' (S n)
  end.

(** Modelled from the spec: polymult_fft_size, declared at polymult.h
    line 30, whose body is in polymult.c.  Section 4.F: the smallest
    2^a * 3^b * 5^c that is at least [n].  The search ends before 2n, by
    which a power of two has come.  The preference of section 4.F for a
    length that fits the L2 cache is a matter of speed and is left out. *)
Definition polymult_fft_size (n : nat) : nat := next_fft_size n n.

(** *** Planner *)

(** The positions of the implied ones in the polynomial a stored vector
    of [m] loaded coefficients stands for, and how many of them stand
    below the loaded coefficients. *)
Definition implied_ones (monic rlp : bool) (m : nat) : list nat :=
  if monic then (if rlp then [0%nat; S m] else [m]) else [].

Definition low_ones (monic rlp : bool) : nat :=
  if monic && rlp then 1%nat else 0%nat.

(** The number of loaded coefficients of a vector of size [n], and the
    size of the polynomial it stands for. *)
Definition stored_size (rlp : bool) (n : nat) : nat :=
  if rlp then (n + (n - 1))%nat else n.

Definition true_size (monic rlp : bool) (n : nat) : nat :=
  (stored_size rlp n + length (implied_ones monic rlp (stored_size rlp n)))%nat.

(** Modelled from the spec: the choice of algorithm.  Sections 4.D to
    4.F and polymult.h line 214: brute force below KARAT_BREAK, Karatsuba
    from KARAT_BREAK to below FFT_BREAK, poly-FFT from FFT_BREAK. *)
Definition choose_impl (h : pmhandle) (adjusted_outvec : nat) : Z :=
  if Z.of_nat adjusted_outvec <? KARAT_BREAK h then 0
  else if Z.of_nat adjusted_outvec <? FFT_BREAK h then 1
  else 2.

(** Modelled from the spec: whether the kernel delivers the reduction
    of CIRCULAR by itself.  Section 4.F: the poly-FFT of length fft_size
    computes modulo X^fft_size - 1, which is the reduction asked for when
    the circular size is itself a length of the poly-FFT; the other
    kernels compute the whole convolution. *)
Definition native_circular (h : pmhandle) (adjusted circular : nat)
    (options : Z) : bool :=
  has_option options POLYMULT_CIRCULAR
  && (choose_impl h adjusted =? 2)
  && (polymult_fft_size circular =? circular)%nat.

(** Modelled from the spec: the planner of polymult.c.  Section 4.G:
    (1) the implied one of a monic input is stripped before the multiply
    and re-added afterwards as an add-in of the other polynomial, which
    gives the shortest adjusted convolution, or it is left in, which is
    done when the kernel reduces by itself and the length of the
    convolution is the circular size either way; (2) MULHI, MULLO and
    MULMID become counts of skipped least and most significant
    coefficients of the true output; (3) CIRCULAR: the poly-FFT kernel
    reduces modulo X^fft_size - 1, which is the reduction asked for when
    the circular size is itself a length of the poly-FFT; with another
    kernel or another circular size the reduction is emulated and the
    kernel computes the whole convolution; (4) the algorithm follows from
    the adjusted output size and the two break points; (5) the FFT size,
    the circular size when the kernel reduces and else the smallest length
    that holds the adjusted convolution; (6) the pad that lines the
    partial product up with the true output; (7) the at most four add-in
    indices of the products of implied ones.  The true output of two monic
    inputs leaves out its leading one (polymult.h lines 55-56). *)
Definition make_plan (h : pmhandle) (n1 n2 outvec circular mulmid : nat)
    (options : Z) : polymult_plan :=
  let monic1 := has_option options POLYMULT_INVEC1_MONIC in
  let monic2 := has_option options POLYMULT_INVEC2_MONIC in
  let rlp1 := has_option options POLYMULT_INVEC1_RLP in
  let rlp2 := has_option options POLYMULT_INVEC2_RLP in
  let m1 := stored_size rlp1 n1 in
  let m2 := stored_size rlp2 n2 in
  let t1 := true_size monic1 rlp1 n1 in
  let t2 := true_size monic2 rlp2 n2 in
  let adjusted := (m1 + m2 - 1)%nat in
  let full := (t1 + t2 - 1)%nat in
  let true_out :=
    if has_option options POLYMULT_CIRCULAR then circular
    else if monic1 && monic2 then (full - 1)%nat else full in
  let algorithm := choose_impl h adjusted in
  let native := native_circular h adjusted circular options in
  let strip1 := monic1 && negb native in
  let strip2 := monic2 && negb native in
  let lsws :=
    if has_option options POLYMULT_MULHI then (true_out - outvec)%nat
    else if has_option options POLYMULT_MULMID then mulmid
    else 0%nat in
  {| emulate_circular := has_option options POLYMULT_CIRCULAR && negb native;
     strip_monic_from_invec1 := strip1;
     strip_monic_from_invec2 := strip2;
     post_monic_addin_invec1 := strip2;
     post_monic_addin_invec2 := strip1;
     impl := algorithm;
     fft_size := if native then circular else polymult_fft_size adjusted;
     adjusted_invec1_size := if native then t1 else m1;
     adjusted_invec2_size := if native then t2 else m2;
     adjusted_outvec_size := if native then circular else adjusted;
     true_invec1_size := t1;
     true_invec2_size := t2;
     true_outvec_size := true_out;
     circular_size := circular;
     LSWs_skipped := lsws;
     MSWs_skipped := (true_out - lsws - outvec)%nat;
     addin :=
       if native then []
       else
         p ← implied_ones monic1 rlp1 m1;
         q ← implied_ones monic2 rlp2 m2;
         [(p + q)%nat];
     subout := None;
     adjusted_shift := lsws;
     adjusted_pad :=
       if native then 0%nat
       else (low_ones monic1 rlp1 + low_ones monic2 rlp2)%nat |}.

(** *** Post-processing *)

(** Adds [c] into coefficient [k], growing the polynomial when needed. *)
Definition add_at (k : nat) (c : Z) (p : list Z) : list Z :=
  poly_add p (poly_shift k [c]).

(** Modelled from the spec: the emulation of CIRCULAR.  Section 4.F: the
    kernel produces the full convolution and the post-pass wraps high
    coefficients into low, each coefficient of degree d >= S being added
    into degree d mod S. *)
Definition wrap_circular (S : nat) (full : list Z) : list Z :=
  fold_left
    (fun out d => alter (Z.add (coef full d)) (d mod S)%nat out)
    (seq S (length full - S))
    (table (coef full) S).

(** Modelled from the spec: the FMA options.  polymult.h lines 120-122:
    FMADD computes invec1 * invec2 + fmavec, FMSUB invec1 * invec2 - fmavec,
    FNMADD fmavec - invec1 * invec2. *)
Definition fma_combine (options : Z) (f product : Z) : Z :=
  if has_option options POLYMULT_FMADD then product + f
  else if has_option options POLYMULT_FMSUB then product - f
  else if has_option options POLYMULT_FNMADD then f - product
  else product.

(** *** One multiplication *)

(** The kernel the plan names: 0 brute force, 1 Karatsuba, 2 poly-FFT
    (polymult.h line 269). *)
Definition run_kernel (h : pmhandle) (plan : polymult_plan)
    (in1 in2 : list Z) : list Z :=
  if impl plan =? 0 then brute_force in1 in2
  else if impl plan =? 1
       then karatsuba (Nat.max (length in1) (length in2)) (KARAT_BREAK h) in1 in2
       else poly_fft (fft_size plan) in1 in2.

(** Modelled from the spec: one multiplication of polymult.c, for a
    resolved plan.  Sections 2 and 4: the lines are loaded with NEGATE
    and RLP applied, a monic input the plan does not strip is loaded with
    its ones; the kernel of the plan multiplies; post-processing pads the
    partial product, adds in the other polynomial for each stripped one
    and a one at each add-in index, reduces modulo X^S - 1 when CIRCULAR
    is emulated, skips the least significant coefficients of the plan,
    combines with the FMA vector and delivers [outvec] coefficients. *)
Definition multiply (h : pmhandle) (plan : polymult_plan) (options : Z)
    (invec1 invec2 fma : list Z) (outvec : nat) : list Z :=
  let monic1 := has_option options POLYMULT_INVEC1_MONIC in
  let monic2 := has_option options POLYMULT_INVEC2_MONIC in
  let rlp1 := has_option options POLYMULT_INVEC1_RLP in
  let rlp2 := has_option options POLYMULT_INVEC2_RLP in
  let x1 := loaded rlp1 (has_option options POLYMULT_INVEC1_NEGATE) invec1 in
  let x2 := loaded rlp2 (has_option options POLYMULT_INVEC2_NEGATE) invec2 in
  let strip1 := strip_monic_from_invec1 plan in
  let strip2 := strip_monic_from_invec2 plan in
  let in1 := if strip1 then x1 else expanded1 options invec1 in
  let in2 := if strip2 then x2 else expanded2 options invec2 in
  let ones1 := if strip1 then implied_ones monic1 rlp1 (length x1) else [] in
  let ones2 := if strip2 then implied_ones monic2 rlp2 (length x2) else [] in
  let low1 := if strip1 then low_ones monic1 rlp1 else 0%nat in
  let low2 := if strip2 then low_ones monic2 rlp2 else 0%nat in
  let partial := poly_shift (adjusted_pad plan) (run_kernel h plan in1 in2) in
  let with2 :=
    if post_monic_addin_invec2 plan
    then fold_left (fun acc p => poly_add acc (poly_shift (p + low2) in2))
                   ones1 partial
    else partial in
  let with1 :=
    if post_monic_addin_invec1 plan
    then fold_left (fun acc q => poly_add acc (poly_shift (low1 + q) in1))
                   ones2 with2
    else with2 in
  let full := fold_left (fun acc k => add_at k 1 acc) (addin plan) with1 in
  let reduced :=
    if emulate_circular plan then wrap_circular (circular_size plan) full
    else full in
  table (fun k => fma_combine options (coef fma k)
                    (coef reduced (k + adjusted_shift plan)))
        outvec.

(** *** Entry points (polymult.h lines 58-98, 170-176) *)

(** Modelled from the spec: polymult_several of polymult.c.  Options not
    associated with poly 1 apply to every other poly (polymult.h line
    176); each other poly is planned and multiplied on its own. *)
Definition polymult_several (h : pmhandle) (invec1 : list Z)
    (other_polys : list polymult_arg) (options : Z) : list (list Z) :=
  map (fun arg =>
         let opts := Z.lor options (arg_options arg) in
         let plan := make_plan h (length invec1) (length (invec2 arg))
                               (outvec_size arg) (arg_circular_size arg)
                               (first_mulmid arg) opts in
         multiply h plan opts invec1 (invec2 arg) (fmavec arg) (outvec_size arg))
      other_polys.

(** Modelled from the spec: polymult2 of polymult.c, which supports every
    option (polymult.h line 86): one other poly handed to
    [polymult_several]. *)
Definition polymult2 (h : pmhandle) (invec1 invec2 : list Z) (outvec : nat)
    (fma : list Z) (circular mulmid : nat) (options : Z) : list Z :=
  let arg := {| invec2 := invec2; outvec_size := outvec; fmavec := fma;
                arg_circular_size := circular; first_mulmid := mulmid;
                arg_options := options |} in
  hd [] (polymult_several h invec1 [arg] options).

(** The option words the two original entry points refuse: CIRCULAR
    together with MULHI or MULLO (polymult.h lines 67-68, 81-82, 110-113),
    and MULMID (line 114). *)
Definition illegal_for_polymult (options : Z) : bool :=
  (has_option options POLYMULT_CIRCULAR
   && (has_option options POLYMULT_MULHI || has_option options POLYMULT_MULLO))
  || has_option options POLYMULT_MULMID.


(** Modelled from the spec: polymult_fma of polymult.c.  Section 7: an
    illegal option combination is a configuration error, fatal to the
    call, and no result is written; [None] is that outcome.  The size
    argument doubles as the circular size (polymult.h lines 65, 79). *)
Definition polymult_fma (h : pmhandle) (invec1 invec2 : list Z) (outvec : nat)
    (fma : list Z) (options : Z) : option (list Z) :=
  if illegal_for_polymult options then None
  else Some (polymult2 h invec1 invec2 outvec fma outvec 0 options).

(** Modelled from the spec: polymult of polymult.c, the same without an
    FMA vector; a coefficient that is not there is read as zero
    (section 4.C). *)
Definition polymult (h : pmhandle) (invec1 invec2 : list Z) (outvec : nat)
    (options : Z) : option (list Z) :=
  polymult_fma h invec1 invec2 outvec [] options.

End Polymult.

(** * Proofs: the serializer *)

Lemma wrap_int_small z : is_int z -> wrap_int z = z.
Proof.
  unfold is_int, INT_MIN, INT_MAX, wrap_int. intros Hz.
  rewrite Z.mod_small; lia.
Qed.

Lemma wrap_int_mod z : is_int z -> wrap_int (z mod 2 ^ 32) = z.
Proof.
  unfold is_int, INT_MIN, INT_MAX, wrap_int. intros Hz.
  rewrite Zplus_mod_idemp_l. rewrite Z.mod_small; lia.
Qed.

Lemma le_combine_split_small n z :
  0 <= z < 2 ^ (Z.of_nat n * 8) -> le_combine (le_split n z) = z.
Proof. intros Hz. rewrite le_combine_split. apply Z.mod_small, Hz. Qed.

Lemma slice_app_mid (pre mid rest : list byte) n :
  n = Z.of_nat (length mid) ->
  slice (Z.of_nat (length pre)) n (pre ++ mid ++ rest) = mid.
Proof.
  intros ->. unfold slice. rewrite !Nat2Z.id.
  rewrite drop_app_length. rewrite take_app_length. reflexivity.
Qed.

(** A reader standing between [pre] and [rest] of a buffer that an [int]
    can measure. *)
Record stands_at (r : Reader.t) (pre rest : list byte) : Prop := {
  at_data : Reader._data r = pre ++ rest;
  at_size : Reader._size r = Z.of_nat (length (pre ++ rest));
  at_pos : Reader._pos r = Z.of_nat (length pre);
  at_fits : Z.of_nat (length (pre ++ rest)) <= INT_MAX
}.

Lemma stands_at_advance r pre mid rest :
  stands_at r pre (mid ++ rest) ->
  stands_at (Reader.set_pos r (Z.of_nat (length pre) + Z.of_nat (length mid)))
            (pre ++ mid) rest.
Proof.
  intros [Hd Hs Hp Hf]. split; simpl.
  - rewrite Hd. apply app_assoc.
  - rewrite Hs, <- app_assoc. reflexivity.
  - rewrite length_app. lia.
  - rewrite <- app_assoc. exact Hf.
Qed.

Lemma deref_stands r pre mid rest n :
  stands_at r pre (mid ++ rest) ->
  n = Z.of_nat (length mid) ->
  Reader.deref r (Reader._pos r) n = Some mid.
Proof.
  intros [Hd Hs Hp Hf] ->. unfold Reader.deref.
  rewrite Hp, Hs, Hd. rewrite !length_app.
  replace (_ && _ && _) with true.
  - f_equal. apply slice_app_mid. reflexivity.
  - symmetry. rewrite !andb_true_iff, !Z.leb_le. lia.
Qed.

Lemma int_add_stands r pre mid rest n :
  stands_at r pre (mid ++ rest) ->
  0 <= n <= Z.of_nat (length mid) ->
  int_add (Reader._pos r) n = Z.of_nat (length pre) + n.
Proof.
  intros [Hd Hs Hp Hf] Hn. unfold int_add. rewrite Hp.
  apply wrap_int_small. rewrite !length_app in Hf.
  unfold is_int, INT_MIN, INT_MAX in *. lia.
Qed.

Lemma size_check_passes r pre mid rest n :
  stands_at r pre (mid ++ rest) ->
  0 <= n <= Z.of_nat (length mid) ->
  (Reader._size r <? int_add (Reader._pos r) n) = false.
Proof.
  intros Hst Hn. rewrite (int_add_stands _ _ _ _ _ Hst Hn).
  destruct Hst as [Hd Hs Hp Hf]. rewrite Hs, !length_app.
  apply Z.ltb_ge. lia.
Qed.

(** Before a scalar of [k] bytes: the load of [k] bytes finds it, and
    every test for [k] bytes or fewer passes. *)
Lemma read_scalar_stands r pre rest (k : nat) z :
  stands_at r pre (le_split k z ++ rest) ->
  Reader.deref r (Reader._pos r) (Z.of_nat k) = Some (le_split k z)
  /\ int_add (Reader._pos r) (Z.of_nat k) = Z.of_nat (length pre) + Z.of_nat k
  /\ forall n, 0 <= n <= Z.of_nat k ->
               (Reader._size r <? int_add (Reader._pos r) n) = false.
Proof.
  intros Hst. split; [|split].
  - eapply deref_stands; [exact Hst|]. now rewrite length_le_split.
  - eapply int_add_stands; [exact Hst|]. rewrite length_le_split. lia.
  - intros n Hn. eapply size_check_passes; [exact Hst|].
    rewrite length_le_split. lia.
Qed.

Lemma read_int32_stands r pre rest z :
  is_int z ->
  stands_at r pre (le_split 4 z ++ rest) ->
  Reader.read_int32 r =
    Reader.Returned_true z (Reader.set_pos r (Z.of_nat (length pre) + 4)).
Proof.
  intros Hz Hst. destruct (read_scalar_stands _ _ _ 4 _ Hst) as (Hd & Ha & Hc).
  unfold Reader.read_int32. rewrite (Hc 4) by lia.
  change 4 with (Z.of_nat 4) at 1 2 3. rewrite Hd, Ha.
  rewrite le_combine_split. change (Z.of_nat 4 * 8) with 32.
  now rewrite wrap_int_mod.
Qed.

Lemma read_uint32_stands r pre rest z :
  is_u32 z ->
  stands_at r pre (le_split 4 z ++ rest) ->
  Reader.read_uint32 r =
    Reader.Returned_true z (Reader.set_pos r (Z.of_nat (length pre) + 4)).
Proof.
  intros Hz Hst. destruct (read_scalar_stands _ _ _ 4 _ Hst) as (Hd & Ha & Hc).
  unfold Reader.read_uint32. rewrite (Hc 4) by lia.
  change 4 with (Z.of_nat 4) at 1 2 3. rewrite Hd, Ha.
  now rewrite le_combine_split_small.
Qed.

Lemma read_uint64_stands r pre rest z :
  is_u64 z ->
  stands_at r pre (le_split 8 z ++ rest) ->
  Reader.read_uint64 r =
    Reader.Returned_true z (Reader.set_pos r (Z.of_nat (length pre) + 8)).
Proof.
  intros Hz Hst. destruct (read_scalar_stands _ _ _ 8 _ Hst) as (Hd & Ha & Hc).
  unfold Reader.read_uint64. rewrite (Hc 8) by lia.
  change 8 with (Z.of_nat 8) at 1 2 3. rewrite Hd, Ha.
  now rewrite le_combine_split_small.
Qed.

(** The test of line 101 asks for less than the load needs; after a
    write of eight bytes both are met. *)
Lemma read_double_stands r pre rest z :
  is_u64 z ->
  stands_at r pre (le_split 8 z ++ rest) ->
  Reader.read_double r =
    Reader.Returned_true z (Reader.set_pos r (Z.of_nat (length pre) + 8)).
Proof.
  intros Hz Hst. destruct (read_scalar_stands _ _ _ 8 _ Hst) as (Hd & Ha & Hc).
  unfold Reader.read_double. rewrite (Hc 4) by lia.
  change 8 with (Z.of_nat 8) at 1 2. rewrite Hd, Ha.
  now rewrite le_combine_split_small.
Qed.

Lemma stands_at_length r pre rest :
  stands_at r pre rest ->
  Z.of_nat (length pre) + Z.of_nat (length rest) <= INT_MAX.
Proof. intros [_ _ _ Hf]. rewrite length_app in Hf. lia. Qed.

(** The length prefix shared by strings and Giants: a 4-byte [int]. *)
Lemma read_length_prefix r pre rest len :
  is_int len ->
  stands_at r pre (le_split 4 len ++ rest) ->
  (Reader._size r <? int_add (Reader._pos r) 4) = false
  /\ Reader.deref r (Reader._pos r) 4 = Some (le_split 4 len)
  /\ wrap_int (le_combine (le_split 4 len)) = len
  /\ stands_at (Reader.set_pos r (int_add (Reader._pos r) 4))
               (pre ++ le_split 4 len) rest.
Proof.
  intros Hl Hst. destruct (read_scalar_stands _ _ _ 4 _ Hst) as (Hd & Ha & Hc).
  split; [|split; [|split]].
  - apply Hc. lia.
  - exact Hd.
  - rewrite le_combine_split. now apply wrap_int_mod.
  - change 4 with (Z.of_nat 4) at 1. rewrite Ha.
    rewrite <- (length_le_split 4 len) at 1.
    now apply stands_at_advance.
Qed.

(** [read(std::string&)] appends what it reads to the string it is
    given. *)
Lemma read_string_stands r pre rest (cur s : list byte) :
  stands_at r pre ((le_split 4 (wrap_int (Z.of_nat (length s))) ++ s) ++ rest) ->
  exists r',
    Reader.read_string cur r = Reader.Returned_true (cur ++ s) r'
    /\ stands_at r' (pre ++ le_split 4 (wrap_int (Z.of_nat (length s))) ++ s)
                 rest.
Proof.
  intros Hst. pose proof (stands_at_length _ _ _ Hst) as Hlen.
  rewrite !length_app, length_le_split in Hlen.
  assert (Hs : is_int (Z.of_nat (length s)))
    by (unfold is_int, INT_MIN, INT_MAX in *; lia).
  rewrite (wrap_int_small _ Hs) in *. rewrite <- app_assoc in Hst.
  destruct (read_length_prefix _ _ _ _ Hs Hst) as (Hc & Hd & Hw & Hst1).
  unfold Reader.read_string. rewrite Hc, Hd. cbv zeta. rewrite Hw.
  set (r1 := Reader.set_pos r (int_add (Reader._pos r) 4)) in *.
  rewrite (size_check_passes _ _ _ _ _ Hst1) by lia.
  rewrite (deref_stands _ _ _ _ _ Hst1 eq_refl).
  rewrite (int_add_stands _ _ _ _ _ Hst1) by lia.
  eexists. split; [reflexivity|].
  rewrite app_assoc. now apply (stands_at_advance r1).
Qed.

Lemma length_bytes_of_limbs ls :
  length (bytes_of_limbs ls) = (4 * length ls)%nat.
Proof.
  unfold bytes_of_limbs. induction ls as [|x ls IH]; simpl; [reflexivity|].
  rewrite IH. lia.
Qed.

Lemma limbs_of_bytes_of_limbs ls :
  Forall is_u32 ls -> limbs_of_bytes (length ls) (bytes_of_limbs ls) = ls.
Proof.
  induction 1 as [|x ls Hx _ IH];
    cbn [length limbs_of_bytes bytes_of_limbs flat_map]; [reflexivity|].
  fold (bytes_of_limbs ls).
  change (take 4 (le_split 4 x ++ bytes_of_limbs ls))
    with (take (length (le_split 4 x)) (le_split 4 x ++ bytes_of_limbs ls)).
  change (drop 4 (le_split 4 x ++ bytes_of_limbs ls))
    with (drop (length (le_split 4 x)) (le_split 4 x ++ bytes_of_limbs ls)).
  rewrite take_app_length, drop_app_length, IH.
  now rewrite le_combine_split_small.
Qed.

Section GiantRead.
Context {G : Type} `{GiantOps G}.

(** The length word [Writer::write] stores for a Giant. *)
Definition giant_len (g : G) : Z :=
  if giant_is_neg g then - giant_size g else giant_size g.

Lemma encode_Giant (g : G) :
  giant_faithful g ->
  encode (VGiant g) =
    le_split 4 (if giant_is_neg g then int_mul (wrap_int (giant_size g)) (-1)
                else wrap_int (giant_size g))
    ++ bytes_of_limbs (giant_data g).
Proof.
  intros Hg. unfold encode. cbn.
  rewrite <- (giant_data_length g Hg), Nat2Z.id, firstn_all. reflexivity.
Qed.

Lemma read_Giant_stands r pre rest (cur g : G) :
  giant_faithful g ->
  stands_at r pre (encode (VGiant g) ++ rest) ->
  exists r', Reader.read_Giant cur r = Reader.Returned_true g r'
             /\ stands_at r' (pre ++ encode (VGiant g)) rest.
Proof.
  intros Hg Hst. rewrite (encode_Giant g Hg) in *.
  destruct Hg as [Hgl Hgr Hgn Hgi Hgni].
  pose proof (stands_at_length _ _ _ Hst) as Hlen.
  rewrite !length_app, length_le_split, length_bytes_of_limbs in Hlen.
  assert (Hs : is_int (giant_size g))
    by (unfold is_int, INT_MIN, INT_MAX in *; lia).
  rewrite (wrap_int_small _ Hs) in *.
  set (len := if giant_is_neg g then int_mul (giant_size g) (-1)
              else giant_size g) in *.
  assert (Hlen_eq : len = giant_len g).
  { unfold len, giant_len, int_mul. destruct (giant_is_neg g); [|reflexivity].
    rewrite wrap_int_small; unfold is_int, INT_MIN, INT_MAX in *; lia. }
  assert (Hl : is_int len).
  { rewrite Hlen_eq. unfold giant_len, is_int, INT_MIN, INT_MAX in *.
    destruct (giant_is_neg g); lia. }
  assert (Habs : int_abs len = giant_size g).
  { rewrite Hlen_eq. unfold giant_len, int_abs.
    destruct (giant_is_neg g); rewrite ?Z.abs_opp, Z.abs_eq by lia;
      now apply wrap_int_small. }
  assert (Hmul : int_mul (int_abs len) 4
                 = Z.of_nat (length (bytes_of_limbs (giant_data g)))).
  { rewrite Habs, length_bytes_of_limbs. unfold int_mul.
    rewrite wrap_int_small; unfold is_int, INT_MIN, INT_MAX in *; lia. }
  rewrite <- app_assoc in Hst.
  destruct (read_length_prefix _ _ _ _ Hl Hst) as (Hc & Hd & Hw & Hst1).
  unfold Reader.read_Giant. rewrite Hc, Hd. cbv zeta. rewrite Hw.
  set (r1 := Reader.set_pos r (int_add (Reader._pos r) 4)) in *.
  rewrite Hmul.
  rewrite (size_check_passes _ _ _ _ _ Hst1) by lia.
  rewrite (deref_stands _ _ (bytes_of_limbs (giant_data g)) _ _ Hst1)
    by (rewrite Habs, length_bytes_of_limbs; lia).
  rewrite (int_add_stands _ _ _ _ _ Hst1) by lia.
  rewrite Habs, <- Hgl, Nat2Z.id, (limbs_of_bytes_of_limbs _ Hgr).
  eexists. split.
  - f_equal. rewrite Hlen_eq. unfold giant_len.
    destruct (giant_is_neg g) eqn:Hneg.
    + specialize (Hgn eq_refl).
      replace (- giant_size g <? 0) with true by (symmetry; apply Z.ltb_lt; lia).
      now apply Hgni.
    + replace (giant_size g <? 0) with false by (symmetry; apply Z.ltb_ge; lia).
      now apply Hgi.
  - rewrite app_assoc. now apply (stands_at_advance r1).
Qed.

End GiantRead.

Section RoundTrip.
Context {G : Type} `{GiantOps G}.

Lemma write_value_encode (v : value G) (w : Writer.t) :
  Writer._buffer (write_value v w) = Writer._buffer w ++ encode v.
Proof.
  destruct v; unfold encode; cbn; rewrite <- ?app_assoc; reflexivity.
Qed.

Lemma write_all_encode (vs : list (value G)) (w : Writer.t) :
  Writer._buffer (write_all vs w) = Writer._buffer w ++ concat (map encode vs).
Proof.
  revert w. induction vs as [|v vs IH]; intros w; cbn [write_all fold_left map concat].
  - now rewrite app_nil_r.
  - fold (write_all vs (write_value v w)).
    rewrite IH, write_value_encode, <- app_assoc. reflexivity.
Qed.

(** One read of the matching type, over what one write produced. *)
Lemma read_value_stands (v : value G) (d : dest G) r pre rest :
  value_ok v -> fresh_for v d ->
  stands_at r pre (encode v ++ rest) ->
  exists r', read_value d r = Reader.Returned_true v r'
             /\ stands_at r' (pre ++ encode v) rest.
Proof.
  intros Hv Hd Hst.
  destruct v, d; cbn [fresh_for] in Hd; try contradiction;
    cbn [value_ok] in Hv; cbn [read_value].
  - change (encode (VInt32 v)) with (le_split 4 v) in *.
    rewrite (read_int32_stands _ _ _ _ Hv Hst). eexists; split; [reflexivity|].
    now apply (stands_at_advance r pre (le_split 4 v)).
  - change (encode (VUInt32 v)) with (le_split 4 v) in *.
    rewrite (read_uint32_stands _ _ _ _ Hv Hst). eexists; split; [reflexivity|].
    now apply (stands_at_advance r pre (le_split 4 v)).
  - change (encode (VUInt64 v)) with (le_split 8 v) in *.
    rewrite (read_uint64_stands _ _ _ _ Hv Hst). eexists; split; [reflexivity|].
    now apply (stands_at_advance r pre (le_split 8 v)).
  - change (encode (VDouble v)) with (le_split 8 v) in *.
    rewrite (read_double_stands _ _ _ _ Hv Hst). eexists; split; [reflexivity|].
    now apply (stands_at_advance r pre (le_split 8 v)).
  - subst cur.
    change (encode (VString v))
      with (le_split 4 (wrap_int (Z.of_nat (length v))) ++ v) in *.
    destruct (read_string_stands _ _ _ [] _ Hst) as (r' & Hr & Hst').
    rewrite Hr. now exists r'.
  - destruct (read_Giant_stands _ _ _ cur _ Hv Hst) as (r' & Hr & Hst').
    rewrite Hr. now exists r'.
Qed.

Lemma read_all_stands (vs : list (value G)) (ds : list (dest G)) r pre :
  Forall value_ok vs -> Forall2 fresh_for vs ds ->
  stands_at r pre (concat (map encode vs)) ->
  exists r', read_all ds r = Reader.Returned_true vs r'
             /\ stands_at r' (pre ++ concat (map encode vs)) [].
Proof.
  intros Hok Hfresh. revert r pre Hok.
  induction Hfresh as [|v d vs ds Hd _ IH]; intros r pre Hok Hst.
  - exists r. split; [reflexivity|]. cbn in *. now rewrite app_nil_r.
  - inversion Hok as [|? ? Hv Hvs]; subst.
    cbn [map concat] in *.
    destruct (read_value_stands _ _ _ _ _ Hv Hd Hst) as (r1 & Hr1 & Hst1).
    destruct (IH r1 (pre ++ encode v) Hvs Hst1) as (r2 & Hr2 & Hst2).
    exists r2. split.
    + cbn [read_all]. rewrite Hr1. cbn [bind_outcome]. rewrite Hr2. reflexivity.
    + now rewrite <- app_assoc in Hst2.
Qed.

End RoundTrip.

(** *** Bounds of the reads *)

(** A reader as [File::get_reader] builds it, with room to spare below
    [INT_MAX] so that [_pos + 8] does not overflow. *)
Record well_placed (r : Reader.t) : Prop := {
  placed_size : Reader._size r = Z.of_nat (length (Reader._data r));
  placed_pos : 0 <= Reader._pos r <= Reader._size r;
  placed_fits : Reader._size r <= INT_MAX - 8
}.

Lemma int_add_placed r n :
  well_placed r -> 0 <= n <= 8 -> int_add (Reader._pos r) n = Reader._pos r + n.
Proof.
  intros [Hs Hp Hf] Hn. unfold int_add. apply wrap_int_small.
  unfold is_int, INT_MIN, INT_MAX in *. lia.
Qed.

Lemma deref_in_bounds r n :
  well_placed r -> 0 <= n -> Reader._pos r + n <= Reader._size r ->
  Reader.deref r (Reader._pos r) n = Some (slice (Reader._pos r) n (Reader._data r)).
Proof.
  intros [Hs Hp Hf] Hn Hle. unfold Reader.deref.
  replace (_ && _ && _) with true; [reflexivity|].
  symmetry. rewrite !andb_true_iff, !Z.leb_le. lia.
Qed.

(** The overloads whose test matches their load stay inside the buffer. *)
Lemma read_int32_in_bounds r :
  well_placed r -> Reader.read_int32 r <> Reader.Out_of_bounds.
Proof.
  intros Hr. unfold Reader.read_int32. rewrite (int_add_placed r 4 Hr) by lia.
  destruct (Z.ltb_spec (Reader._size r) (Reader._pos r + 4)); [discriminate|].
  rewrite deref_in_bounds by (trivial; lia). discriminate.
Qed.

Lemma read_uint32_in_bounds r :
  well_placed r -> Reader.read_uint32 r <> Reader.Out_of_bounds.
Proof.
  intros Hr. unfold Reader.read_uint32. rewrite (int_add_placed r 4 Hr) by lia.
  destruct (Z.ltb_spec (Reader._size r) (Reader._pos r + 4)); [discriminate|].
  rewrite deref_in_bounds by (trivial; lia). discriminate.
Qed.

Lemma read_uint64_in_bounds r :
  well_placed r -> Reader.read_uint64 r <> Reader.Out_of_bounds.
Proof.
  intros Hr. unfold Reader.read_uint64. rewrite (int_add_placed r 8 Hr) by lia.
  destruct (Z.ltb_spec (Reader._size r) (Reader._pos r + 8)); [discriminate|].
  rewrite deref_in_bounds by (trivial; lia). discriminate.
Qed.

(** [read(double&)] leaves the buffer exactly when 4 to 7 bytes remain. *)
Lemma read_double_out_of_bounds_iff r :
  well_placed r ->
  Reader.read_double r = Reader.Out_of_bounds
  <-> 4 <= Reader._size r - Reader._pos r < 8.
Proof.
  intros Hr. unfold Reader.read_double. rewrite (int_add_placed r 4 Hr) by lia.
  destruct (Z.ltb_spec (Reader._size r) (Reader._pos r + 4)).
  - split; [discriminate|lia].
  - destruct (Z.le_gt_cases (Reader._pos r + 8) (Reader._size r)) as [Hle|Hgt].
    + rewrite deref_in_bounds by (trivial; lia). split; [discriminate|lia].
    + unfold Reader.deref.
      replace (Reader._pos r + 8 <=? Reader._size r) with false
        by (symmetry; apply Z.leb_gt; lia).
      rewrite andb_false_r. split; [lia|reflexivity].
Qed.

(** A 12-byte file image: the 8-byte header and 4 bytes of payload. *)
Definition twelve_bytes : list byte :=
  le_split 4 File.MAGIC_NUM ++ le_split 4 0 ++ le_split 4 1.

(** A header followed by a string whose length word is -1. *)
Definition negative_length : list byte :=
  le_split 4 File.MAGIC_NUM ++ le_split 4 0 ++ le_split 4 (-1).

(** C8.  [Reader::read(double&)] does not stay inside [[0, _size)]: over
    a 12-byte buffer with [_pos = 8] the test of line 101 passes (4 bytes
    remain) and line 103 loads the 8 bytes at offsets 8..15, where
    [read(uint64_t&)] returns [false]; and [read(std::string&)] does not
    return [false] on a negative length word: the test of line 114 passes
    and line 116 runs with [_data + _pos + len] before [_data + _pos]. *)
Theorem read_double_past_end :
  let r := Reader.over Byte.x00 Byte.x00 Byte.x00 twelve_bytes 8 in
  let s := Reader.over Byte.x00 Byte.x00 Byte.x00 negative_length 8 in
  Reader._size r = 12
  /\ Reader.read_double r = Reader.Out_of_bounds
  /\ Reader.read_uint64 r = Reader.Returned_false r
  /\ Reader.read_string [] s = Reader.Out_of_bounds.
Proof. vm_compute. repeat split. Qed.

(** C9.  Serialization round-trips: whatever sequence of values
    [Writer::write] appended to a buffer (int32_t, uint32_t, uint64_t,
    double, std::string and Giant, a negative Giant carrying its sign in
    the length word), a reader built over the resulting buffer and placed
    where the writing began returns [true] for each read of the matching
    type in write order, yields exactly the values written, and ends with
    [_pos = _size]: the whole buffer is consumed.  The values are of their
    C++ types, the buffer is one an [int] can measure, and the strings
    read into are empty. *)
Theorem write_read_roundtrip {G : Type} `{GiantOps G}
    (vs : list (value G)) (ds : list (dest G)) (w : Writer.t)
    (fv ty ver : byte) :
  Forall value_ok vs ->
  Forall2 fresh_for vs ds ->
  Z.of_nat (length (Writer._buffer (write_all vs w))) <= INT_MAX ->
  exists r',
    read_all ds (Reader.over fv ty ver (Writer._buffer (write_all vs w))
                             (Z.of_nat (length (Writer._buffer w))))
      = Reader.Returned_true vs r'
    /\ Reader._pos r' = Reader._size r'.
Proof.
  intros Hok Hfresh Hfits. rewrite write_all_encode in *.
  set (pre := Writer._buffer w) in *.
  set (body := concat (map encode vs)) in *.
  assert (Hst : stands_at (Reader.over fv ty ver (pre ++ body) (Z.of_nat (length pre)))
                          pre body).
  { split; cbn; try reflexivity; [|exact Hfits].
    apply wrap_int_small. unfold is_int, INT_MIN, INT_MAX in *. lia. }
  destruct (read_all_stands vs ds _ _ Hok Hfresh Hst) as (r' & Hr & Hst').
  exists r'. split; [exact Hr|].
  destruct Hst' as [_ Hs Hp _]. rewrite Hs, Hp, app_nil_r. reflexivity.
Qed.

Definition sample_giant : SMGiant :=
  {| sm_limbs := [7; 4294967295]; sm_negative := true |}.

Definition sample_values : list (value SMGiant) :=
  [ VInt32 (-5); VUInt32 4000000000; VUInt64 (2 ^ 63 + 1);
    VDouble 0x3ff0000000000000; VString [Byte.x68; Byte.x69];
    VGiant sample_giant; VGiant {| sm_limbs := []; sm_negative := false |} ].

Definition sample_dests : list (dest SMGiant) :=
  [ DInt32; DUInt32; DUInt64; DDouble; DString [];
    DGiant {| sm_limbs := [1]; sm_negative := false |};
    DGiant {| sm_limbs := [1]; sm_negative := true |} ].

Lemma write_read_roundtrip_witness :
  exists r',
    read_all sample_dests
      (Reader.over Byte.x00 Byte.x00 Byte.x00
         (Writer._buffer (write_all sample_values {| Writer._buffer := [Byte.x2a] |}))
         1)
      = Reader.Returned_true sample_values r'
    /\ Reader._pos r' = Reader._size r'.
Proof.
  apply (write_read_roundtrip sample_values sample_dests
           {| Writer._buffer := [Byte.x2a] |} Byte.x00 Byte.x00 Byte.x00).
  - repeat constructor; cbn; try (intros; reflexivity || discriminate || lia);
      unfold is_int, is_u32, is_u64, INT_MIN, INT_MAX; try lia.
  - repeat constructor.
  - vm_compute. discriminate.
Defined.

(** * Further properties of the serializer *)

Section WriterLayout.
Context {G : Type} `{GiantOps G}.

(** The number of bytes one write appends. *)
Definition encoded_size (v : value G) : Z :=
  match v with
  | VInt32 _ | VUInt32 _ => 4
  | VUInt64 _ | VDouble _ => 8
  | VString s => 4 + Z.of_nat (length s)
  | VGiant g => 4 + 4 * giant_size g
  end.

Lemma length_encode (v : value G) :
  value_ok v -> Z.of_nat (length (encode v)) = encoded_size v.
Proof.
  destruct v as [x|x|x|x|s|g]; intros Hv; cbn [encoded_size].
  - reflexivity.
  - reflexivity.
  - reflexivity.
  - reflexivity.
  - change (encode (VString s))
      with (le_split 4 (wrap_int (Z.of_nat (length s))) ++ s).
    rewrite length_app, length_le_split. lia.
  - cbn [value_ok] in Hv. rewrite (encode_Giant g Hv).
    rewrite length_app, length_le_split, length_bytes_of_limbs.
    rewrite <- (giant_data_length g Hv). lia.
Qed.

End WriterLayout.

(** X1.  [Writer::write] only appends: after any run of writes the buffer
    is the buffer before followed by new bytes, and the number of new bytes
    is the sum over the values of 4 for an [int32_t] or [uint32_t], 8 for a
    [uint64_t] or [double], 4 plus the length for a [std::string] and 4 plus
    4 times [size()] for a Giant. *)
Theorem writes_append_their_sizes {G : Type} `{GiantOps G}
    (vs : list (value G)) (w : Writer.t) :
  Forall value_ok vs ->
  exists tail,
    Writer._buffer (write_all vs w) = Writer._buffer w ++ tail
    /\ Z.of_nat (length tail) = fold_right Z.add 0 (map encoded_size vs).
Proof.
  intros Hok. exists (concat (map encode vs)). split.
  - apply write_all_encode.
  - induction Hok as [|v vs Hv _ IH]; cbn [map concat fold_right]; [reflexivity|].
    rewrite length_app, Nat2Z.inj_add, IH, (length_encode v Hv). reflexivity.
Qed.

Lemma writes_append_their_sizes_witness :
  exists tail,
    Writer._buffer (write_all sample_values {| Writer._buffer := [Byte.x2a] |})
      = Writer._buffer {| Writer._buffer := [Byte.x2a] |} ++ tail
    /\ Z.of_nat (length tail) = fold_right Z.add 0 (map encoded_size sample_values).
Proof.
  apply (writes_append_their_sizes sample_values {| Writer._buffer := [Byte.x2a] |}).
  repeat constructor; cbn; try (intros; reflexivity || discriminate || lia);
    unfold is_int, is_u32, is_u64, INT_MIN, INT_MAX; try lia.
Defined.

(** X2.  A block written as [write(int32_t count)] followed by
    [write(const char* ptr, int count)] is what [write(const std::string&)]
    writes for the first [count] bytes of [ptr], and [read(std::string&)]
    into an empty string reads these bytes back and ends at the end of the
    buffer. *)
Theorem raw_block_reads_as_string (ptr : list byte) (count : Z) (w : Writer.t)
    (fv ty ver : byte) :
  0 <= count <= Z.of_nat (length ptr) ->
  let block := Writer.write_raw ptr count (Writer.write_int32 count w) in
  Z.of_nat (length (Writer._buffer block)) <= INT_MAX ->
  block = Writer.write_string (firstn (Z.to_nat count) ptr) w
  /\ exists r',
       Reader.read_string [] (Reader.over fv ty ver (Writer._buffer block)
                                          (Z.of_nat (length (Writer._buffer w))))
       = Reader.Returned_true (firstn (Z.to_nat count) ptr) r'
       /\ Reader._pos r' = Reader._size r'.
Proof.
  intros Hcount block Hfits.
  set (s := firstn (Z.to_nat count) ptr).
  assert (Hlen : Z.of_nat (length s) = count)
    by (unfold s; rewrite length_take; lia).
  assert (Hblock : Writer._buffer block = Writer._buffer w ++ le_split 4 count ++ s).
  { unfold block, Writer.write_raw, Writer.write_int32, Writer.insert_end, slice.
    cbn [Writer._buffer skipn Z.to_nat]. now rewrite <- app_assoc. }
  assert (Hint : wrap_int (Z.of_nat (length s)) = count).
  { rewrite Hlen. apply wrap_int_small.
    rewrite Hblock, !length_app, length_le_split in Hfits.
    unfold is_int, INT_MIN, INT_MAX in *. lia. }
  split.
  - unfold Writer.write_string, Writer.insert_end. cbn [Writer._buffer].
    rewrite Hint. unfold block, Writer.write_raw, Writer.write_int32,
      Writer.insert_end, slice. cbn [Writer._buffer skipn Z.to_nat]. reflexivity.
  - rewrite Hblock in *.
    assert (Hst : stands_at (Reader.over fv ty ver
                               (Writer._buffer w ++ le_split 4 count ++ s)
                               (Z.of_nat (length (Writer._buffer w))))
                            (Writer._buffer w)
                            ((le_split 4 (wrap_int (Z.of_nat (length s))) ++ s) ++ [])).
    { rewrite Hint, app_nil_r. split; cbn; try reflexivity; [|exact Hfits].
      apply wrap_int_small. unfold is_int, INT_MIN, INT_MAX in *. lia. }
    destruct (read_string_stands _ _ _ [] s Hst) as (r' & Hr & Hst').
    exists r'. split; [exact Hr|].
    destruct Hst' as [_ Hs Hp _]. rewrite Hs, Hp, app_nil_r. reflexivity.
Qed.

Lemma raw_block_reads_as_string_witness :
  let ptr := [Byte.x68; Byte.x69; Byte.x2a] in
  let w := {| Writer._buffer := [Byte.x2a] |} in
  let block := Writer.write_raw ptr 2 (Writer.write_int32 2 w) in
  block = Writer.write_string (firstn (Z.to_nat 2) ptr) w
  /\ exists r',
       Reader.read_string [] (Reader.over Byte.x00 Byte.x00 Byte.x00
                                (Writer._buffer block)
                                (Z.of_nat (length (Writer._buffer w))))
       = Reader.Returned_true (firstn (Z.to_nat 2) ptr) r'
       /\ Reader._pos r' = Reader._size r'.
Proof.
  apply (raw_block_reads_as_string [Byte.x68; Byte.x69; Byte.x2a] 2
           {| Writer._buffer := [Byte.x2a] |} Byte.x00 Byte.x00 Byte.x00).
  - cbn. lia.
  - vm_compute. discriminate.
Defined.

(** ** Reads over any buffer *)

Lemma well_placed_set_pos (r : Reader.t) (pos : Z) :
  well_placed r -> 0 <= pos <= Reader._size r ->
  well_placed (Reader.set_pos r pos).
Proof. intros [Hs Hp Hf] Hpos. split; cbn; assumption. Qed.

Lemma length_slice (off n : Z) (bs : list byte) :
  0 <= off -> 0 <= n -> off + n <= Z.of_nat (length bs) ->
  Z.of_nat (length (slice off n bs)) = n.
Proof.
  intros Hoff Hn Hle. unfold slice. rewrite length_take, length_drop. lia.
Qed.

(** The second test of [read(std::string&)] and [read(Giant&)]: with
    [n] bytes asked for after the length word. *)
Lemma body_check (r : Reader.t) (n : Z) :
  well_placed r -> 4 <= Reader._size r - Reader._pos r ->
  0 <= n -> Reader._pos r + 4 + n <= INT_MAX ->
  let r1 := Reader.set_pos r (int_add (Reader._pos r) 4) in
  r1 = Reader.set_pos r (Reader._pos r + 4)
  /\ int_add (Reader._pos r1) n = Reader._pos r + 4 + n
  /\ (Reader._size r1 <? int_add (Reader._pos r1) n)
     = (Reader._size r - Reader._pos r - 4 <? n)
  /\ (n <= Reader._size r - Reader._pos r - 4 ->
      Reader.deref r1 (Reader._pos r1) n
      = Some (slice (Reader._pos r + 4) n (Reader._data r))).
Proof.
  intros Hr Hleft Hn Hfit. cbv zeta. rewrite (int_add_placed r 4 Hr) by lia.
  pose proof Hr as [Hs Hp Hf]. cbn [Reader.set_pos Reader._pos Reader._size].
  assert (Ha : int_add (Reader._pos r + 4) n = Reader._pos r + 4 + n).
  { unfold int_add. apply wrap_int_small. unfold is_int, INT_MIN, INT_MAX in *. lia. }
  rewrite Ha. split; [reflexivity|split; [reflexivity|split]].
  - destruct (Z.ltb_spec (Reader._size r) (Reader._pos r + 4 + n));
      destruct (Z.ltb_spec (Reader._size r - Reader._pos r - 4) n); try reflexivity; lia.
  - intros Hle. unfold Reader.deref. cbn [Reader.set_pos Reader._size Reader._data].
    replace (_ && _ && _) with true; [reflexivity|].
    symmetry. rewrite !andb_true_iff, !Z.leb_le. lia.
Qed.

(** A reader placed at offset 8 of a 12-byte buffer. *)
Definition sample_reader : Reader.t :=
  Reader.over Byte.x00 Byte.x00 Byte.x00 twelve_bytes 8.

(** X3.  Over a buffer of at most [INT_MAX - 8] bytes, with
    [0 <= _pos <= _size], [read(int32_t&)], [read(uint32_t&)] and
    [read(uint64_t&)] never touch a byte outside the buffer: with fewer
    than 4, 4 and 8 bytes left they return [false] and leave the reader as
    it was; otherwise they return [true] with the little-endian value of
    the bytes at [_pos] and move [_pos] past them, which keeps it within
    the buffer. *)
Theorem scalar_reads_stay_in_bounds (r : Reader.t) :
  well_placed r ->
  let left := Reader._size r - Reader._pos r in
  let at4 := slice (Reader._pos r) 4 (Reader._data r) in
  let at8 := slice (Reader._pos r) 8 (Reader._data r) in
  let r4 := Reader.set_pos r (Reader._pos r + 4) in
  let r8 := Reader.set_pos r (Reader._pos r + 8) in
  Reader.read_int32 r
    = (if left <? 4 then Reader.Returned_false r
       else Reader.Returned_true (wrap_int (le_combine at4)) r4)
  /\ Reader.read_uint32 r
     = (if left <? 4 then Reader.Returned_false r
        else Reader.Returned_true (le_combine at4) r4)
  /\ Reader.read_uint64 r
     = (if left <? 8 then Reader.Returned_false r
        else Reader.Returned_true (le_combine at8) r8)
  /\ (4 <= left -> well_placed r4 /\ length at4 = 4%nat)
  /\ (8 <= left -> well_placed r8 /\ length at8 = 8%nat).
Proof.
  intros Hr left at4 at8 r4 r8. pose proof Hr as [Hs Hp Hf].
  assert (Hscalar : forall k, 0 <= k <= 8 ->
            (Reader._size r <? int_add (Reader._pos r) k) = (left <? k)
            /\ (k <= left ->
                Reader.deref r (Reader._pos r) k
                = Some (slice (Reader._pos r) k (Reader._data r))
                /\ int_add (Reader._pos r) k = Reader._pos r + k)).
  { intros k Hk. rewrite (int_add_placed r k Hr Hk). split.
    - subst left.
      destruct (Z.ltb_spec (Reader._size r) (Reader._pos r + k));
        destruct (Z.ltb_spec (Reader._size r - Reader._pos r) k); try reflexivity; lia.
    - intros Hle. split; [|reflexivity].
      apply deref_in_bounds; [exact Hr|lia|subst left; lia]. }
  destruct (Hscalar 4 ltac:(lia)) as [Hc4 Hd4].
  destruct (Hscalar 8 ltac:(lia)) as [Hc8 Hd8].
  split; [|split; [|split; [|split]]].
  - unfold Reader.read_int32. rewrite Hc4.
    destruct (Z.ltb_spec left 4) as [|Hge]; [reflexivity|].
    destruct (Hd4 Hge) as [-> ->]. reflexivity.
  - unfold Reader.read_uint32. rewrite Hc4.
    destruct (Z.ltb_spec left 4) as [|Hge]; [reflexivity|].
    destruct (Hd4 Hge) as [-> ->]. reflexivity.
  - unfold Reader.read_uint64. rewrite Hc8.
    destruct (Z.ltb_spec left 8) as [|Hge]; [reflexivity|].
    destruct (Hd8 Hge) as [-> ->]. reflexivity.
  - intros Hge. split.
    + apply well_placed_set_pos; [exact Hr|subst left; lia].
    + apply Nat2Z.inj. subst at4. rewrite length_slice; [reflexivity|lia|lia|].
      subst left. lia.
  - intros Hge. split.
    + apply well_placed_set_pos; [exact Hr|subst left; lia].
    + apply Nat2Z.inj. subst at8. rewrite length_slice; [reflexivity|lia|lia|].
      subst left. lia.
Qed.

Lemma scalar_reads_stay_in_bounds_witness :
  let r := sample_reader in
  let left := Reader._size r - Reader._pos r in
  let at4 := slice (Reader._pos r) 4 (Reader._data r) in
  let at8 := slice (Reader._pos r) 8 (Reader._data r) in
  let r4 := Reader.set_pos r (Reader._pos r + 4) in
  let r8 := Reader.set_pos r (Reader._pos r + 8) in
  Reader.read_int32 r
    = (if left <? 4 then Reader.Returned_false r
       else Reader.Returned_true (wrap_int (le_combine at4)) r4)
  /\ Reader.read_uint32 r
     = (if left <? 4 then Reader.Returned_false r
        else Reader.Returned_true (le_combine at4) r4)
  /\ Reader.read_uint64 r
     = (if left <? 8 then Reader.Returned_false r
        else Reader.Returned_true (le_combine at8) r8)
  /\ (4 <= left -> well_placed r4 /\ length at4 = 4%nat)
  /\ (8 <= left -> well_placed r8 /\ length at8 = 8%nat).
Proof.
  apply (scalar_reads_stay_in_bounds sample_reader).
  split; vm_compute; [reflexivity|split; discriminate|discriminate].
Defined.

(** X4.  [read(std::string&)] over such a buffer: with fewer than 4 bytes
    left it returns [false] and leaves the reader as it was.  With a length
    word [len >= 0] that [_pos + 4 + len] does not carry past [INT_MAX], it
    returns [false] when fewer than [len] bytes follow the length word,
    having moved [_pos] past the length word; otherwise it returns [true],
    has appended the [len] bytes to the string it was given, whatever that
    held, and has moved [_pos] past them. *)
Theorem read_string_in_bounds (cur : list byte) (r : Reader.t) :
  well_placed r ->
  let left := Reader._size r - Reader._pos r in
  let len := wrap_int (le_combine (slice (Reader._pos r) 4 (Reader._data r))) in
  let r1 := Reader.set_pos r (Reader._pos r + 4) in
  (left < 4 -> Reader.read_string cur r = Reader.Returned_false r)
  /\ (4 <= left -> 0 <= len -> Reader._pos r + 4 + len <= INT_MAX ->
      Reader.read_string cur r
      = if left - 4 <? len then Reader.Returned_false r1
        else Reader.Returned_true
               (cur ++ slice (Reader._pos r + 4) len (Reader._data r))
               (Reader.set_pos r (Reader._pos r + 4 + len))).
Proof.
  intros Hr left len r1. unfold Reader.read_string.
  rewrite (int_add_placed r 4 Hr) by lia. split.
  - intros Hlt. replace (Reader._size r <? Reader._pos r + 4) with true; [reflexivity|].
    symmetry. apply Z.ltb_lt. subst left. lia.
  - intros Hge Hlen Hfit.
    replace (Reader._size r <? Reader._pos r + 4) with false
      by (symmetry; apply Z.ltb_ge; subst left; lia).
    rewrite deref_in_bounds by (trivial; subst left; lia).
    cbv zeta. fold len.
    destruct (body_check r len Hr Hge Hlen Hfit) as (Hr1 & Ha & Hc & Hd).
    rewrite (int_add_placed r 4 Hr) in Hr1, Ha, Hc, Hd by lia.
    rewrite Hc. fold left.
    destruct (Z.ltb_spec (left - 4) len) as [Hshort|Hfull].
    + replace (Reader._size r - Reader._pos r - 4 <? len) with true
        by (symmetry; apply Z.ltb_lt; subst left; lia).
      reflexivity.
    + replace (Reader._size r - Reader._pos r - 4 <? len) with false
        by (symmetry; apply Z.ltb_ge; subst left; lia).
      rewrite Hd by (subst left; lia). rewrite Ha. reflexivity.
Qed.

(** The 8-byte header, then the string hi with its length word, then one
    more byte. *)
Definition string_image : list byte :=
  le_split 4 File.MAGIC_NUM ++ le_split 4 0
  ++ le_split 4 2 ++ [Byte.x68; Byte.x69; Byte.x2a].

Lemma read_string_in_bounds_witness :
  let r := Reader.over Byte.x00 Byte.x00 Byte.x00 string_image 8 in
  let left := Reader._size r - Reader._pos r in
  let len := wrap_int (le_combine (slice (Reader._pos r) 4 (Reader._data r))) in
  let r1 := Reader.set_pos r (Reader._pos r + 4) in
  (left < 4 -> Reader.read_string [Byte.x2a] r = Reader.Returned_false r)
  /\ (4 <= left -> 0 <= len -> Reader._pos r + 4 + len <= INT_MAX ->
      Reader.read_string [Byte.x2a] r
      = if left - 4 <? len then Reader.Returned_false r1
        else Reader.Returned_true
               ([Byte.x2a] ++ slice (Reader._pos r + 4) len (Reader._data r))
               (Reader.set_pos r (Reader._pos r + 4 + len))).
Proof.
  apply (read_string_in_bounds [Byte.x2a]
           (Reader.over Byte.x00 Byte.x00 Byte.x00 string_image 8)).
  split; vm_compute; [reflexivity|split; discriminate|discriminate].
Defined.

Example read_string_example :
  Reader.read_string [Byte.x2a]
    (Reader.over Byte.x00 Byte.x00 Byte.x00 string_image 8)
  = Reader.Returned_true [Byte.x2a; Byte.x68; Byte.x69]
      (Reader.over Byte.x00 Byte.x00 Byte.x00 string_image 14).
Proof. vm_compute. reflexivity. Qed.

(** X5.  [read(Giant&)] over such a buffer, with a length word [len] such
    that [_pos + 4 + 4 * |len|] does not carry past [INT_MAX]: it returns
    [false] when fewer than [4 * |len|] bytes follow the length word,
    having moved [_pos] past the length word; otherwise it returns [true],
    has given the Giant the [|len|] little-endian limbs that follow through
    [init], negated it through [neg] exactly when [len] is negative, and
    has moved [_pos] past the limbs. *)
Theorem read_Giant_in_bounds {G : Type} `{GiantOps G} (cur : G) (r : Reader.t) :
  well_placed r ->
  let left := Reader._size r - Reader._pos r in
  let len := wrap_int (le_combine (slice (Reader._pos r) 4 (Reader._data r))) in
  let n := Z.abs len in
  let r1 := Reader.set_pos r (Reader._pos r + 4) in
  (left < 4 -> Reader.read_Giant cur r = Reader.Returned_false r)
  /\ (4 <= left -> Reader._pos r + 4 + 4 * n <= INT_MAX ->
      Reader.read_Giant cur r
      = if left - 4 <? 4 * n then Reader.Returned_false r1
        else
          let limbs :=
            limbs_of_bytes (Z.to_nat n)
                           (slice (Reader._pos r + 4) (4 * n) (Reader._data r)) in
          let v := giant_init limbs cur in
          Reader.Returned_true (if len <? 0 then giant_neg v else v)
                               (Reader.set_pos r (Reader._pos r + 4 + 4 * n))).
Proof.
  intros Hr left len n r1. unfold Reader.read_Giant.
  rewrite (int_add_placed r 4 Hr) by lia. split.
  - intros Hlt. replace (Reader._size r <? Reader._pos r + 4) with true; [reflexivity|].
    symmetry. apply Z.ltb_lt. subst left. lia.
  - intros Hge Hfit.
    replace (Reader._size r <? Reader._pos r + 4) with false
      by (symmetry; apply Z.ltb_ge; subst left; lia).
    rewrite deref_in_bounds by (trivial; subst left; lia).
    cbv zeta. fold len.
    pose proof Hr as [Hs Hp Hf].
    assert (Habs : int_abs len = n).
    { unfold int_abs. fold n. apply wrap_int_small.
      unfold is_int, INT_MIN, INT_MAX in *. lia. }
    assert (Hmul : int_mul n 4 = 4 * n).
    { unfold int_mul. rewrite wrap_int_small; [lia|].
      unfold is_int, INT_MIN, INT_MAX in *. lia. }
    rewrite Habs, Hmul.
    destruct (body_check r (4 * n) Hr Hge ltac:(lia) Hfit) as (Hr1 & Ha & Hc & Hd).
    rewrite (int_add_placed r 4 Hr) in Hr1, Ha, Hc, Hd by lia.
    rewrite Hc.
    destruct (Z.ltb_spec (left - 4) (4 * n)) as [Hshort|Hfull].
    + replace (Reader._size r - Reader._pos r - 4 <? 4 * n) with true
        by (symmetry; apply Z.ltb_lt; subst left; lia).
      reflexivity.
    + replace (Reader._size r - Reader._pos r - 4 <? 4 * n) with false
        by (symmetry; apply Z.ltb_ge; subst left; lia).
      rewrite Hd by (subst left; lia). rewrite Ha. reflexivity.
Qed.

(** The 8-byte header, then a length word of -2 and two limbs. *)
Definition giant_image : list byte :=
  le_split 4 File.MAGIC_NUM ++ le_split 4 0
  ++ le_split 4 (-2) ++ le_split 4 7 ++ le_split 4 9.

Lemma read_Giant_in_bounds_witness :
  let cur := {| sm_limbs := [1]; sm_negative := false |} in
  let r := Reader.over Byte.x00 Byte.x00 Byte.x00 giant_image 8 in
  let left := Reader._size r - Reader._pos r in
  let len := wrap_int (le_combine (slice (Reader._pos r) 4 (Reader._data r))) in
  let n := Z.abs len in
  let r1 := Reader.set_pos r (Reader._pos r + 4) in
  (left < 4 -> Reader.read_Giant cur r = Reader.Returned_false r)
  /\ (4 <= left -> Reader._pos r + 4 + 4 * n <= INT_MAX ->
      Reader.read_Giant cur r
      = if left - 4 <? 4 * n then Reader.Returned_false r1
        else
          let limbs :=
            limbs_of_bytes (Z.to_nat n)
                           (slice (Reader._pos r + 4) (4 * n) (Reader._data r)) in
          let v := giant_init limbs cur in
          Reader.Returned_true (if len <? 0 then giant_neg v else v)
                               (Reader.set_pos r (Reader._pos r + 4 + 4 * n))).
Proof.
  apply (read_Giant_in_bounds {| sm_limbs := [1]; sm_negative := false |}
           (Reader.over Byte.x00 Byte.x00 Byte.x00 giant_image 8)).
  split; vm_compute; [reflexivity|split; discriminate|discriminate].
Defined.

Example read_Giant_example :
  Reader.read_Giant {| sm_limbs := [1]; sm_negative := false |}
                    (Reader.over Byte.x00 Byte.x00 Byte.x00 giant_image 8)
  = Reader.Returned_true
      {| sm_limbs := [7; 9]; sm_negative := true |}
      (Reader.over Byte.x00 Byte.x00 Byte.x00 giant_image 20).
Proof. vm_compute. reflexivity. Qed.

(** ** Truncated input *)

Lemma app_eq_app_short {A} (a b c d : list A) :
  a ++ b = c ++ d -> (length c < length a)%nat ->
  a = c ++ drop (length c) a /\ drop (length c) a <> [].
Proof.
  intros Heq Hlt.
  assert (Hc : c = take (length c) a).
  { rewrite <- (take_app_le a b) by lia. rewrite Heq. now rewrite take_app_length. }
  split.
  - rewrite Hc at 1. now rewrite take_drop.
  - intros Hnil. apply (f_equal (@length A)) in Hnil.
    rewrite length_drop in Hnil. cbn in Hnil. lia.
Qed.

Lemma app_eq_app_long {A} (a b c d : list A) :
  a ++ b = c ++ d -> (length a <= length c)%nat ->
  c = a ++ drop (length a) c /\ b = drop (length a) c ++ d.
Proof.
  intros Heq Hle.
  assert (Ha : a = take (length a) c).
  { rewrite <- (take_app_le c d) by lia. rewrite <- Heq. now rewrite take_app_length. }
  split.
  - rewrite Ha at 1. now rewrite take_drop.
  - rewrite <- (drop_app_le c d) by lia. rewrite <- Heq. now rewrite drop_app_length.
Qed.

(** The test for [k] bytes when fewer are left. *)
Lemma short_check r pre cut k :
  stands_at r pre cut -> 0 <= k ->
  Z.of_nat (length pre) + k <= INT_MAX ->
  Z.of_nat (length cut) < k ->
  (Reader._size r <? int_add (Reader._pos r) k) = true.
Proof.
  intros [Hd Hs Hp Hf] Hk Hfit Hlt. unfold int_add. rewrite Hp, Hs.
  rewrite wrap_int_small by (unfold is_int, INT_MIN, INT_MAX in *; lia).
  apply Z.ltb_lt. rewrite length_app. lia.
Qed.

Lemma deref_short r pre cut k :
  stands_at r pre cut -> Z.of_nat (length cut) < k ->
  Reader.deref r (Reader._pos r) k = None.
Proof.
  intros [Hd Hs Hp Hf] Hlt. unfold Reader.deref. rewrite Hp, Hs, length_app.
  destruct (Z.leb_spec (Z.of_nat (length pre) + k)
                       (Z.of_nat (length pre + length cut))); [lia|].
  now rewrite andb_false_r.
Qed.

Section Truncated.
Context {G : Type} `{GiantOps G}.

Definition is_double (v : value G) : bool :=
  match v with VDouble _ => true | _ => false end.

(** Whether the first [m] bytes of the encodings of [vs] end inside a
    [double] of which 4 to 7 bytes are kept. *)
Fixpoint cut_in_double (vs : list (value G)) (m : nat) : bool :=
  match vs with
  | [] => false
  | v :: vs' =>
      if (m <? length (encode v))%nat then is_double v && (4 <=? m)%nat
      else cut_in_double vs' (m - length (encode v))
  end.

(** A read that loads past the end when [past_end] holds, and after
    which the caller sees [false] when it does not. *)
Definition read_refused {A} (o : Reader.outcome A) (past_end : bool) : Prop :=
  if past_end then o = Reader.Out_of_bounds
  else exists r', o = Reader.Returned_false r'.

Lemma read_refused_bind {A B} (o : Reader.outcome A)
    (k : A -> Reader.t -> Reader.outcome B) (b : bool) :
  read_refused o b -> read_refused (bind_outcome o k) b.
Proof.
  unfold read_refused. destruct b.
  - now intros ->.
  - intros [r' ->]. now exists r'.
Qed.

Lemma read_scalar_truncated (k : nat) (z : Z) r pre cut more :
  le_split k z = cut ++ more -> more <> [] ->
  stands_at r pre cut ->
  Z.of_nat (length pre) + Z.of_nat k <= INT_MAX ->
  (Reader._size r <? int_add (Reader._pos r) (Z.of_nat k)) = true.
Proof.
  intros Heq Hmore Hst Hfit.
  apply (short_check r pre cut); [exact Hst|lia|exact Hfit|].
  apply (f_equal (@length byte)) in Heq.
  rewrite length_le_split, length_app in Heq.
  destruct more; [contradiction|]. cbn in Heq. lia.
Qed.

(** The prefix of an encoding that begins with a 4-byte length word and
    is cut after it. *)
Lemma cut_after_prefix (len : Z) (body cut more : list byte) :
  le_split 4 len ++ body = cut ++ more -> more <> [] ->
  (4 <= length cut)%nat ->
  exists body', cut = le_split 4 len ++ body'
                /\ (length body' < length body)%nat.
Proof.
  intros Heq Hmore Hge.
  destruct (app_eq_app_long (le_split 4 len) body cut more Heq) as [Hc Hb].
  { rewrite length_le_split. exact Hge. }
  exists (drop (length (le_split 4 len)) cut). split; [exact Hc|].
  rewrite Hb, length_app. destruct more; [contradiction|]. cbn. lia.
Qed.

(** The test of line 101 when at least 4 bytes are left. *)
Lemma long_check r pre cut :
  stands_at r pre cut -> (4 <= length cut)%nat ->
  (Reader._size r <? int_add (Reader._pos r) 4) = false.
Proof.
  intros [Hd Hs Hp Hf] Hge. unfold int_add. rewrite Hp, Hs.
  rewrite length_app in Hs, Hf |- *.
  rewrite wrap_int_small by (unfold is_int, INT_MIN, INT_MAX in *; lia).
  apply Z.ltb_ge. lia.
Qed.

Lemma read_value_truncated (v : value G) (d : dest G) r pre cut more :
  value_ok v -> fresh_for v d ->
  encode v = cut ++ more -> more <> [] ->
  stands_at r pre cut ->
  Z.of_nat (length pre) + Z.of_nat (length (encode v)) <= INT_MAX ->
  read_refused (read_value d r) (is_double v && (4 <=? length cut)%nat).
Proof.
  intros Hv Hd Heq Hmore Hst Hfit.
  destruct v as [x|x|x|x|s|g], d; cbn [fresh_for] in Hd; try contradiction;
    cbn [value_ok] in Hv; cbn [read_value is_double andb].
  - change (encode (VInt32 x)) with (le_split 4 x) in *.
    rewrite length_le_split in Hfit. unfold Reader.read_int32.
    pose proof (read_scalar_truncated 4 x r pre cut more Heq Hmore Hst Hfit) as Hc.
    change (Z.of_nat 4) with 4 in Hc. rewrite Hc.
    now exists r.
  - change (encode (VUInt32 x)) with (le_split 4 x) in *.
    rewrite length_le_split in Hfit. unfold Reader.read_uint32.
    pose proof (read_scalar_truncated 4 x r pre cut more Heq Hmore Hst Hfit) as Hc.
    change (Z.of_nat 4) with 4 in Hc. rewrite Hc.
    now exists r.
  - change (encode (VUInt64 x)) with (le_split 8 x) in *.
    rewrite length_le_split in Hfit. unfold Reader.read_uint64.
    pose proof (read_scalar_truncated 8 x r pre cut more Heq Hmore Hst Hfit) as Hc.
    change (Z.of_nat 8) with 8 in Hc. rewrite Hc.
    now exists r.
  - change (encode (VDouble x)) with (le_split 8 x) in *.
    rewrite length_le_split in Hfit. unfold Reader.read_double.
    assert (Hcut : Z.of_nat (length cut) < 8).
    { apply (f_equal (@length byte)) in Heq.
      rewrite length_le_split, length_app in Heq.
      destruct more; [contradiction|]. cbn in Heq. lia. }
    destruct (Nat.leb_spec 4 (length cut)) as [Hge|Hlt]; cbn [read_refused].
    + rewrite (long_check r pre cut Hst Hge).
      now rewrite (deref_short r pre cut 8 Hst Hcut).
    + rewrite (short_check r pre cut 4 Hst) by lia.
      now exists r.
  - subst cur.
    change (encode (VString s))
      with (le_split 4 (wrap_int (Z.of_nat (length s))) ++ s) in *.
    rewrite length_app, length_le_split in Hfit.
    assert (Hs : is_int (Z.of_nat (length s)))
      by (unfold is_int, INT_MIN, INT_MAX in *; lia).
    rewrite (wrap_int_small _ Hs) in *.
    unfold Reader.read_string.
    destruct (Nat.lt_ge_cases (length cut) 4) as [Hlt|Hge].
    + rewrite (short_check r pre cut 4 Hst) by lia.
      now exists r.
    + destruct (cut_after_prefix _ _ _ _ Heq Hmore Hge) as (s' & -> & Hs').
      destruct (read_length_prefix _ _ _ _ Hs Hst) as (Hc & Hde & Hw & Hst1).
      rewrite Hc, Hde. cbv zeta. rewrite Hw.
      rewrite (short_check _ _ _ _ Hst1);
        [eexists; reflexivity|lia| |lia].
      rewrite length_app, length_le_split. lia.
  - rewrite (encode_Giant g Hv) in *.
    destruct Hv as [Hgl Hgr Hgn Hgi Hgni].
    rewrite length_app, length_le_split, length_bytes_of_limbs in Hfit.
    assert (Hs : is_int (giant_size g))
      by (unfold is_int, INT_MIN, INT_MAX in *; lia).
    rewrite (wrap_int_small _ Hs) in *.
    set (len := if giant_is_neg g then int_mul (giant_size g) (-1)
                else giant_size g) in *.
    assert (Hlen_eq : len = giant_len g).
    { unfold len, giant_len, int_mul. destruct (giant_is_neg g); [|reflexivity].
      rewrite wrap_int_small; unfold is_int, INT_MIN, INT_MAX in *; lia. }
    assert (Hl : is_int len).
    { rewrite Hlen_eq. unfold giant_len, is_int, INT_MIN, INT_MAX in *.
      destruct (giant_is_neg g); lia. }
    assert (Habs : int_abs len = giant_size g).
    { rewrite Hlen_eq. unfold giant_len, int_abs.
      destruct (giant_is_neg g); rewrite ?Z.abs_opp, Z.abs_eq by lia;
        now apply wrap_int_small. }
    assert (Hmul : int_mul (int_abs len) 4 = 4 * giant_size g).
    { rewrite Habs. unfold int_mul.
      rewrite wrap_int_small; unfold is_int, INT_MIN, INT_MAX in *; lia. }
    unfold Reader.read_Giant.
    destruct (Nat.lt_ge_cases (length cut) 4) as [Hlt|Hge].
    + rewrite (short_check r pre cut 4 Hst) by lia.
      now exists r.
    + destruct (cut_after_prefix _ _ _ _ Heq Hmore Hge) as (s' & -> & Hs').
      rewrite length_bytes_of_limbs in Hs'.
      destruct (read_length_prefix _ _ _ _ Hl Hst) as (Hc & Hde & Hw & Hst1).
      rewrite Hc, Hde. cbv zeta. rewrite Hw, Hmul.
      rewrite (short_check _ _ _ _ Hst1);
        [eexists; reflexivity|lia| |lia].
      rewrite length_app, length_le_split. lia.
Qed.

Lemma read_all_truncated (vs : list (value G)) (ds : list (dest G)) :
  Forall2 fresh_for vs ds ->
  forall r pre cut more,
    Forall value_ok vs ->
    concat (map encode vs) = cut ++ more -> more <> [] ->
    stands_at r pre cut ->
    Z.of_nat (length pre) + Z.of_nat (length (concat (map encode vs))) <= INT_MAX ->
    read_refused (read_all ds r) (cut_in_double vs (length cut)).
Proof.
  induction 1 as [|v d vs ds Hd _ IH]; intros r pre cut more Hok Heq Hmore Hst Hfit.
  - cbn in Heq. symmetry in Heq. apply app_eq_nil in Heq. tauto.
  - inversion Hok as [|? ? Hv Hvs]; subst. cbn [map concat] in *.
    rewrite length_app in Hfit. cbn [read_all cut_in_double].
    destruct (Nat.ltb_spec (length cut) (length (encode v))) as [Hlt|Hge].
    + destruct (app_eq_app_short _ _ _ _ Heq Hlt) as [Hcut Hrest].
      apply read_refused_bind.
      apply (read_value_truncated v d r pre cut _ Hv Hd Hcut Hrest Hst). lia.
    + destruct (app_eq_app_long _ _ _ _ Heq Hge) as [Hcut Htail].
      rewrite Hcut in Hst.
      destruct (read_value_stands _ _ _ _ _ Hv Hd Hst) as (r1 & -> & Hst1).
      cbn [bind_outcome]. apply read_refused_bind.
      replace (length cut - length (encode v))%nat
        with (length (drop (length (encode v)) cut))
        by (rewrite length_drop; reflexivity).
      apply (IH r1 (pre ++ encode v) _ more Hvs Htail Hmore Hst1).
      rewrite length_app. lia.
Qed.

End Truncated.

(** X6.  A truncated buffer is never read as if it were whole.  When a
    run of writes has produced a buffer that an [int] can measure and only
    its first [n] bytes are kept, [n] falling anywhere from the place where
    the writing began to the last byte, reading the matching types in write
    order over the kept bytes ends with a read that returns [false], with
    exactly one exception: when the cut falls inside a [double] of which 4
    to 7 of the 8 bytes are kept, the read of that [double] loads past the
    end of the kept bytes.  A cut anywhere else, also in a run that holds
    a [double] elsewhere, and a cut that keeps fewer than 4 bytes of a
    [double], end in [false]. *)
Theorem truncated_buffer_is_refused {G : Type} `{GiantOps G}
    (vs : list (value G)) (ds : list (dest G)) (w : Writer.t)
    (fv ty ver : byte) (n : nat) :
  Forall value_ok vs ->
  Forall2 fresh_for vs ds ->
  let full := Writer._buffer (write_all vs w) in
  Z.of_nat (length full) <= INT_MAX ->
  (length (Writer._buffer w) <= n < length full)%nat ->
  let result :=
    read_all ds (Reader.over fv ty ver (firstn n full)
                             (Z.of_nat (length (Writer._buffer w)))) in
  if cut_in_double vs (n - length (Writer._buffer w))
  then result = Reader.Out_of_bounds
  else exists r', result = Reader.Returned_false r'.
Proof.
  intros Hok Hfresh full Hfits Hn result. subst full result.
  rewrite write_all_encode in *.
  set (pre := Writer._buffer w) in *.
  set (body := concat (map encode vs)) in *.
  rewrite length_app in Hn, Hfits.
  rewrite take_app_ge by lia.
  set (cut := take (n - length pre) body).
  assert (Hcut : (length cut = n - length pre)%nat)
    by (unfold cut; rewrite length_take; lia).
  rewrite <- Hcut.
  apply (read_all_truncated vs ds Hfresh _ pre cut (drop (n - length pre) body) Hok).
  - unfold cut. now rewrite take_drop.
  - intros Hnil. apply (f_equal (@length byte)) in Hnil.
    rewrite length_drop in Hnil. cbn in Hnil. lia.
  - split; cbn; try reflexivity.
    + apply wrap_int_small. rewrite length_app.
      unfold is_int, INT_MIN, INT_MAX in *. lia.
    + rewrite length_app. unfold INT_MAX in *. lia.
  - fold body. unfold INT_MAX in *. lia.
Qed.

Lemma truncated_buffer_is_refused_witness :
  let full :=
    Writer._buffer (write_all sample_values {| Writer._buffer := [Byte.x2a] |}) in
  let result :=
    read_all sample_dests
             (Reader.over Byte.x00 Byte.x00 Byte.x00 (firstn 30 full)
                (Z.of_nat (length (Writer._buffer {| Writer._buffer := [Byte.x2a] |})))) in
  if cut_in_double sample_values
       (30 - length (Writer._buffer {| Writer._buffer := [Byte.x2a] |}))
  then result = Reader.Out_of_bounds
  else exists r', result = Reader.Returned_false r'.
Proof.
  apply (truncated_buffer_is_refused sample_values sample_dests
           {| Writer._buffer := [Byte.x2a] |} Byte.x00 Byte.x00 Byte.x00 30).
  - repeat constructor; cbn; try (intros; reflexivity || discriminate || lia);
      unfold is_int, is_u32, is_u64, INT_MIN, INT_MAX; try lia.
  - repeat constructor.
  - vm_compute. discriminate.
  - vm_compute. split; lia.
Defined.

(** The run of [sample_values] after one byte: the [double] takes
    offsets 17 to 24 and the string begins at offset 25.  Cut at 30, inside
    the string, the reads end in [false]; cut at 20, with 3 bytes of the
    [double] kept, they end in [false]; cut at 21 or at 24, with 4 or 7
    bytes of it kept, the read of the [double] loads past the end. *)
Example truncated_buffer_cases :
  let full :=
    Writer._buffer (write_all sample_values {| Writer._buffer := [Byte.x2a] |}) in
  let result (n : nat) :=
    read_all sample_dests
             (Reader.over Byte.x00 Byte.x00 Byte.x00 (firstn n full) 1) in
  map (cut_in_double sample_values) [29; 19; 20; 23; 24]%nat
    = [false; false; true; true; false]
  /\ (exists r', result 30%nat = Reader.Returned_false r')
  /\ (exists r', result 20%nat = Reader.Returned_false r')
  /\ result 21%nat = Reader.Out_of_bounds
  /\ result 24%nat = Reader.Out_of_bounds
  /\ (exists r', result 25%nat = Reader.Returned_false r').
Proof.
  cbv zeta. split; [vm_compute; reflexivity|].
  split; [eexists; vm_compute; reflexivity|].
  split; [eexists; vm_compute; reflexivity|].
  split; [vm_compute; reflexivity|].
  split; [vm_compute; reflexivity|].
  eexists; vm_compute; reflexivity.
Qed.

(** X7.  Two runs of values of the same types that are written to the
    same bytes are the same run: within a buffer that an [int] can
    measure, [Writer::write] never gives two different states one
    encoding. *)
Theorem encoding_is_injective {G : Type} `{GiantOps G}
    (vs1 vs2 : list (value G)) (ds : list (dest G)) (w : Writer.t) :
  Forall value_ok vs1 -> Forall value_ok vs2 ->
  Forall2 fresh_for vs1 ds -> Forall2 fresh_for vs2 ds ->
  Z.of_nat (length (Writer._buffer (write_all vs1 w))) <= INT_MAX ->
  Writer._buffer (write_all vs1 w) = Writer._buffer (write_all vs2 w) ->
  vs1 = vs2.
Proof.
  intros Hok1 Hok2 Hf1 Hf2 Hfits Heq.
  rewrite !write_all_encode in *. apply app_inv_head in Heq.
  set (pre := Writer._buffer w) in *.
  assert (Hst : stands_at (Reader.over Byte.x00 Byte.x00 Byte.x00
                             (pre ++ concat (map encode vs1))
                             (Z.of_nat (length pre)))
                          pre (concat (map encode vs1))).
  { split; cbn; try reflexivity; [|exact Hfits].
    apply wrap_int_small. unfold is_int, INT_MIN, INT_MAX in *. lia. }
  destruct (read_all_stands vs1 ds _ _ Hok1 Hf1 Hst) as (r1 & Hr1 & _).
  rewrite Heq in Hst at 2.
  destruct (read_all_stands vs2 ds _ _ Hok2 Hf2 Hst) as (r2 & Hr2 & _).
  rewrite Hr1 in Hr2. now injection Hr2.
Qed.

Lemma encoding_is_injective_witness : sample_values = sample_values.
Proof.
  apply (encoding_is_injective sample_values sample_values sample_dests
           {| Writer._buffer := [Byte.x2a] |}).
  - repeat constructor; cbn; try (intros; reflexivity || discriminate || lia);
      unfold is_int, is_u32, is_u64, INT_MIN, INT_MAX; try lia.
  - repeat constructor; cbn; try (intros; reflexivity || discriminate || lia);
      unfold is_int, is_u32, is_u64, INT_MIN, INT_MAX; try lia.
  - repeat constructor.
  - repeat constructor.
  - vm_compute. discriminate.
  - reflexivity.
Defined.

(** ** What a successful read has consumed *)

Lemma le_split_wrap_int (z : Z) : le_split 4 (wrap_int z) = le_split 4 z.
Proof.
  rewrite (le_split_mod (wrap_int z)), (le_split_mod z). f_equal.
  unfold wrap_int. change (Z.of_nat 4 * 8) with 32.
  rewrite Zminus_mod_idemp_l. f_equal. lia.
Qed.

Lemma deref_Some (r : Reader.t) (off n : Z) (bs : list byte) :
  Reader.deref r off n = Some bs ->
  0 <= off /\ 0 <= n /\ off + n <= Reader._size r
  /\ bs = slice off n (Reader._data r).
Proof.
  unfold Reader.deref.
  destruct (Z.leb_spec 0 off); [|discriminate].
  destruct (Z.leb_spec 0 n); [|discriminate].
  destruct (Z.leb_spec (off + n) (Reader._size r)); [|discriminate].
  cbn. intros Heq. injection Heq as <-. auto.
Qed.

Lemma slice_app_adjacent (off a b : Z) (bs : list byte) :
  0 <= off -> 0 <= a -> 0 <= b ->
  slice off a bs ++ slice (off + a) b bs = slice off (a + b) bs.
Proof.
  intros Hoff Ha Hb. unfold slice.
  rewrite !Z2Nat.inj_add by lia. rewrite <- drop_drop. apply take_take_drop.
Qed.

(** A scalar read of [k] bytes that returned [true]. *)
Lemma scalar_read_true (r : Reader.t) (k : Z) (bs : list byte) :
  well_placed r -> 0 <= k <= 8 ->
  Reader.deref r (Reader._pos r) k = Some bs ->
  int_add (Reader._pos r) k = Reader._pos r + k
  /\ well_placed (Reader.set_pos r (Reader._pos r + k))
  /\ bs = slice (Reader._pos r) (Reader._pos r + k - Reader._pos r) (Reader._data r)
  /\ length bs = Z.to_nat k.
Proof.
  intros Hr Hk Hd. pose proof Hr as [Hs Hp Hf].
  destruct (deref_Some _ _ _ _ Hd) as (_ & _ & Hle & ->).
  split; [now apply int_add_placed|split; [|split]].
  - apply well_placed_set_pos; [exact Hr|lia].
  - f_equal. lia.
  - apply Nat2Z.inj. rewrite length_slice by lia. lia.
Qed.

(** What a read that returned [true] without leaving the buffer has
    done. *)
Lemma read_true_consumed {G : Type} `{GiantOps G}
    (d : dest G) (v : value G) (r r' : Reader.t) :
  well_placed r ->
  read_value d r = Reader.Returned_true v r' ->
  well_placed r'
  /\ r' = Reader.set_pos r (Reader._pos r')
  /\ Reader._pos r <= Reader._pos r'
  /\ (fresh_for v d -> (forall g, v <> VGiant g) ->
      slice (Reader._pos r) (Reader._pos r' - Reader._pos r) (Reader._data r)
      = encode v).
Proof.
  intros Hr Hread. pose proof Hr as [Hs Hp Hf].
  destruct d as [| | | |cur|cur]; cbn [read_value] in Hread.
  - unfold Reader.read_int32 in Hread.
    destruct (Reader._size r <? int_add (Reader._pos r) 4); [discriminate|].
    destruct (Reader.deref r (Reader._pos r) 4) as [bs|] eqn:Hd; [|discriminate].
    destruct (scalar_read_true r 4 bs Hr ltac:(lia) Hd) as (Ha & Hr' & Hbs & Hl).
    rewrite Ha in Hread. cbn in Hread. injection Hread as <- <-.
    cbn [Reader.set_pos Reader._pos].
    split; [exact Hr'|split; [reflexivity|split; [lia|]]].
    intros _ _. rewrite <- Hbs. change (encode (VInt32 ?x)) with (le_split 4 x).
    rewrite le_split_wrap_int. symmetry. now apply split_le_combine'.
  - unfold Reader.read_uint32 in Hread.
    destruct (Reader._size r <? int_add (Reader._pos r) 4); [discriminate|].
    destruct (Reader.deref r (Reader._pos r) 4) as [bs|] eqn:Hd; [|discriminate].
    destruct (scalar_read_true r 4 bs Hr ltac:(lia) Hd) as (Ha & Hr' & Hbs & Hl).
    rewrite Ha in Hread. cbn in Hread. injection Hread as <- <-.
    cbn [Reader.set_pos Reader._pos].
    split; [exact Hr'|split; [reflexivity|split; [lia|]]].
    intros _ _. rewrite <- Hbs. change (encode (VUInt32 ?x)) with (le_split 4 x).
    symmetry. now apply split_le_combine'.
  - unfold Reader.read_uint64 in Hread.
    destruct (Reader._size r <? int_add (Reader._pos r) 8); [discriminate|].
    destruct (Reader.deref r (Reader._pos r) 8) as [bs|] eqn:Hd; [|discriminate].
    destruct (scalar_read_true r 8 bs Hr ltac:(lia) Hd) as (Ha & Hr' & Hbs & Hl).
    rewrite Ha in Hread. cbn in Hread. injection Hread as <- <-.
    cbn [Reader.set_pos Reader._pos].
    split; [exact Hr'|split; [reflexivity|split; [lia|]]].
    intros _ _. rewrite <- Hbs. change (encode (VUInt64 ?x)) with (le_split 8 x).
    symmetry. now apply split_le_combine'.
  - unfold Reader.read_double in Hread.
    destruct (Reader._size r <? int_add (Reader._pos r) 4); [discriminate|].
    destruct (Reader.deref r (Reader._pos r) 8) as [bs|] eqn:Hd; [|discriminate].
    destruct (scalar_read_true r 8 bs Hr ltac:(lia) Hd) as (Ha & Hr' & Hbs & Hl).
    rewrite Ha in Hread. cbn in Hread. injection Hread as <- <-.
    cbn [Reader.set_pos Reader._pos].
    split; [exact Hr'|split; [reflexivity|split; [lia|]]].
    intros _ _. rewrite <- Hbs. change (encode (VDouble ?x)) with (le_split 8 x).
    symmetry. now apply split_le_combine'.
  - unfold Reader.read_string in Hread.
    destruct (Reader._size r <? int_add (Reader._pos r) 4); [discriminate|].
    destruct (Reader.deref r (Reader._pos r) 4) as [bs|] eqn:Hd; [|discriminate].
    destruct (scalar_read_true r 4 bs Hr ltac:(lia) Hd) as (Ha & Hr1 & Hbs & Hl).
    cbv zeta in Hread. rewrite Ha in Hread.
    set (len := wrap_int (le_combine bs)) in *.
    set (r1 := Reader.set_pos r (Reader._pos r + 4)) in *.
    destruct (Reader._size r1 <? int_add (Reader._pos r1) len); [discriminate|].
    destruct (Reader.deref r1 (Reader._pos r1) len) as [body|] eqn:Hd1; [|discriminate].
    destruct (deref_Some _ _ _ _ Hd1) as (_ & Hlen & Hle & Hbody).
    cbn [r1 Reader.set_pos Reader._pos Reader._size Reader._data] in Hle, Hbody, Hread.
    assert (Hadd : int_add (Reader._pos r + 4) len = Reader._pos r + 4 + len).
    { unfold int_add. apply wrap_int_small. unfold is_int, INT_MIN, INT_MAX in *. lia. }
    rewrite Hadd in Hread. cbn in Hread. injection Hread as <- <-.
    cbn [Reader.set_pos Reader._pos].
    split; [|split; [reflexivity|split; [lia|]]].
    + apply well_placed_set_pos; [exact Hr1|]. cbn [r1 Reader.set_pos Reader._size]. lia.
    + intros Hfresh _. cbn [fresh_for] in Hfresh. subst cur. rewrite app_nil_l.
      change (encode (VString body))
        with (le_split 4 (wrap_int (Z.of_nat (length body))) ++ body).
      assert (Hbl : Z.of_nat (length body) = len)
        by (rewrite Hbody; apply length_slice; lia).
      rewrite Hbl.
      rewrite (wrap_int_small len) by (unfold is_int, INT_MIN, INT_MAX in *; lia).
      assert (Hword : le_split 4 len = bs).
      { unfold len. rewrite le_split_wrap_int. now apply split_le_combine'. }
      rewrite Hword, Hbs, Hbody.
      replace (Reader._pos r + 4 - Reader._pos r) with 4 by lia.
      replace (Reader._pos r + 4 + len - Reader._pos r) with (4 + len) by lia.
      symmetry. apply slice_app_adjacent; lia.
  - unfold Reader.read_Giant in Hread.
    destruct (Reader._size r <? int_add (Reader._pos r) 4); [discriminate|].
    destruct (Reader.deref r (Reader._pos r) 4) as [bs|] eqn:Hd; [|discriminate].
    destruct (scalar_read_true r 4 bs Hr ltac:(lia) Hd) as (Ha & Hr1 & Hbs & Hl).
    cbv zeta in Hread. rewrite Ha in Hread.
    set (len := wrap_int (le_combine bs)) in *.
    set (r1 := Reader.set_pos r (Reader._pos r + 4)) in *.
    destruct (Reader._size r1 <? int_add (Reader._pos r1) (int_mul (int_abs len) 4));
      [discriminate|].
    destruct (Reader.deref r1 (Reader._pos r1) (4 * int_abs len)) as [body|] eqn:Hd1;
      [|discriminate].
    destruct (deref_Some _ _ _ _ Hd1) as (_ & Hlen & Hle & Hbody).
    cbn [r1 Reader.set_pos Reader._pos Reader._size Reader._data] in Hle, Hbody, Hread.
    assert (Hmul : int_mul (int_abs len) 4 = 4 * int_abs len).
    { unfold int_mul. rewrite wrap_int_small; [lia|].
      unfold is_int, INT_MIN, INT_MAX in *. lia. }
    assert (Hadd : int_add (Reader._pos r + 4) (4 * int_abs len)
                   = Reader._pos r + 4 + 4 * int_abs len).
    { unfold int_add. apply wrap_int_small. unfold is_int, INT_MIN, INT_MAX in *. lia. }
    rewrite Hmul, Hadd in Hread. cbn in Hread. injection Hread as <- <-.
    cbn [Reader.set_pos Reader._pos].
    split; [|split; [reflexivity|split; [lia|]]].
    + apply well_placed_set_pos; [exact Hr1|]. cbn [r1 Reader.set_pos Reader._size]. lia.
    + intros _ Hng. exfalso. eapply Hng. reflexivity.
Qed.

(** What a read needs to find from [_pos] on for all its loads to fall
    inside the buffer: the bytes of the value for the fixed-size overloads,
    which is 8 for a [double], and for a string or a Giant the length word
    and the bytes the word announces. *)
Definition readable {G : Type} `{GiantOps G} (d : dest G) (r : Reader.t) : Prop :=
  let left := Reader._size r - Reader._pos r in
  let len := wrap_int (le_combine (slice (Reader._pos r) 4 (Reader._data r))) in
  match d with
  | DInt32 | DUInt32 => 4 <= left
  | DUInt64 | DDouble => 8 <= left
  | DString _ => 4 <= left /\ 0 <= len <= left - 4
  | DGiant _ => 4 <= left /\ 4 * Z.abs len <= left - 4
  end.

Lemma readable_read_true {G : Type} `{GiantOps G} (d : dest G) (r : Reader.t) :
  well_placed r -> readable d r ->
  exists v r', read_value d r = Reader.Returned_true v r'.
Proof.
  intros Hr Hrd. pose proof Hr as [Hs Hp Hf].
  destruct d as [| | | |cur|cur]; cbn [readable] in Hrd; cbn [read_value].
  - unfold Reader.read_int32. rewrite (int_add_placed r 4 Hr) by lia.
    replace (Reader._size r <? Reader._pos r + 4) with false
      by (symmetry; apply Z.ltb_ge; lia).
    rewrite deref_in_bounds by (trivial; lia). cbn. eauto.
  - unfold Reader.read_uint32. rewrite (int_add_placed r 4 Hr) by lia.
    replace (Reader._size r <? Reader._pos r + 4) with false
      by (symmetry; apply Z.ltb_ge; lia).
    rewrite deref_in_bounds by (trivial; lia). cbn. eauto.
  - unfold Reader.read_uint64. rewrite (int_add_placed r 8 Hr) by lia.
    replace (Reader._size r <? Reader._pos r + 8) with false
      by (symmetry; apply Z.ltb_ge; lia).
    rewrite deref_in_bounds by (trivial; lia). cbn. eauto.
  - unfold Reader.read_double. rewrite (int_add_placed r 4 Hr) by lia.
    replace (Reader._size r <? Reader._pos r + 4) with false
      by (symmetry; apply Z.ltb_ge; lia).
    rewrite deref_in_bounds by (trivial; lia). cbn. eauto.
  - destruct Hrd as [Hge Hlen]. unfold Reader.read_string.
    rewrite (int_add_placed r 4 Hr) by lia.
    replace (Reader._size r <? Reader._pos r + 4) with false
      by (symmetry; apply Z.ltb_ge; lia).
    rewrite deref_in_bounds by (trivial; lia). cbv zeta.
    set (len := wrap_int (le_combine (slice (Reader._pos r) 4 (Reader._data r)))) in *.
    destruct (body_check r len Hr Hge ltac:(lia) ltac:(unfold INT_MAX in *; lia))
      as (Hr1 & Ha & Hc & Hd).
    rewrite (int_add_placed r 4 Hr) in Hr1, Ha, Hc, Hd by lia.
    rewrite Hc.
    replace (Reader._size r - Reader._pos r - 4 <? len) with false
      by (symmetry; apply Z.ltb_ge; lia).
    rewrite Hd by lia. cbn. eauto.
  - destruct Hrd as [Hge Hlen]. unfold Reader.read_Giant.
    rewrite (int_add_placed r 4 Hr) by lia.
    replace (Reader._size r <? Reader._pos r + 4) with false
      by (symmetry; apply Z.ltb_ge; lia).
    rewrite deref_in_bounds by (trivial; lia). cbv zeta.
    set (len := wrap_int (le_combine (slice (Reader._pos r) 4 (Reader._data r)))) in *.
    assert (Habs : int_abs len = Z.abs len).
    { unfold int_abs. apply wrap_int_small.
      unfold is_int, INT_MIN, INT_MAX in *. lia. }
    assert (Hmul : int_mul (Z.abs len) 4 = 4 * Z.abs len).
    { unfold int_mul. rewrite wrap_int_small; [lia|].
      unfold is_int, INT_MIN, INT_MAX in *. lia. }
    rewrite Habs, Hmul.
    destruct (body_check r (4 * Z.abs len) Hr Hge ltac:(lia)
                ltac:(unfold INT_MAX in *; lia))
      as (Hr1 & Ha & Hc & Hd).
    rewrite (int_add_placed r 4 Hr) in Hr1, Ha, Hc, Hd by lia.
    rewrite Hc.
    replace (Reader._size r - Reader._pos r - 4 <? 4 * Z.abs len) with false
      by (symmetry; apply Z.ltb_ge; lia).
    rewrite Hd by lia. cbn. eauto.
Qed.

(** X8.  Over a buffer of at most [INT_MAX - 8] bytes, with
    [0 <= _pos <= _size], a read that finds all it loads inside the buffer
    returns [true], moves [_pos] forward within the buffer and changes
    nothing else of the reader; and, Giants apart, the bytes it has passed
    over are exactly those that writing the value it returned produces (for
    a string read into an empty string).  All it loads is 4 bytes for an
    [int32_t] or [uint32_t], 8 for a [uint64_t], 8 for a [double], of which
    line 101 tests only 4, and for a string or a Giant the length word and
    the [len] or [4 * |len|] bytes it announces, [len] not negative for a
    string. *)
Theorem successful_read_consumed_its_encoding {G : Type} `{GiantOps G}
    (d : dest G) (r : Reader.t) :
  well_placed r ->
  readable d r ->
  exists v r',
    read_value d r = Reader.Returned_true v r'
    /\ well_placed r'
    /\ r' = Reader.set_pos r (Reader._pos r')
    /\ Reader._pos r <= Reader._pos r' <= Reader._size r
    /\ (fresh_for v d -> (forall g, v <> VGiant g) ->
        slice (Reader._pos r) (Reader._pos r' - Reader._pos r) (Reader._data r)
        = encode v).
Proof.
  intros Hr Hrd.
  destruct (readable_read_true d r Hr Hrd) as (v & r' & Hread).
  exists v, r'. split; [exact Hread|].
  destruct (read_true_consumed d v r r' Hr Hread) as (Hr' & Hset & Hle & Henc).
  split; [exact Hr'|split; [exact Hset|split; [|exact Henc]]].
  split; [exact Hle|].
  destruct Hr' as [_ Hp' _]. rewrite Hset in Hp'. cbn in Hp'. lia.
Qed.

Lemma successful_read_consumed_its_encoding_witness :
  exists (v : value SMGiant) r',
    read_value (DString [])
               (Reader.over Byte.x00 Byte.x00 Byte.x00 string_image 8)
    = Reader.Returned_true v r'
    /\ well_placed r'
    /\ r' = Reader.set_pos (Reader.over Byte.x00 Byte.x00 Byte.x00 string_image 8)
                           (Reader._pos r')
    /\ Reader._pos (Reader.over Byte.x00 Byte.x00 Byte.x00 string_image 8)
       <= Reader._pos r'
       <= Reader._size (Reader.over Byte.x00 Byte.x00 Byte.x00 string_image 8)
    /\ (fresh_for v (DString []) -> (forall g, v <> VGiant g) ->
        slice (Reader._pos (Reader.over Byte.x00 Byte.x00 Byte.x00 string_image 8))
              (Reader._pos r'
               - Reader._pos (Reader.over Byte.x00 Byte.x00 Byte.x00 string_image 8))
              (Reader._data (Reader.over Byte.x00 Byte.x00 Byte.x00 string_image 8))
        = encode v).
Proof.
  apply (successful_read_consumed_its_encoding (DString [])
           (Reader.over Byte.x00 Byte.x00 Byte.x00 string_image 8)).
  - split; vm_compute; [reflexivity|split; discriminate|discriminate].
  - vm_compute. repeat split; discriminate.
Defined.

(** A [double] with its 8 bytes in the buffer, and one with 4 bytes
    left: the second does not find all it loads. *)
Example double_read_cases :
  (exists r', Reader.read_double
                (Reader.over Byte.x00 Byte.x00 Byte.x00
                             (twelve_bytes ++ twelve_bytes) 8)
              = Reader.Returned_true (le_combine (slice 8 8 (twelve_bytes ++ twelve_bytes)))
                                     r'
              /\ Reader._pos r' = 16)
  /\ 8 <= Reader._size (Reader.over Byte.x00 Byte.x00 Byte.x00
                                    (twelve_bytes ++ twelve_bytes) 8) - 8
  /\ Reader.read_double sample_reader = Reader.Out_of_bounds
  /\ Reader._size sample_reader - Reader._pos sample_reader = 4.
Proof.
  split; [eexists; split; vm_compute; reflexivity|].
  split; [vm_compute; discriminate|].
  split; vm_compute; reflexivity.
Qed.

(** * Proofs: the file layer *)

Lemma new_filename_fresh (name : string) : name +:+ ".new" <> name.
Proof.
  intros Heq. apply (f_equal String.length) in Heq.
  rewrite String.app_length in Heq. cbn in Heq. lia.
Qed.

Lemma new_filename_not_md5 (name : string) : name +:+ ".new" <> name +:+ ".md5".
Proof. intros Heq. apply String.app_inj in Heq. discriminate. Qed.

Lemma writeThrough_other filename buffer count io fs name :
  name <> filename ->
  fst (File.writeThrough filename buffer count io fs) !! name = fs !! name.
Proof.
  intros Hne. destruct io; cbn; [reflexivity| |];
    now rewrite lookup_insert_ne by congruence.
Qed.

(** C4.  No partial result is committed on failure: when the write of
    the temporary .new file fails ([writeThrough] returns [false], the
    open having failed or [fwrite] having come up short),
    [File::commit_writer] removes the temporary file and returns with every
    other file as it was, in particular the previously committed file at
    [_filename] and its .md5 companion, and with the [File] object
    unchanged. *)
Theorem commit_writer_failure_commits_nothing
    (md5_raw_input : list byte -> list byte) (f : File.t) (writer : Writer.t)
    (io_new io_md5 : File.write_result) (fs : File.filesystem) :
  snd (File.writeThrough (File._filename f +:+ ".new") (Writer._buffer writer)
                         (Z.of_nat (length (Writer._buffer writer))) io_new fs)
    = false ->
  let result := File.commit_writer md5_raw_input f writer io_new io_md5 fs in
  fst result !! (File._filename f +:+ ".new") = None
  /\ fst result !! File._filename f = fs !! File._filename f
  /\ fst result !! (File._filename f +:+ ".md5") = fs !! (File._filename f +:+ ".md5")
  /\ (forall name, name <> File._filename f +:+ ".new" ->
                   fst result !! name = fs !! name)
  /\ snd result = f.
Proof.
  intros Hfail result.
  assert (Hother : forall name, name <> File._filename f +:+ ".new" ->
                                fst result !! name = fs !! name).
  { intros name Hne. subst result. unfold File.commit_writer.
    destruct (File.writeThrough _ _ _ io_new fs) as [fs1 ok] eqn:Hw.
    cbn in Hfail. subst ok. cbn [negb fst]. unfold File.remove.
    rewrite lookup_delete_ne by congruence.
    change fs1 with (fst (fs1, false)). rewrite <- Hw.
    now apply writeThrough_other. }
  split; [|split; [|split; [|split]]].
  - subst result. unfold File.commit_writer.
    destruct (File.writeThrough _ _ _ io_new fs) as [fs1 ok] eqn:Hw.
    cbn in Hfail. subst ok. cbn [negb fst]. apply lookup_delete_eq.
  - apply Hother. intros Heq. symmetry in Heq. now apply new_filename_fresh in Heq.
  - apply Hother. intros Heq. symmetry in Heq. now apply new_filename_not_md5 in Heq.
  - exact Hother.
  - subst result. unfold File.commit_writer.
    destruct (File.writeThrough _ _ _ io_new fs) as [fs1 ok] eqn:Hw.
    cbn in Hfail. subst ok. reflexivity.
Qed.

Definition sample_file : File.t :=
  {| File._filename := "task.ckpt"; File._fingerprint := 77;
     File._buffer := []; File.hash := true; File.appid := 1 |}.

Definition sample_fs : File.filesystem :=
  <["task.ckpt" := [Byte.x01; Byte.x02]]>
    (<["task.ckpt.md5" := [Byte.x61]]> ∅).

Definition sample_writer : Writer.t :=
  {| Writer._buffer := [Byte.x0a; Byte.x0b; Byte.x0c] |}.

Lemma commit_writer_failure_commits_nothing_witness :
  let result :=
    File.commit_writer (fun _ => []) sample_file sample_writer
                       (File.Wrote 2) File.Open_fails sample_fs in
  fst result !! ("task.ckpt" +:+ ".new") = None
  /\ fst result !! "task.ckpt" = sample_fs !! "task.ckpt"
  /\ fst result !! ("task.ckpt" +:+ ".md5") = sample_fs !! ("task.ckpt" +:+ ".md5")
  /\ (forall name, name <> "task.ckpt" +:+ ".new" ->
                   fst result !! name = sample_fs !! name)
  /\ snd result = sample_file.
Proof.
  apply (commit_writer_failure_commits_nothing (fun _ => []) sample_file
           sample_writer (File.Wrote 2) File.Open_fails sample_fs).
  reflexivity.
Defined.

Section FileRead.

Variable md5_raw_input : list byte -> list byte.
Variable state_type : Z.
Variable state_read : Reader.t -> bool.

Lemma wrap_u64_small z : 0 <= z <= INT_MAX -> wrap_u64 z = z.
Proof. unfold wrap_u64, INT_MAX. intros Hz. apply Z.mod_small. lia. Qed.

(** The buffer after the [resize] and the [fread] of lines 155-157. *)
Lemma fread_buffer (content old : list byte) (n : nat) :
  let got := firstn n content in
  let buffer := got ++ skipn (length got) (resize (length content) Byte.x00 old) in
  length buffer = length content
  /\ ((length content <= n)%nat -> buffer = content)
  /\ ((n < length content)%nat -> length got <> length content).
Proof.
  cbn zeta. rewrite length_app, length_drop, length_resize, length_take.
  split; [lia|split].
  - intros Hle. rewrite firstn_all2 by lia.
    rewrite drop_ge by (rewrite length_resize; lia). apply app_nil_r.
  - lia.
Qed.

Lemma get_reader_spec (f : File.t) (env : File.read_env) (fs : File.filesystem) :
  (forall content, fs !! File._filename f = Some content ->
                   Z.of_nat (length content) <= INT_MAX) ->
  match File.get_reader md5_raw_input f env fs with
  | (f', Some r) =>
      exists content,
        File.header_accepted md5_raw_input f env fs content
        /\ f' = File.set_buffer f content
        /\ r = Reader.over (nth 5 content Byte.x00) (nth 6 content Byte.x00)
                           (nth 7 content Byte.x00) content 8
  | (f', None) =>
      forall content, ~ File.header_accepted md5_raw_input f env fs content
  end.
Proof.
  intros Hfit. unfold File.get_reader.
  destruct (fs !! File._filename f) as [content|] eqn:Hfs.
  2:{ intros content [Hex _ _ _ _ _]. congruence. }
  specialize (Hfit content eq_refl).
  assert (Hint : is_int (Z.of_nat (length content)))
    by (unfold is_int, INT_MIN, INT_MAX in *; lia).
  rewrite (wrap_int_small _ Hint).
  rewrite (wrap_u64_small (Z.of_nat (length content))) by lia.
  rewrite Nat2Z.id, firstn_all.
  destruct (fread_buffer content (File._buffer f) (File.delivered env))
    as (Hlen & Hfull & Hshort).
  cbv zeta in Hlen, Hfull, Hshort.
  set (got := firstn (File.delivered env) content) in *.
  set (buffer := got ++ _) in *.
  assert (Hgot : Z.of_nat (length got) <= Z.of_nat (length content))
    by (unfold got; rewrite length_take; lia).
  rewrite wrap_int_small by (unfold is_int, INT_MIN, INT_MAX in *; lia).
  rewrite wrap_u64_small by lia.
  rewrite Hlen.
  destruct (Z.eqb_spec (Z.of_nat (length got)) (Z.of_nat (length content))) as [Heq|Hne];
    cbn [negb].
  2:{ intros c [Hex Hfr _ _ _ _]. assert (c = content) by congruence. subst c.
      apply Hne. unfold got. rewrite length_take. lia. }
  assert (Hdel : (length content <= File.delivered env)%nat).
  { destruct (Nat.le_gt_cases (length content) (File.delivered env)); [assumption|].
    exfalso. apply Hshort; lia. }
  rewrite (Hfull Hdel). clear buffer Hlen Hfull Hshort.
  destruct (File.saved_hash_accepts md5_raw_input f content env fs) eqn:Hhash;
    cbn [negb].
  2:{ intros c [Hex _ Hh _ _ _]. assert (c = content) by congruence. subst c.
      congruence. }
  destruct (Z.ltb_spec (Z.of_nat (length content)) 8) as [Hlt|Hge].
  { intros c [Hex _ _ Hl _ _]. assert (c = content) by congruence. subst c. lia. }
  destruct (Z.eqb_spec (le_combine (firstn 4 content)) File.MAGIC_NUM) as [Hm|Hm];
    cbn [negb].
  2:{ intros c [Hex _ _ _ Hm' _]. assert (c = content) by congruence. subst c.
      contradiction. }
  destruct (Z.eqb_spec (char_to_int (nth 4 content Byte.x00)) (File.appid f)) as [Ha|Ha];
    cbn [negb].
  2:{ intros c [Hex _ _ _ _ Ha']. assert (c = content) by congruence. subst c.
      contradiction. }
  exists content. split; [|split]; [|reflexivity|reflexivity].
  split; assumption.
Qed.

Lemma read_fingerprint (content : list byte) :
  Z.of_nat (length content) <= INT_MAX ->
  8 <= Z.of_nat (length content) ->
  Reader.read_uint32 (Reader.over (nth 5 content Byte.x00) (nth 6 content Byte.x00)
                                  (nth 7 content Byte.x00) content 8)
  = if Z.of_nat (length content) <? 12
    then Reader.Returned_false
           (Reader.over (nth 5 content Byte.x00) (nth 6 content Byte.x00)
                        (nth 7 content Byte.x00) content 8)
    else Reader.Returned_true (le_combine (slice 8 4 content))
                              (File.payload_reader content).
Proof.
  intros Hfit Hge. unfold Reader.read_uint32, Reader.deref, Reader.over; cbn.
  rewrite wrap_int_small by (unfold is_int, INT_MIN, INT_MAX in *; lia).
  change (int_add 8 4) with 12.
  destruct (Z.ltb_spec (Z.of_nat (length content)) 12) as [Hlt|Hge12]; [reflexivity|].
  replace (8 + 4 <=? Z.of_nat (length content)) with true
    by (symmetry; apply Z.leb_le; lia).
  unfold File.payload_reader, Reader.over, Reader.set_pos; cbn.
  rewrite wrap_int_small by (unfold is_int, INT_MIN, INT_MAX in *; lia).
  reflexivity.
Qed.

Lemma File_read_spec (f : File.t) (env : File.read_env) (fs : File.filesystem) :
  (forall content, fs !! File._filename f = Some content ->
                   Z.of_nat (length content) <= INT_MAX) ->
  match File.read md5_raw_input state_type state_read f env fs with
  | File.Read_returns ret (Some r) f' =>
      exists content,
        File.header_accepted md5_raw_input f env fs content
        /\ File.state_accepted state_type f content
        /\ r = File.payload_reader content /\ ret = state_read r
        /\ f' = File.set_buffer f content
  | File.Read_returns ret None f' =>
      ret = false
      /\ forall content,
           ~ (File.header_accepted md5_raw_input f env fs content
              /\ File.state_accepted state_type f content)
  | File.Read_out_of_bounds => False
  end.
Proof.
  intros Hfit. unfold File.read.
  pose proof (get_reader_spec f env fs Hfit) as Hg.
  destruct (File.get_reader md5_raw_input f env fs) as [f1 [r|]].
  2:{ split; [reflexivity|]. intros content [Hh _]. now apply (Hg content). }
  destruct Hg as (content & Hh & -> & ->).
  pose proof (File.acc_exists _ _ _ _ _ Hh) as Hex.
  assert (Hsame : forall c,
            File.header_accepted md5_raw_input f env fs c -> c = content).
  { intros c Hc. pose proof (File.acc_exists _ _ _ _ _ Hc). congruence. }
  cbn [Reader.over Reader._type].
  destruct (Z.eqb_spec (char_to_int (nth 6 content Byte.x00)) state_type) as [Ht|Ht];
    cbn [negb].
  2:{ split; [reflexivity|]. intros c [Hc [Ht' _ _]].
      rewrite (Hsame c Hc) in Ht'. contradiction. }
  rewrite (read_fingerprint content (Hfit _ Hex) (File.acc_length _ _ _ _ _ Hh)).
  destruct (Z.ltb_spec (Z.of_nat (length content)) 12) as [Hlt|Hge].
  { split; [reflexivity|]. intros c [Hc [_ Hl _]].
    rewrite (Hsame c Hc) in Hl. lia. }
  cbn [File.set_buffer File._fingerprint].
  destruct (Z.eqb_spec (le_combine (slice 8 4 content)) (File._fingerprint f)) as [Hfp|Hfp];
    cbn [negb].
  2:{ split; [reflexivity|]. intros c [Hc [_ _ Hfp']].
      rewrite (Hsame c Hc) in Hfp'. contradiction. }
  exists content. split; [exact Hh|].
  split; [now split|]. now repeat split.
Qed.

End FileRead.

(** A saved hash of 32 characters that differs from the hash of the
    buffer is a mismatch. *)
Lemma saved_hash_mismatch_rejects (md5_raw_input : list byte -> list byte)
    (f : File.t) (buffer saved : list byte) (env : File.read_env)
    (fs : File.filesystem) :
  File.hash f = true ->
  fs !! (File._filename f +:+ ".md5") = Some saved ->
  length saved = 32%nat ->
  Forall (fun b => b <> Byte.x00) saved ->
  (32 <= File.md5_delivered env)%nat ->
  saved <> File.c_str (md5_raw_input buffer) ->
  File.saved_hash_accepts md5_raw_input f buffer env fs = false.
Proof.
  intros Hhash Hfs Hlen Hnz Hdel Hne. unfold File.saved_hash_accepts.
  rewrite Hhash, Hfs.
  rewrite (firstn_all2 saved) by lia.
  rewrite (firstn_all2 saved) by lia.
  rewrite Hlen.
  assert (Hres : exists g,
            skipn 32 (resize 33%nat Byte.x00 (File.md5hash_garbage env)) = [g]).
  { pose proof (length_resize (File.md5hash_garbage env) 33%nat Byte.x00) as Hl.
    destruct (skipn 32 (resize 33%nat Byte.x00 (File.md5hash_garbage env)))
      as [|g [|g' t]] eqn:Hd;
      apply (f_equal (@length byte)) in Hd; rewrite length_drop, Hl in Hd; cbn in Hd;
      try lia. now exists g. }
  destruct Hres as [g ->].
  assert (Hins : <[32%nat:=Byte.x00]> (saved ++ [g]) = saved ++ [Byte.x00]).
  { rewrite <- Hlen. rewrite insert_app_r_alt by lia. now rewrite Nat.sub_diag. }
  rewrite Hins.
  assert (Hc : File.c_str (saved ++ [Byte.x00]) = saved).
  { clear -Hnz. induction Hnz as [|b l Hb _ IH]; cbn.
    - reflexivity.
    - destruct (decide (b = Byte.x00)); [contradiction|]. now rewrite IH. }
  rewrite Hc. destruct saved as [|b saved]; [discriminate|].
  now apply bool_decide_eq_false.
Qed.

(** C10.  [File::read(TaskState&)] returns [false] without invoking
    [state.read] whenever [get_reader] fails (the file is missing, the
    read is short, the saved MD5 hash does not match, the buffer has fewer
    than 8 bytes, its first 4 bytes differ from MAGIC_NUM, or byte 4
    differs from [appid]), or the stored type byte differs from
    [state.type()], or the stored fingerprint differs from the fingerprint
    of the [File]; and when [state.read] is invoked, all of these checks
    have passed and the call is made on the reader placed after the
    fingerprint, its result being the result of [File::read].  Files are
    at most [INT_MAX] bytes long, the largest length line 154 can hold. *)
Theorem File_read_guards_state_read
    (md5_raw_input : list byte -> list byte) (state_type : Z)
    (state_read : Reader.t -> bool)
    (f : File.t) (env : File.read_env) (fs : File.filesystem) :
  (forall content, fs !! File._filename f = Some content ->
                   Z.of_nat (length content) <= INT_MAX) ->
  let result := File.read md5_raw_input state_type state_read f env fs in
  let refused := exists f', result = File.Read_returns false None f' in
  (fs !! File._filename f = None -> refused)
  /\ (forall content, fs !! File._filename f = Some content ->
        ((File.delivered env < length content)%nat -> refused)
        /\ (File.saved_hash_accepts md5_raw_input f content env fs = false -> refused)
        /\ (forall saved,
              File.hash f = true ->
              fs !! (File._filename f +:+ ".md5") = Some saved ->
              length saved = 32%nat -> Forall (fun b => b <> Byte.x00) saved ->
              (32 <= File.md5_delivered env)%nat ->
              saved <> File.c_str (md5_raw_input content) -> refused)
        /\ (Z.of_nat (length content) < 8 -> refused)
        /\ (le_combine (firstn 4 content) <> File.MAGIC_NUM -> refused)
        /\ (char_to_int (nth 4 content Byte.x00) <> File.appid f -> refused)
        /\ (char_to_int (nth 6 content Byte.x00) <> state_type -> refused)
        /\ (le_combine (slice 8 4 content) <> File._fingerprint f -> refused))
  /\ (forall ret r f', result = File.Read_returns ret (Some r) f' ->
        exists content,
          File.header_accepted md5_raw_input f env fs content
          /\ File.state_accepted state_type f content
          /\ r = File.payload_reader content /\ ret = state_read r).
Proof.
  intros Hfit result refused.
  pose proof (File_read_spec md5_raw_input state_type state_read f env fs Hfit) as Hspec.
  fold result in Hspec.
  assert (Hrefuse : (forall content,
                       ~ (File.header_accepted md5_raw_input f env fs content
                          /\ File.state_accepted state_type f content)) -> refused).
  { intros Hno. unfold refused. destruct result as [ret [r|] f'|].
    - destruct Hspec as (content & Hh & Hs & _). destruct (Hno content). now split.
    - destruct Hspec as [-> _]. now exists f'.
    - contradiction. }
  split; [|split].
  - intros Hnone. apply Hrefuse. intros c [[Hex _ _ _ _ _] _]. congruence.
  - intros content Hsome.
    assert (Hsame : forall c,
              File.header_accepted md5_raw_input f env fs c -> c = content).
    { intros c [Hex _ _ _ _ _]. congruence. }
    assert (Hhashbad : File.saved_hash_accepts md5_raw_input f content env fs = false
                       -> refused).
    { intros Hbad. apply Hrefuse. intros c [Hh _]. pose proof (Hsame c Hh). subst c.
      destruct Hh as [_ _ Hhash _ _ _]. congruence. }
    split; [|split; [exact Hhashbad|split]].
    + intros Hbad. apply Hrefuse. intros c [Hh _]. pose proof (Hsame c Hh). subst c.
      destruct Hh as [_ Hfull _ _ _ _]. lia.
    + intros saved Hhash Hmd5 Hlen Hnz Hdel Hne. apply Hhashbad.
      now apply (saved_hash_mismatch_rejects md5_raw_input f content saved env fs).
    + repeat split; intros Hbad; apply Hrefuse; intros c [Hh Hs];
        pose proof (Hsame c Hh); subst c;
        destruct Hh as [_ Hfull Hhash Hlen Hmagic Happ];
        destruct Hs as [Hty Hl12 Hfp]; try congruence; try lia.
  - intros ret r f' Heq. rewrite Heq in Hspec.
    destruct Hspec as (content & Hh & Hs & Hr & Hret & _). now exists content.
Qed.

(** A well-formed 16-byte file: header, fingerprint 77, four bytes of
    payload. *)
Definition good_image : list byte :=
  le_split 4 File.MAGIC_NUM
  ++ [Byte.x01; Byte.x00; Byte.x05; Byte.x02]
  ++ le_split 4 77 ++ le_split 4 123456.

Definition good_fs : File.filesystem := <["task.ckpt" := good_image]> ∅.

Definition full_delivery : File.read_env :=
  {| File.delivered := 16; File.md5_delivered := 32; File.md5hash_garbage := [] |}.

Lemma File_read_guards_state_read_witness :
  let result := File.read (fun _ => []) 5 (fun _ => true) sample_file
                          full_delivery good_fs in
  let refused := exists f', result = File.Read_returns false None f' in
  (good_fs !! File._filename sample_file = None -> refused)
  /\ (forall content, good_fs !! File._filename sample_file = Some content ->
        ((File.delivered full_delivery < length content)%nat -> refused)
        /\ (File.saved_hash_accepts (fun _ => []) sample_file content
                                    full_delivery good_fs = false -> refused)
        /\ (forall saved,
              File.hash sample_file = true ->
              good_fs !! (File._filename sample_file +:+ ".md5") = Some saved ->
              length saved = 32%nat -> Forall (fun b => b <> Byte.x00) saved ->
              (32 <= File.md5_delivered full_delivery)%nat ->
              saved <> File.c_str ((fun _ : list byte => []) content) -> refused)
        /\ (Z.of_nat (length content) < 8 -> refused)
        /\ (le_combine (firstn 4 content) <> File.MAGIC_NUM -> refused)
        /\ (char_to_int (nth 4 content Byte.x00) <> File.appid sample_file -> refused)
        /\ (char_to_int (nth 6 content Byte.x00) <> 5 -> refused)
        /\ (le_combine (slice 8 4 content) <> File._fingerprint sample_file -> refused))
  /\ (forall ret r f', result = File.Read_returns ret (Some r) f' ->
        exists content,
          File.header_accepted (fun _ => []) sample_file full_delivery good_fs content
          /\ File.state_accepted 5 sample_file content
          /\ r = File.payload_reader content /\ ret = (fun _ : Reader.t => true) r).
Proof.
  apply (File_read_guards_state_read (fun _ => []) 5 (fun _ => true) sample_file
           full_delivery good_fs).
  intros content Hc. vm_compute in Hc. injection Hc as <-. vm_compute. discriminate.
Defined.

Example File_read_good_image :
  File.read (fun _ => []) 5 (fun _ => true) sample_file full_delivery good_fs
  = File.Read_returns true (Some (File.payload_reader good_image))
                      (File.set_buffer sample_file good_image).
Proof. vm_compute. reflexivity. Qed.

(** * Further properties of the file layer *)

Lemma md5_filename_fresh (name : string) : name +:+ ".md5" <> name.
Proof.
  intros Heq. apply (f_equal String.length) in Heq.
  rewrite String.app_length in Heq. cbn in Heq. lia.
Qed.

Lemma slice_all (bs : list byte) : slice 0 (Z.of_nat (length bs)) bs = bs.
Proof. unfold slice. rewrite Nat2Z.id. cbn. apply firstn_all. Qed.

Lemma writeThrough_full filename (buffer : list byte) (n : nat) fs :
  (length buffer <= n)%nat ->
  File.writeThrough filename buffer (Z.of_nat (length buffer)) (File.Wrote n) fs
  = (<[filename := buffer]> fs, true).
Proof.
  intros Hn. unfold File.writeThrough. rewrite slice_all.
  rewrite firstn_all2 by lia. now rewrite Z.eqb_refl.
Qed.

(** The files after a commit whose first write went through. *)
Lemma commit_writer_files (md5_raw_input : list byte -> list byte) (f : File.t)
    (writer : Writer.t) (n : nat) (io_md5 : File.write_result)
    (fs : File.filesystem) :
  (length (Writer._buffer writer) <= n)%nat ->
  File.commit_writer md5_raw_input f writer (File.Wrote n) io_md5 fs
  = (let fs3 := <[File._filename f := Writer._buffer writer]>
                  (delete (File._filename f +:+ ".new")
                     (delete (File._filename f)
                        (<[File._filename f +:+ ".new" := Writer._buffer writer]> fs))) in
     if File.hash f
     then fst (File.writeThrough (File._filename f +:+ ".md5")
                 (File.hash_str md5_raw_input writer) 32 io_md5 fs3)
     else fs3,
     File.set_buffer f (Writer._buffer writer)).
Proof.
  intros Hn. unfold File.commit_writer. rewrite (writeThrough_full _ _ n) by exact Hn.
  cbn [negb]. unfold File.rename, File.remove.
  rewrite lookup_delete_ne by apply not_eq_sym, new_filename_fresh.
  rewrite lookup_insert_eq. reflexivity.
Qed.

Lemma commit_lookup_filename (md5_raw_input : list byte -> list byte) (f : File.t)
    (writer : Writer.t) (n : nat) (io_md5 : File.write_result)
    (fs : File.filesystem) :
  (length (Writer._buffer writer) <= n)%nat ->
  fst (File.commit_writer md5_raw_input f writer (File.Wrote n) io_md5 fs)
    !! File._filename f = Some (Writer._buffer writer).
Proof.
  intros Hn. rewrite commit_writer_files by exact Hn. cbn [fst].
  destruct (File.hash f).
  - rewrite writeThrough_other by apply not_eq_sym, md5_filename_fresh.
    apply lookup_insert_eq.
  - apply lookup_insert_eq.
Qed.

Lemma commit_lookup_new (md5_raw_input : list byte -> list byte) (f : File.t)
    (writer : Writer.t) (n : nat) (io_md5 : File.write_result)
    (fs : File.filesystem) :
  (length (Writer._buffer writer) <= n)%nat ->
  fst (File.commit_writer md5_raw_input f writer (File.Wrote n) io_md5 fs)
    !! (File._filename f +:+ ".new") = None.
Proof.
  intros Hn. rewrite commit_writer_files by exact Hn. cbn [fst].
  assert (Hgone : (<[File._filename f := Writer._buffer writer]>
                     (delete (File._filename f +:+ ".new")
                        (delete (File._filename f)
                           (<[File._filename f +:+ ".new" := Writer._buffer writer]> fs))))
                  !! (File._filename f +:+ ".new") = None).
  { rewrite lookup_insert_ne by apply not_eq_sym, new_filename_fresh.
    apply lookup_delete_eq. }
  destruct (File.hash f); [|exact Hgone].
  rewrite writeThrough_other by apply new_filename_not_md5. exact Hgone.
Qed.

Lemma commit_lookup_md5 (md5_raw_input : list byte -> list byte) (f : File.t)
    (writer : Writer.t) (n : nat) (io_md5 : File.write_result)
    (fs : File.filesystem) :
  (length (Writer._buffer writer) <= n)%nat ->
  fst (File.commit_writer md5_raw_input f writer (File.Wrote n) io_md5 fs)
    !! (File._filename f +:+ ".md5")
  = match File.hash f, io_md5 with
    | true, File.Wrote m =>
        Some (firstn m (firstn 32 (File.hash_str md5_raw_input writer)))
    | true, File.Lost_on_close m landed =>
        Some (firstn landed
                (firstn m (firstn 32 (File.hash_str md5_raw_input writer))))
    | _, _ => fs !! (File._filename f +:+ ".md5")
    end.
Proof.
  intros Hn. rewrite commit_writer_files by exact Hn. cbn [fst].
  assert (Hold : (<[File._filename f := Writer._buffer writer]>
                    (delete (File._filename f +:+ ".new")
                       (delete (File._filename f)
                          (<[File._filename f +:+ ".new" := Writer._buffer writer]> fs))))
                 !! (File._filename f +:+ ".md5")
                 = fs !! (File._filename f +:+ ".md5")).
  { rewrite lookup_insert_ne by apply not_eq_sym, md5_filename_fresh.
    rewrite lookup_delete_ne by apply new_filename_not_md5.
    rewrite lookup_delete_ne by apply not_eq_sym, md5_filename_fresh.
    now rewrite lookup_insert_ne by apply new_filename_not_md5. }
  destruct (File.hash f); [|exact Hold].
  destruct io_md5 as [|m|m landed]; cbn [File.writeThrough fst]; [exact Hold| |];
    rewrite lookup_insert_eq; reflexivity.
Qed.

(** X9.  A commit whose write of the temporary file goes through in
    full: the file at [_filename] holds exactly the bytes of the writer,
    the temporary .new file is gone, and the [File] keeps the bytes as its
    buffer.  The .md5 file holds what the second write delivered of the 32
    characters of the hash when hashing is on and that file could be
    opened, less what a failed flush lost of them; it is as it was before
    when hashing is off or the open failed. *)
Theorem commit_writer_success
    (md5_raw_input : list byte -> list byte) (f : File.t) (writer : Writer.t)
    (n : nat) (io_md5 : File.write_result) (fs : File.filesystem) :
  (length (Writer._buffer writer) <= n)%nat ->
  let result := File.commit_writer md5_raw_input f writer (File.Wrote n) io_md5 fs in
  fst result !! File._filename f = Some (Writer._buffer writer)
  /\ fst result !! (File._filename f +:+ ".new") = None
  /\ snd result = File.set_buffer f (Writer._buffer writer)
  /\ fst result !! (File._filename f +:+ ".md5")
     = match File.hash f, io_md5 with
       | true, File.Wrote m =>
           Some (firstn m (firstn 32 (File.hash_str md5_raw_input writer)))
       | true, File.Lost_on_close m landed =>
           Some (firstn landed
                   (firstn m (firstn 32 (File.hash_str md5_raw_input writer))))
       | _, _ => fs !! (File._filename f +:+ ".md5")
       end.
Proof.
  intros Hn result. split; [|split; [|split]].
  - now apply commit_lookup_filename.
  - now apply commit_lookup_new.
  - subst result. now rewrite commit_writer_files by exact Hn.
  - now apply commit_lookup_md5.
Qed.

Lemma commit_writer_success_witness :
  let result := File.commit_writer (fun _ => replicate 32 Byte.x61) sample_file
                  sample_writer (File.Wrote 3) (File.Wrote 32) sample_fs in
  fst result !! File._filename sample_file = Some (Writer._buffer sample_writer)
  /\ fst result !! (File._filename sample_file +:+ ".new") = None
  /\ snd result = File.set_buffer sample_file (Writer._buffer sample_writer)
  /\ fst result !! (File._filename sample_file +:+ ".md5")
     = match File.hash sample_file, File.Wrote 32 with
       | true, File.Wrote m =>
           Some (firstn m (firstn 32
                   (File.hash_str (fun _ => replicate 32 Byte.x61) sample_writer)))
       | true, File.Lost_on_close m landed =>
           Some (firstn landed
                   (firstn m (firstn 32
                      (File.hash_str (fun _ => replicate 32 Byte.x61) sample_writer))))
       | _, _ => sample_fs !! (File._filename sample_file +:+ ".md5")
       end.
Proof.
  apply (commit_writer_success (fun _ => replicate 32 Byte.x61) sample_file
           sample_writer 3 (File.Wrote 32) sample_fs).
  cbn. lia.
Defined.

(** A commit leaves alone every file but the three it names. *)
Lemma commit_writer_frame
    (md5_raw_input : list byte -> list byte) (f : File.t) (writer : Writer.t)
    (io_new io_md5 : File.write_result) (fs : File.filesystem) (name : string) :
  name <> File._filename f ->
  name <> File._filename f +:+ ".new" ->
  name <> File._filename f +:+ ".md5" ->
  fst (File.commit_writer md5_raw_input f writer io_new io_md5 fs) !! name
  = fs !! name.
Proof.
  intros Hf Hnew Hmd5. unfold File.commit_writer.
  destruct (File.writeThrough (File._filename f +:+ ".new") _ _ io_new fs)
    as [fs1 ok] eqn:Hw.
  assert (H1 : fs1 !! name = fs !! name).
  { change fs1 with (fst (fs1, ok)). rewrite <- Hw. now apply writeThrough_other. }
  destruct ok; cbn [negb fst].
  - assert (H3 : File.rename (File._filename f +:+ ".new") (File._filename f)
                   (File.remove (File._filename f) fs1) !! name = fs !! name).
    { unfold File.rename, File.remove.
      destruct (delete (File._filename f) fs1 !! (File._filename f +:+ ".new")).
      - rewrite lookup_insert_ne by congruence.
        rewrite !lookup_delete_ne by congruence. exact H1.
      - rewrite lookup_delete_ne by congruence. exact H1. }
    destruct (File.hash f); [|exact H3].
    rewrite writeThrough_other by exact Hmd5. exact H3.
  - unfold File.remove. rewrite lookup_delete_ne by congruence. exact H1.
Qed.

(** X10.  [File::commit_writer] touches three files at most: whatever the
    two writes do, a file whose name is neither [_filename] nor
    [_filename] followed by .new or .md5 is after the call what it was
    before, and of the [File] object only the buffer can have changed. *)
Theorem commit_writer_touches_three_files
    (md5_raw_input : list byte -> list byte) (f : File.t) (writer : Writer.t)
    (io_new io_md5 : File.write_result) (fs : File.filesystem) (name : string) :
  name <> File._filename f ->
  name <> File._filename f +:+ ".new" ->
  name <> File._filename f +:+ ".md5" ->
  let result := File.commit_writer md5_raw_input f writer io_new io_md5 fs in
  fst result !! name = fs !! name
  /\ exists buffer, snd result = File.set_buffer f buffer.
Proof.
  intros Hf Hnew Hmd5 result. split; [now apply commit_writer_frame|].
  subst result. unfold File.commit_writer.
  destruct (File.writeThrough (File._filename f +:+ ".new") _ _ io_new fs)
    as [fs1 ok].
  destruct ok; cbn [negb snd]; [now eexists|].
  exists (File._buffer f). now destruct f.
Qed.

Lemma commit_writer_touches_three_files_witness :
  let result := File.commit_writer (fun _ => replicate 32 Byte.x61) sample_file
                  sample_writer (File.Wrote 3) (File.Wrote 32) sample_fs in
  fst result !! "other.ckpt" = sample_fs !! "other.ckpt"
  /\ exists buffer, snd result = File.set_buffer sample_file buffer.
Proof.
  apply (commit_writer_touches_three_files (fun _ => replicate 32 Byte.x61)
           sample_file sample_writer (File.Wrote 3) (File.Wrote 32) sample_fs
           "other.ckpt"); discriminate.
Defined.

Lemma firstn_full_length {A} (n : nat) (l : list A) :
  length (firstn n l) = length l -> firstn n l = l.
Proof.
  intros Hlen. rewrite length_take in Hlen. apply firstn_all2. lia.
Qed.

(** What [writeThrough] has written when it returns [true] for a whole
    buffer. *)
Lemma writeThrough_true filename (buffer : list byte) io fs fs1 :
  File.reached_file io = true ->
  File.writeThrough filename buffer (Z.of_nat (length buffer)) io fs = (fs1, true) ->
  fs1 = <[filename := buffer]> fs.
Proof.
  unfold File.writeThrough, File.reached_file.
  destruct io as [|n|n landed]; [discriminate| |]; rewrite slice_all;
    intros Hreached Heq; injection Heq as <- Hlen;
    apply Z.eqb_eq, Nat2Z.inj in Hlen;
    rewrite (firstn_full_length n buffer Hlen); [reflexivity|].
  apply Nat.leb_le in Hreached. rewrite length_take in Hlen.
  rewrite firstn_all2 by lia. reflexivity.
Qed.

(** The file at [_filename] and the temporary file after each system
    call of a commit: the old file is still there, or it has been removed
    and the complete new bytes are in the .new file, or the new bytes are
    in the file itself. *)
Lemma commit_writer_states_inv
    (md5_raw_input : list byte -> list byte) (f : File.t) (writer : Writer.t)
    (io_new io_md5 : File.write_result) (fs : File.filesystem) :
  File.reached_file io_new = true ->
  let states := File.commit_writer_states md5_raw_input f writer io_new io_md5 fs in
  last states
    = Some (fst (File.commit_writer md5_raw_input f writer io_new io_md5 fs))
  /\ Forall (fun s : File.filesystem =>
               s !! File._filename f = fs !! File._filename f
               \/ (s !! File._filename f = None
                   /\ s !! (File._filename f +:+ ".new") = Some (Writer._buffer writer))
               \/ s !! File._filename f = Some (Writer._buffer writer))
            states.
Proof.
  intros Hreached.
  cbv zeta. unfold File.commit_writer_states, File.commit_writer.
  destruct (File.writeThrough (File._filename f +:+ ".new") _ _ io_new fs)
    as [fs1 ok] eqn:Hw.
  assert (H1 : fs1 !! File._filename f = fs !! File._filename f).
  { change fs1 with (fst (fs1, ok)). rewrite <- Hw.
    apply writeThrough_other. apply not_eq_sym, new_filename_fresh. }
  destruct ok; cbn [negb].
  - apply writeThrough_true in Hw; [|exact Hreached].
    assert (H2 : File.remove (File._filename f) fs1 !! (File._filename f +:+ ".new")
                 = Some (Writer._buffer writer)).
    { unfold File.remove. rewrite lookup_delete_ne by apply not_eq_sym, new_filename_fresh.
      rewrite Hw. apply lookup_insert_eq. }
    assert (H2' : File.remove (File._filename f) fs1 !! File._filename f = None)
      by apply lookup_delete_eq.
    assert (H3 : File.rename (File._filename f +:+ ".new") (File._filename f)
                   (File.remove (File._filename f) fs1) !! File._filename f
                 = Some (Writer._buffer writer)).
    { unfold File.rename. rewrite H2. apply lookup_insert_eq. }
    destruct (File.hash f); cbn [last fst]; (split; [reflexivity|]).
    + constructor; [now left|].
      constructor; [now right; left|].
      constructor; [now right; right|].
      constructor; [|constructor].
      right. right. rewrite writeThrough_other by apply not_eq_sym, md5_filename_fresh.
      exact H3.
    + constructor; [now left|].
      constructor; [now right; left|].
      constructor; [now right; right|constructor].
  - split; [reflexivity|].
    constructor; [now left|].
    constructor; [|constructor].
    left. unfold File.remove.
    rewrite lookup_delete_ne by apply new_filename_fresh. exact H1.
Qed.

(** X11.  When the bytes the write of the temporary file reports are
    the bytes that reach the file (the open may fail and the write may
    come up short, but no flush loses bytes behind the back of
    [writeThrough]), [File::commit_writer] never leaves the committed bytes
    nowhere and never leaves a torn file.  After each of its system calls,
    and whatever the write of the hash does, the file at [_filename] still
    holds what it held before the call, or it has been removed and the
    complete new bytes are in the temporary .new file, or it holds the
    complete new bytes.  The state after the last call is the one
    [commit_writer] returns. *)
Theorem commit_writer_keeps_old_or_new
    (md5_raw_input : list byte -> list byte) (f : File.t) (writer : Writer.t)
    (io_new io_md5 : File.write_result) (fs : File.filesystem) :
  File.reached_file io_new = true ->
  let states := File.commit_writer_states md5_raw_input f writer io_new io_md5 fs in
  last states
    = Some (fst (File.commit_writer md5_raw_input f writer io_new io_md5 fs))
  /\ Forall (fun s : File.filesystem =>
               s !! File._filename f = fs !! File._filename f
               \/ (s !! File._filename f = None
                   /\ s !! (File._filename f +:+ ".new") = Some (Writer._buffer writer))
               \/ s !! File._filename f = Some (Writer._buffer writer))
            states.
Proof. apply commit_writer_states_inv. Qed.

Lemma commit_writer_keeps_old_or_new_witness :
  let states := File.commit_writer_states (fun _ => replicate 32 Byte.x61)
                  sample_file sample_writer (File.Wrote 3)
                  (File.Lost_on_close 32 7) sample_fs in
  last states
    = Some (fst (File.commit_writer (fun _ => replicate 32 Byte.x61) sample_file
                   sample_writer (File.Wrote 3) (File.Lost_on_close 32 7)
                   sample_fs))
  /\ Forall (fun s : File.filesystem =>
               s !! File._filename sample_file = sample_fs !! File._filename sample_file
               \/ (s !! File._filename sample_file = None
                   /\ s !! (File._filename sample_file +:+ ".new")
                      = Some (Writer._buffer sample_writer))
               \/ s !! File._filename sample_file
                  = Some (Writer._buffer sample_writer))
            states.
Proof.
  apply (commit_writer_keeps_old_or_new (fun _ => replicate 32 Byte.x61)
           sample_file sample_writer (File.Wrote 3) (File.Lost_on_close 32 7)
           sample_fs).
  reflexivity.
Defined.

(** X23.  What the ignored [fclose] of line 209 costs.  When [fwrite]
    reports all the bytes of the writer and the flush then loses some, so
    that only [landed] of them are in the temporary file, [writeThrough]
    still returns true and [File::commit_writer] commits: the old file is
    removed, the torn temporary file is renamed over it, and the [File]
    keeps the complete bytes as its buffer; the file at [_filename] then
    holds the bytes that landed and no more, which is not what was to be
    written, and is shorter than the buffer of the [File]. *)
Theorem lost_flush_commits_torn_file
    (md5_raw_input : list byte -> list byte) (f : File.t) (writer : Writer.t)
    (n landed : nat) (io_md5 : File.write_result) (fs : File.filesystem) :
  (length (Writer._buffer writer) <= n)%nat ->
  (landed < length (Writer._buffer writer))%nat ->
  let result :=
    File.commit_writer md5_raw_input f writer (File.Lost_on_close n landed)
                       io_md5 fs in
  snd (File.writeThrough (File._filename f +:+ ".new") (Writer._buffer writer)
                         (Z.of_nat (length (Writer._buffer writer)))
                         (File.Lost_on_close n landed) fs) = true
  /\ fst result !! File._filename f = Some (firstn landed (Writer._buffer writer))
  /\ fst result !! File._filename f <> Some (Writer._buffer writer)
  /\ fst result !! (File._filename f +:+ ".new") = None
  /\ snd result = File.set_buffer f (Writer._buffer writer)
  /\ (length (firstn landed (Writer._buffer writer))
      < length (File._buffer (snd result)))%nat.
Proof.
  intros Hn Hlanded result.
  assert (Hw : File.writeThrough (File._filename f +:+ ".new") (Writer._buffer writer)
                 (Z.of_nat (length (Writer._buffer writer)))
                 (File.Lost_on_close n landed) fs
               = (<[File._filename f +:+ ".new" := firstn landed (Writer._buffer writer)]> fs,
                  true)).
  { unfold File.writeThrough. rewrite slice_all.
    rewrite (firstn_all2 (Writer._buffer writer)) by lia. now rewrite Z.eqb_refl. }
  assert (Hres : result
                 = (let fs3 := <[File._filename f := firstn landed (Writer._buffer writer)]>
                                 (delete (File._filename f +:+ ".new")
                                    (delete (File._filename f)
                                       (<[File._filename f +:+ ".new"
                                          := firstn landed (Writer._buffer writer)]> fs))) in
                    if File.hash f
                    then fst (File.writeThrough (File._filename f +:+ ".md5")
                                (File.hash_str md5_raw_input writer) 32 io_md5 fs3)
                    else fs3,
                    File.set_buffer f (Writer._buffer writer))).
  { subst result. unfold File.commit_writer. rewrite Hw.
    cbn [negb]. unfold File.rename, File.remove.
    rewrite lookup_delete_ne by apply not_eq_sym, new_filename_fresh.
    rewrite lookup_insert_eq. reflexivity. }
  assert (Hfile : fst result !! File._filename f
                  = Some (firstn landed (Writer._buffer writer))).
  { rewrite Hres. cbn [fst]. destruct (File.hash f).
    - rewrite writeThrough_other by apply not_eq_sym, md5_filename_fresh.
      apply lookup_insert_eq.
    - apply lookup_insert_eq. }
  split; [now rewrite Hw|]. split; [exact Hfile|]. split; [|split; [|split]].
  - rewrite Hfile. intros Heq. injection Heq as Heq.
    apply (f_equal (@length byte)) in Heq. rewrite length_take in Heq. lia.
  - rewrite Hres. cbn [fst].
    assert (Hgone : (<[File._filename f := firstn landed (Writer._buffer writer)]>
                       (delete (File._filename f +:+ ".new")
                          (delete (File._filename f)
                             (<[File._filename f +:+ ".new"
                                := firstn landed (Writer._buffer writer)]> fs))))
                    !! (File._filename f +:+ ".new") = None).
    { rewrite lookup_insert_ne by apply not_eq_sym, new_filename_fresh.
      apply lookup_delete_eq. }
    destruct (File.hash f); [|exact Hgone].
    rewrite writeThrough_other by apply new_filename_not_md5. exact Hgone.
  - now rewrite Hres.
  - rewrite Hres. cbn [snd File.set_buffer File._buffer]. rewrite length_take. lia.
Qed.

Lemma lost_flush_commits_torn_file_witness :
  let result :=
    File.commit_writer (fun _ => replicate 32 Byte.x61) sample_file sample_writer
                       (File.Lost_on_close 3 2) (File.Wrote 32) sample_fs in
  snd (File.writeThrough (File._filename sample_file +:+ ".new")
                         (Writer._buffer sample_writer)
                         (Z.of_nat (length (Writer._buffer sample_writer)))
                         (File.Lost_on_close 3 2) sample_fs) = true
  /\ fst result !! File._filename sample_file
     = Some (firstn 2 (Writer._buffer sample_writer))
  /\ fst result !! File._filename sample_file <> Some (Writer._buffer sample_writer)
  /\ fst result !! (File._filename sample_file +:+ ".new") = None
  /\ snd result = File.set_buffer sample_file (Writer._buffer sample_writer)
  /\ (length (firstn 2 (Writer._buffer sample_writer))
      < length (File._buffer (snd result)))%nat.
Proof.
  apply (lost_flush_commits_torn_file (fun _ => replicate 32 Byte.x61) sample_file
           sample_writer 3 2 (File.Wrote 32) sample_fs); cbn; lia.
Defined.

(** X12.  [File::clear] removes the file and its .md5 companion, leaves
    every other file alone and empties the buffer; a [File::read] that
    follows returns [false] without calling [state.read]. *)
Theorem clear_then_read_is_refused
    (md5_raw_input : list byte -> list byte) (state_type : Z)
    (state_read : Reader.t -> bool)
    (f : File.t) (env : File.read_env) (fs : File.filesystem) :
  let result := File.clear f fs in
  fst result !! File._filename f = None
  /\ fst result !! (File._filename f +:+ ".md5") = None
  /\ (forall name, name <> File._filename f ->
                   name <> File._filename f +:+ ".md5" ->
                   fst result !! name = fs !! name)
  /\ snd result = File.set_buffer f []
  /\ File.read md5_raw_input state_type state_read (snd result) env (fst result)
     = File.Read_returns false None (snd result).
Proof.
  cbv zeta. unfold File.clear, File.remove. cbn [fst snd].
  assert (Hgone : delete (File._filename f +:+ ".md5") (delete (File._filename f) fs)
                  !! File._filename f = None).
  { rewrite lookup_delete_ne by apply md5_filename_fresh. apply lookup_delete_eq. }
  split; [exact Hgone|split; [apply lookup_delete_eq|split; [|split; [reflexivity|]]]].
  - intros name Hf Hmd5. now rewrite !lookup_delete_ne by congruence.
  - unfold File.read, File.get_reader. cbn [File.set_buffer File._filename].
    now rewrite Hgone.
Qed.

Lemma saved_hash_accepts_local (md5_raw_input : list byte -> list byte)
    (f : File.t) (buffer : list byte) (env : File.read_env)
    (fs1 fs2 : File.filesystem) :
  (File.hash f = true ->
   fs1 !! (File._filename f +:+ ".md5") = fs2 !! (File._filename f +:+ ".md5")) ->
  File.saved_hash_accepts md5_raw_input f buffer env fs1
  = File.saved_hash_accepts md5_raw_input f buffer env fs2.
Proof.
  intros Hmd5. unfold File.saved_hash_accepts.
  destruct (File.hash f); [|reflexivity]. now rewrite Hmd5.
Qed.

(** X13.  [File::get_reader] and [File::read] look at two files only.  On
    two file systems that agree on the file at [_filename] and, when
    hashing is on, on its .md5 companion, they give the same result
    whatever else differs, a temporary .new file left behind included; with
    hashing off the .md5 file does not count either. *)
Theorem read_looks_at_two_files
    (md5_raw_input : list byte -> list byte) (state_type : Z)
    (state_read : Reader.t -> bool)
    (f : File.t) (env : File.read_env) (fs1 fs2 : File.filesystem) :
  fs1 !! File._filename f = fs2 !! File._filename f ->
  (File.hash f = true ->
   fs1 !! (File._filename f +:+ ".md5") = fs2 !! (File._filename f +:+ ".md5")) ->
  File.get_reader md5_raw_input f env fs1 = File.get_reader md5_raw_input f env fs2
  /\ File.read md5_raw_input state_type state_read f env fs1
     = File.read md5_raw_input state_type state_read f env fs2.
Proof.
  intros Hfile Hmd5.
  assert (Hg : File.get_reader md5_raw_input f env fs1
               = File.get_reader md5_raw_input f env fs2).
  { unfold File.get_reader. rewrite Hfile.
    destruct (fs2 !! File._filename f) as [content|]; [|reflexivity].
    cbv zeta.
    now rewrite (saved_hash_accepts_local md5_raw_input f _ env fs1 fs2 Hmd5). }
  split; [exact Hg|]. unfold File.read. now rewrite Hg.
Qed.

Lemma read_looks_at_two_files_witness :
  let fs2 := <["task.ckpt.new" := [Byte.x00]]> good_fs in
  File.get_reader (fun _ => []) sample_file full_delivery good_fs
  = File.get_reader (fun _ => []) sample_file full_delivery fs2
  /\ File.read (fun _ => []) 5 (fun _ => true) sample_file full_delivery good_fs
     = File.read (fun _ => []) 5 (fun _ => true) sample_file full_delivery fs2.
Proof.
  apply (read_looks_at_two_files (fun _ => []) 5 (fun _ => true) sample_file
           full_delivery good_fs (<["task.ckpt.new" := [Byte.x00]]> good_fs)).
  - reflexivity.
  - intros _. reflexivity.
Defined.

(** ** File::write *)

Lemma byte_of_Z_eq (x y : Z) : x mod 2 ^ 8 = y mod 2 ^ 8 -> byte.of_Z x = byte.of_Z y.
Proof.
  intros Heq. apply byte.unsigned_inj. rewrite !byte.unsigned_of_Z.
  unfold byte.wrap. exact Heq.
Qed.

Lemma char_to_int_of_Z (a : Z) : 0 <= a < 128 -> char_to_int (byte.of_Z a) = a.
Proof.
  intros Ha. unfold char_to_int. rewrite byte.unsigned_of_Z. unfold byte.wrap.
  rewrite Z.mod_small by lia.
  destruct (Z.ltb_spec a 128); [reflexivity|lia].
Qed.

(** The sum of line 260 for an application id and a type that fit a byte
    and a version below 128: no carry into the sign bit. *)
Lemma header_word_value (a t v : Z) :
  0 <= a < 256 -> 0 <= t < 256 -> 0 <= v < 128 ->
  File.header_word a t v = a + t * 2 ^ 16 + v * 2 ^ 24.
Proof.
  intros Ha Ht Hv. unfold File.header_word, int_add, int_shl.
  rewrite !Z.shiftl_mul_pow2 by lia. rewrite Z.mul_0_l.
  rewrite (wrap_int_small 0) by (unfold is_int, INT_MIN, INT_MAX; lia).
  rewrite (wrap_int_small (t * 2 ^ 16)) by (unfold is_int, INT_MIN, INT_MAX; lia).
  rewrite (wrap_int_small (v * 2 ^ 24)) by (unfold is_int, INT_MIN, INT_MAX; lia).
  rewrite (wrap_int_small (a + 0)) by (unfold is_int, INT_MIN, INT_MAX; lia).
  rewrite (wrap_int_small (a + 0 + t * 2 ^ 16))
    by (unfold is_int, INT_MIN, INT_MAX; lia).
  rewrite wrap_int_small by (unfold is_int, INT_MIN, INT_MAX; lia).
  lia.
Qed.

Lemma header_word_bytes (a t v : Z) :
  0 <= a < 256 -> 0 <= t < 256 -> 0 <= v < 128 ->
  le_split 4 (a + t * 2 ^ 16 + v * 2 ^ 24)
  = [byte.of_Z a; Byte.x00; byte.of_Z t; byte.of_Z v].
Proof.
  intros Ha Ht Hv. unfold le_split.
  rewrite !Z.shiftr_div_pow2 by lia.
  change Byte.x00 with (byte.of_Z 0).
  repeat (apply f_equal2; [apply byte_of_Z_eq; Z.div_mod_to_equations; lia|]).
  reflexivity.
Qed.

(** The twelve bytes [File::write] puts before the state: the magic
    number, the application id, a format version of zero, the type and
    the version of the state, the fingerprint. *)
Definition header_image (appid type version fingerprint : Z) : list byte :=
  le_split 4 File.MAGIC_NUM
  ++ [byte.of_Z appid; Byte.x00; byte.of_Z type; byte.of_Z version]
  ++ le_split 4 fingerprint.

Lemma length_header_image a t v fp : length (header_image a t v fp) = 12%nat.
Proof. unfold header_image. now rewrite !length_app, !length_le_split. Qed.

Lemma File_write_commits (md5_raw_input : list byte -> list byte)
    (a t v : Z) (state_write : Writer.t -> Writer.t)
    (f : File.t) (io_new io_md5 : File.write_result) (fs : File.filesystem) :
  0 <= a < 256 -> 0 <= t < 256 -> 0 <= v < 128 ->
  File.write md5_raw_input a t v state_write f io_new io_md5 fs
  = File.commit_writer md5_raw_input (File.set_buffer f [])
      (state_write {| Writer._buffer := header_image a t v (File._fingerprint f) |})
      io_new io_md5 fs.
Proof.
  intros Ha Ht Hv. unfold File.write, File.get_writer.
  unfold Writer.write_uint32, Writer.write_int32, Writer.insert_end.
  cbn [Writer._buffer File.set_buffer File._fingerprint].
  rewrite (header_word_value a t v Ha Ht Hv), (header_word_bytes a t v Ha Ht Hv).
  unfold header_image. rewrite app_nil_l, <- app_assoc. reflexivity.
Qed.

Lemma header_image_cons a t v fp (payload : list byte) :
  header_image a t v fp ++ payload
  = Byte.xd4 :: Byte.x3c :: Byte.x2b :: Byte.x9f
    :: byte.of_Z a :: Byte.x00 :: byte.of_Z t :: byte.of_Z v
    :: le_split 4 fp ++ payload.
Proof.
  unfold header_image.
  change (le_split 4 File.MAGIC_NUM)
    with [Byte.xd4; Byte.x3c; Byte.x2b; Byte.x9f].
  rewrite <- !app_assoc. reflexivity.
Qed.

(** X14.  The file [File::write] leaves when its write goes through, for
    an application id and a state type that fit a byte and a state version
    below 128: the little-endian magic number 0x9f2b3cd4, the application
    id, a zero byte, the type, the version, the little-endian fingerprint,
    and then whatever [state.write] appended after these twelve bytes.  The
    same bytes stay in the buffer of the [File]; what the buffer held
    before does not show. *)
Theorem File_write_layout
    (md5_raw_input : list byte -> list byte) (appid type version : Z)
    (state_write : Writer.t -> Writer.t)
    (f : File.t) (n : nat) (io_md5 : File.write_result) (fs : File.filesystem)
    (payload : list byte) :
  0 <= appid < 256 -> 0 <= type < 256 -> 0 <= version < 128 ->
  let header := header_image appid type version (File._fingerprint f) in
  Writer._buffer (state_write {| Writer._buffer := header |}) = header ++ payload ->
  (12 + length payload <= n)%nat ->
  let result :=
    File.write md5_raw_input appid type version state_write f
               (File.Wrote n) io_md5 fs in
  fst result !! File._filename f = Some (header ++ payload)
  /\ fst result !! (File._filename f +:+ ".new") = None
  /\ snd result = File.set_buffer f (header ++ payload)
  /\ length header = 12%nat.
Proof.
  intros Ha Ht Hv header Hsw Hn result. subst result.
  rewrite File_write_commits by assumption. fold header.
  set (w := state_write {| Writer._buffer := header |}) in *.
  assert (Hlen : (length (Writer._buffer w) <= n)%nat).
  { rewrite Hsw, length_app. unfold header. rewrite length_header_image. lia. }
  pose proof (commit_lookup_filename md5_raw_input (File.set_buffer f []) w n
                io_md5 fs Hlen) as Hfile.
  pose proof (commit_lookup_new md5_raw_input (File.set_buffer f []) w n
                io_md5 fs Hlen) as Hnew.
  cbn [File.set_buffer File._filename] in Hfile, Hnew.
  rewrite Hsw in Hfile.
  split; [exact Hfile|split; [exact Hnew|split]].
  - rewrite commit_writer_files by exact Hlen. cbn [snd File.set_buffer].
    now rewrite Hsw.
  - apply length_header_image.
Qed.

Lemma File_write_layout_witness :
  let header := header_image 1 5 2 (File._fingerprint sample_file) in
  let result :=
    File.write (fun _ => replicate 32 Byte.x61) 1 5 2 (Writer.write_uint32 123456)
               sample_file (File.Wrote 16) (File.Wrote 32) sample_fs in
  fst result !! File._filename sample_file = Some (header ++ le_split 4 123456)
  /\ fst result !! (File._filename sample_file +:+ ".new") = None
  /\ snd result = File.set_buffer sample_file (header ++ le_split 4 123456)
  /\ length header = 12%nat.
Proof.
  apply (File_write_layout (fun _ => replicate 32 Byte.x61) 1 5 2
           (Writer.write_uint32 123456) sample_file 16 (File.Wrote 32) sample_fs
           (le_split 4 123456)); try lia.
  - reflexivity.
  - vm_compute. lia.
Defined.

(** ** File::write followed by File::read *)

Lemma c_str_no_NUL (l : list byte) :
  Forall (fun b => b <> Byte.x00) l ->
  File.c_str l = l /\ File.c_str (l ++ [Byte.x00]) = l.
Proof.
  induction 1 as [|b l Hb _ [IH1 IH2]]; cbn.
  - split; reflexivity.
  - destruct (decide (b = Byte.x00)); [contradiction|]. now rewrite IH1, IH2.
Qed.

(** The test of lines 162-180 when the .md5 file holds 32 characters and
    the read delivers them: the saved hash against the hash of the
    buffer. *)
Lemma saved_hash_compares (md5_raw_input : list byte -> list byte)
    (f : File.t) (buffer saved : list byte) (env : File.read_env)
    (fs : File.filesystem) :
  File.hash f = true ->
  fs !! (File._filename f +:+ ".md5") = Some saved ->
  length saved = 32%nat ->
  Forall (fun b => b <> Byte.x00) saved ->
  (32 <= File.md5_delivered env)%nat ->
  File.saved_hash_accepts md5_raw_input f buffer env fs
  = bool_decide (saved = File.c_str (md5_raw_input buffer)).
Proof.
  intros Hhash Hfs Hlen Hnz Hdel. unfold File.saved_hash_accepts.
  rewrite Hhash, Hfs.
  rewrite (firstn_all2 saved) by lia.
  rewrite (firstn_all2 saved) by lia.
  rewrite Hlen.
  assert (Hres : exists g,
            skipn 32 (resize 33%nat Byte.x00 (File.md5hash_garbage env)) = [g]).
  { pose proof (length_resize (File.md5hash_garbage env) 33%nat Byte.x00) as Hl.
    destruct (skipn 32 (resize 33%nat Byte.x00 (File.md5hash_garbage env)))
      as [|g [|g' t]] eqn:Hd;
      apply (f_equal (@length byte)) in Hd; rewrite length_drop, Hl in Hd; cbn in Hd;
      try lia. now exists g. }
  destruct Hres as [g ->].
  assert (Hins : <[32%nat:=Byte.x00]> (saved ++ [g]) = saved ++ [Byte.x00]).
  { rewrite <- Hlen. rewrite insert_app_r_alt by lia. now rewrite Nat.sub_diag. }
  rewrite Hins. rewrite (proj2 (c_str_no_NUL saved Hnz)).
  destruct saved as [|b saved]; [discriminate|]. reflexivity.
Qed.

(** [md5_raw_input] leaves 32 hexadecimal digits: 32 characters, none of
    them NUL. *)
Definition md5_hex (md5_raw_input : list byte -> list byte) : Prop :=
  forall buffer, length (md5_raw_input buffer) = 32%nat
                 /\ Forall (fun b => b <> Byte.x00) (md5_raw_input buffer).

(** What lets the file through the hash test after a commit: hashing is
    off; or the .md5 file could not be opened and there was none before; or
    the 32 digits were written and are delivered by the read. *)
Definition hash_in_step (md5_raw_input : list byte -> list byte) (f : File.t)
    (io_md5 : File.write_result) (env : File.read_env) (fs : File.filesystem)
    : Prop :=
  File.hash f = false
  \/ (io_md5 = File.Open_fails /\ fs !! (File._filename f +:+ ".md5") = None)
  \/ (md5_hex md5_raw_input /\ (32 <= File.md5_delivered env)%nat
      /\ exists m, io_md5 = File.Wrote m /\ (32 <= m)%nat).

Lemma commit_then_hash_accepts (md5_raw_input : list byte -> list byte)
    (f : File.t) (writer : Writer.t) (n : nat) (io_md5 : File.write_result)
    (env : File.read_env) (fs : File.filesystem) :
  (length (Writer._buffer writer) <= n)%nat ->
  hash_in_step md5_raw_input f io_md5 env fs ->
  File.saved_hash_accepts md5_raw_input f (Writer._buffer writer) env
    (fst (File.commit_writer md5_raw_input f writer (File.Wrote n) io_md5 fs))
  = true.
Proof.
  intros Hn Hstep.
  pose proof (commit_lookup_md5 md5_raw_input f writer n io_md5 fs Hn) as Hmd5.
  destruct Hstep as [Hoff|[[-> Hnone]|(Hhex & Hdel & m & -> & Hm)]].
  - unfold File.saved_hash_accepts. now rewrite Hoff.
  - unfold File.saved_hash_accepts. destruct (File.hash f); [|reflexivity].
    now rewrite Hmd5, Hnone.
  - destruct (File.hash f) eqn:Hh;
      [|unfold File.saved_hash_accepts; now rewrite Hh].
    destruct (Hhex (Writer._buffer writer)) as [Hlen Hnz].
    unfold File.hash_str in Hmd5.
    rewrite (proj1 (c_str_no_NUL _ Hnz)) in Hmd5.
    rewrite (firstn_all2 (md5_raw_input _)) in Hmd5 by lia.
    rewrite firstn_all2 in Hmd5 by lia.
    rewrite (saved_hash_compares md5_raw_input f _ _ env _ Hh Hmd5 Hlen Hnz Hdel).
    rewrite (proj1 (c_str_no_NUL _ Hnz)). now apply bool_decide_eq_true.
Qed.

Lemma File_read_accepts (md5_raw_input : list byte -> list byte) (state_type : Z)
    (state_read : Reader.t -> bool)
    (f : File.t) (env : File.read_env) (fs : File.filesystem)
    (content : list byte) :
  Z.of_nat (length content) <= INT_MAX ->
  File.header_accepted md5_raw_input f env fs content ->
  File.state_accepted state_type f content ->
  File.read md5_raw_input state_type state_read f env fs
  = File.Read_returns (state_read (File.payload_reader content))
                      (Some (File.payload_reader content))
                      (File.set_buffer f content).
Proof.
  intros Hfit Hh Hs.
  pose proof (File.acc_exists _ _ _ _ _ Hh) as Hex.
  assert (Hfits : forall c, fs !! File._filename f = Some c ->
                            Z.of_nat (length c) <= INT_MAX).
  { intros c Hc. assert (c = content) by congruence. now subst c. }
  pose proof (File_read_spec md5_raw_input state_type state_read f env fs Hfits) as Hspec.
  destruct (File.read md5_raw_input state_type state_read f env fs) as [ret [r|] f'|].
  - destruct Hspec as (c & Hc & _ & -> & -> & ->).
    pose proof (File.acc_exists _ _ _ _ _ Hc). assert (c = content) by congruence.
    now subst c.
  - destruct Hspec as [_ Hno]. destruct (Hno content). now split.
  - contradiction.
Qed.

(** The checks of [get_reader] and [File::read] on the image of a file
    that begins with the header [File::write] builds. *)
Lemma header_image_checks a t v fp (payload : list byte) :
  0 <= a < 128 -> 0 <= t < 128 -> 0 <= v < 128 -> is_u32 fp ->
  let image := header_image a t v fp ++ payload in
  Z.of_nat (length image) = 12 + Z.of_nat (length payload)
  /\ le_combine (firstn 4 image) = File.MAGIC_NUM
  /\ char_to_int (nth 4 image Byte.x00) = a
  /\ nth 5 image Byte.x00 = Byte.x00
  /\ char_to_int (nth 6 image Byte.x00) = t
  /\ char_to_int (nth 7 image Byte.x00) = v
  /\ le_combine (slice 8 4 image) = fp.
Proof.
  intros Ha Ht Hv Hfp image.
  split; [|split; [|split; [|split; [|split; [|split]]]]].
  - unfold image. rewrite length_app, length_header_image. lia.
  - unfold image. rewrite header_image_cons. reflexivity.
  - unfold image. rewrite header_image_cons. cbn [nth]. now apply char_to_int_of_Z.
  - unfold image. rewrite header_image_cons. reflexivity.
  - unfold image. rewrite header_image_cons. cbn [nth]. now apply char_to_int_of_Z.
  - unfold image. rewrite header_image_cons. cbn [nth]. now apply char_to_int_of_Z.
  - unfold image, header_image. rewrite <- !app_assoc.
    rewrite (app_assoc (le_split 4 File.MAGIC_NUM)).
    set (pre := le_split 4 File.MAGIC_NUM ++ _).
    change 8 with (Z.of_nat (length pre)).
    rewrite (slice_app_mid pre (le_split 4 fp) payload 4)
      by now rewrite length_le_split.
    apply le_combine_split_small. exact Hfp.
Qed.

(** What is asked of a [File::write] of a state that appends [payload]
    for the file to be read back: an application id that is the [appid] of
    the [File] and, like the type and the version of the state, at most
    127, the largest value a [char] holds; a fingerprint that is a
    [uint32_t]; a file that an [int] can measure; writes and reads that
    deliver all the bytes. *)
Record written_in_full (md5_raw_input : list byte -> list byte)
    (appid type version : Z)
    (f : File.t) (n : nat) (io_md5 : File.write_result) (env : File.read_env)
    (fs : File.filesystem) (payload : list byte) : Prop := {
  wf_appid : 0 <= appid < 128;
  wf_appid_file : File.appid f = appid;
  wf_type : 0 <= type < 128;
  wf_version : 0 <= version < 128;
  wf_fingerprint : is_u32 (File._fingerprint f);
  wf_fits : 12 + Z.of_nat (length payload) <= INT_MAX;
  wf_written : (12 + length payload <= n)%nat;
  wf_delivered : (12 + length payload <= File.delivered env)%nat;
  wf_hash : hash_in_step md5_raw_input f io_md5 env fs
}.

Lemma File_write_read_core (md5_raw_input : list byte -> list byte)
    (appid type version : Z) (state_write : Writer.t -> Writer.t)
    (state_read : Reader.t -> bool)
    (f : File.t) (n : nat) (io_md5 : File.write_result) (env : File.read_env)
    (fs : File.filesystem) (payload : list byte) :
  written_in_full md5_raw_input appid type version f n io_md5 env fs payload ->
  Writer._buffer
    (state_write
       {| Writer._buffer := header_image appid type version (File._fingerprint f) |})
  = header_image appid type version (File._fingerprint f) ++ payload ->
  let image := header_image appid type version (File._fingerprint f) ++ payload in
  let written :=
    File.write md5_raw_input appid type version state_write f
               (File.Wrote n) io_md5 fs in
  snd written = File.set_buffer f image
  /\ fst written !! File._filename f = Some image
  /\ File.read md5_raw_input type state_read (snd written) env (fst written)
     = File.Read_returns (state_read (File.payload_reader image))
                         (Some (File.payload_reader image)) (snd written).
Proof.
  intros [Ha Haf Ht Hv Hfp Hfit Hn Hdel Hhash] Hsw image written.
  pose proof (header_image_checks appid type version (File._fingerprint f) payload
                Ha Ht Hv Hfp) as Hchk.
  cbv zeta in Hchk. fold image in Hchk.
  destruct Hchk as (Hlen & Hmagic & Happ & _ & Hty & _ & Hfinger).
  subst written. rewrite File_write_commits by lia.
  set (w := state_write _) in *. fold image in Hsw.
  assert (Hwn : (length (Writer._buffer w) <= n)%nat).
  { rewrite Hsw. apply Nat2Z.inj_le. rewrite Hlen. lia. }
  set (f0 := File.set_buffer f []).
  pose proof (commit_lookup_filename md5_raw_input f0 w n io_md5 fs Hwn) as Hfile.
  pose proof (commit_then_hash_accepts md5_raw_input f0 w n io_md5 env fs Hwn Hhash)
    as Haccept.
  assert (Hobj : snd (File.commit_writer md5_raw_input f0 w (File.Wrote n) io_md5 fs)
                 = File.set_buffer f image).
  { rewrite commit_writer_files by exact Hwn. cbn [snd]. rewrite Hsw. reflexivity. }
  rewrite Hsw in Hfile, Haccept. cbn [f0 File.set_buffer File._filename] in Hfile.
  split; [exact Hobj|split; [exact Hfile|]].
  rewrite Hobj.
  rewrite (File_read_accepts md5_raw_input type state_read (File.set_buffer f image)
             env _ image).
  - reflexivity.
  - lia.
  - split; cbn [File.set_buffer File._filename File.appid].
    + exact Hfile.
    + apply Nat2Z.inj_le. rewrite Hlen. lia.
    + exact Haccept.
    + lia.
    + exact Hmagic.
    + now rewrite Haf.
  - split; cbn [File.set_buffer File._fingerprint]; [exact Hty|lia|exact Hfinger].
Qed.

Lemma payload_reader_stands a t v fp (payload : list byte) :
  12 + Z.of_nat (length payload) <= INT_MAX ->
  stands_at (File.payload_reader (header_image a t v fp ++ payload))
            (header_image a t v fp) payload.
Proof.
  intros Hfit.
  assert (Hlen : Z.of_nat (length (header_image a t v fp ++ payload))
                 = 12 + Z.of_nat (length payload)).
  { rewrite length_app, length_header_image. lia. }
  split; cbn [File.payload_reader Reader.over Reader._data Reader._size Reader._pos].
  - reflexivity.
  - apply wrap_int_small. rewrite Hlen. unfold is_int, INT_MIN, INT_MAX in *. lia.
  - now rewrite length_header_image.
  - now rewrite Hlen.
Qed.

(** A state of type 5 and version 2 that writes one [uint32_t], written
    to the sample file with every byte delivered. *)
Lemma sample_written_in_full :
  written_in_full (fun _ => replicate 32 Byte.x61) 1 5 2 sample_file 16
                  (File.Wrote 32) full_delivery sample_fs (le_split 4 123456).
Proof.
  split; try (cbn; lia); try reflexivity.
  - unfold is_u32. cbn. lia.
  - unfold INT_MAX. vm_compute. discriminate.
  - right. right. split; [|split; [cbn; lia|exists 32%nat; split; [reflexivity|lia]]].
    intros buffer. split; [reflexivity|]. repeat constructor; discriminate.
Defined.

(** X15.  What [File::write] has written, [File::read] accepts.  After
    a write that went through, of a state whose [write] appends [payload]
    to the writer, a [File::read] for a state of the same type over the
    files the write left passes every check and returns what [state.read]
    returns; [state.read] is called on a reader over the whole file that
    stands at offset 12, where [payload] begins, and whose [type()] and
    [version()] are those the writing state had. *)
Theorem File_write_then_read
    (md5_raw_input : list byte -> list byte) (appid type version : Z)
    (state_write : Writer.t -> Writer.t) (state_read : Reader.t -> bool)
    (f : File.t) (n : nat) (io_md5 : File.write_result) (env : File.read_env)
    (fs : File.filesystem) (payload : list byte) :
  written_in_full md5_raw_input appid type version f n io_md5 env fs payload ->
  let header := header_image appid type version (File._fingerprint f) in
  Writer._buffer (state_write {| Writer._buffer := header |}) = header ++ payload ->
  let written :=
    File.write md5_raw_input appid type version state_write f
               (File.Wrote n) io_md5 fs in
  let reader := File.payload_reader (header ++ payload) in
  File.read md5_raw_input type state_read (snd written) env (fst written)
    = File.Read_returns (state_read reader) (Some reader) (snd written)
  /\ Reader._data reader = header ++ payload
  /\ Reader._pos reader = 12
  /\ Reader._size reader = 12 + Z.of_nat (length payload)
  /\ slice 12 (Z.of_nat (length payload)) (Reader._data reader) = payload
  /\ char_to_int (Reader._type reader) = type
  /\ char_to_int (Reader._version reader) = version.
Proof.
  intros Hw header Hsw written reader.
  destruct (File_write_read_core md5_raw_input appid type version state_write
              state_read f n io_md5 env fs payload Hw Hsw) as (_ & _ & Hread).
  pose proof Hw as [Ha _ Ht Hv Hfp Hfit _ _ _].
  destruct (header_image_checks appid type version (File._fingerprint f) payload
              Ha Ht Hv Hfp) as (_ & _ & _ & _ & Hty & Hver & _).
  destruct (payload_reader_stands appid type version (File._fingerprint f) payload Hfit)
    as [Hd Hs Hp _].
  fold header in Hd, Hs, Hp, Hty, Hver. fold reader in Hd, Hs, Hp.
  split; [exact Hread|split; [exact Hd|split; [|split; [|split; [|split]]]]].
  - rewrite Hp. unfold header. now rewrite length_header_image.
  - rewrite Hs, length_app. unfold header. rewrite length_header_image. lia.
  - rewrite Hd.
    change 12 with (Z.of_nat 12). rewrite <- (length_header_image appid type version
                                               (File._fingerprint f)).
    fold header. rewrite <- (app_nil_r payload) at 2.
    now apply slice_app_mid.
  - exact Hty.
  - exact Hver.
Qed.

Lemma File_write_then_read_witness :
  let header := header_image 1 5 2 (File._fingerprint sample_file) in
  let written :=
    File.write (fun _ => replicate 32 Byte.x61) 1 5 2 (Writer.write_uint32 123456)
               sample_file (File.Wrote 16) (File.Wrote 32) sample_fs in
  let reader := File.payload_reader (header ++ le_split 4 123456) in
  File.read (fun _ => replicate 32 Byte.x61) 5 (fun _ => true) (snd written)
            full_delivery (fst written)
    = File.Read_returns ((fun _ : Reader.t => true) reader) (Some reader) (snd written)
  /\ Reader._data reader = header ++ le_split 4 123456
  /\ Reader._pos reader = 12
  /\ Reader._size reader = 12 + Z.of_nat (length (le_split 4 123456))
  /\ slice 12 (Z.of_nat (length (le_split 4 123456))) (Reader._data reader)
     = le_split 4 123456
  /\ char_to_int (Reader._type reader) = 5
  /\ char_to_int (Reader._version reader) = 2.
Proof.
  apply (File_write_then_read (fun _ => replicate 32 Byte.x61) 1 5 2
           (Writer.write_uint32 123456) (fun _ => true) sample_file 16
           (File.Wrote 32) full_delivery sample_fs (le_split 4 123456)).
  - exact sample_written_in_full.
  - reflexivity.
Defined.

(** X16.  A state saved is the state restored.  When [state.write]
    writes a run of values and the write goes through, [File::read] over
    the files it left hands [state.read] a reader from which reads of the
    matching types, in write order, return [true] and yield exactly the
    values written, and which is then at the end of the file. *)
Theorem saved_state_is_restored {G : Type} `{GiantOps G}
    (md5_raw_input : list byte -> list byte) (appid type version : Z)
    (vs : list (value G)) (ds : list (dest G)) (state_read : Reader.t -> bool)
    (f : File.t) (n : nat) (io_md5 : File.write_result) (env : File.read_env)
    (fs : File.filesystem) :
  Forall value_ok vs ->
  Forall2 fresh_for vs ds ->
  written_in_full md5_raw_input appid type version f n io_md5 env fs
                  (concat (map encode vs)) ->
  let written :=
    File.write md5_raw_input appid type version (write_all vs) f
               (File.Wrote n) io_md5 fs in
  exists reader r',
    File.read md5_raw_input type state_read (snd written) env (fst written)
      = File.Read_returns (state_read reader) (Some reader) (snd written)
    /\ read_all ds reader = Reader.Returned_true vs r'
    /\ Reader._pos r' = Reader._size r'.
Proof.
  intros Hok Hfresh Hw written.
  set (header := header_image appid type version (File._fingerprint f)).
  assert (Hsw : Writer._buffer (write_all vs {| Writer._buffer := header |})
                = header ++ concat (map encode vs))
    by apply write_all_encode.
  destruct (File_write_read_core md5_raw_input appid type version (write_all vs)
              state_read f n io_md5 env fs _ Hw Hsw) as (_ & _ & Hread).
  pose proof (payload_reader_stands appid type version (File._fingerprint f)
                (concat (map encode vs)) (wf_fits _ _ _ _ _ _ _ _ _ _ Hw)) as Hst.
  fold header in Hst, Hread.
  destruct (read_all_stands vs ds _ _ Hok Hfresh Hst) as (r' & Hr & Hst').
  exists (File.payload_reader (header ++ concat (map encode vs))), r'.
  split; [exact Hread|split; [exact Hr|]].
  destruct Hst' as [_ Hs Hp _]. rewrite Hs, Hp, app_nil_r. reflexivity.
Qed.

Lemma saved_state_is_restored_witness :
  let written :=
    File.write (fun _ => replicate 32 Byte.x61) 1 5 2 (write_all sample_values)
               sample_file (File.Wrote 60) (File.Wrote 32) sample_fs in
  exists reader r',
    File.read (fun _ => replicate 32 Byte.x61) 5 (fun _ => true) (snd written)
              {| File.delivered := 60; File.md5_delivered := 32;
                 File.md5hash_garbage := [] |} (fst written)
      = File.Read_returns ((fun _ : Reader.t => true) reader) (Some reader)
                          (snd written)
    /\ read_all sample_dests reader = Reader.Returned_true sample_values r'
    /\ Reader._pos r' = Reader._size r'.
Proof.
  apply (saved_state_is_restored (fun _ => replicate 32 Byte.x61) 1 5 2
           sample_values sample_dests (fun _ => true) sample_file 60 (File.Wrote 32)
           {| File.delivered := 60; File.md5_delivered := 32;
              File.md5hash_garbage := [] |} sample_fs).
  - repeat constructor; cbn; try (intros; reflexivity || discriminate || lia);
      unfold is_int, is_u32, is_u64, INT_MIN, INT_MAX; try lia.
  - repeat constructor.
  - split; try (cbn; lia); try reflexivity.
    + unfold is_u32. cbn. lia.
    + unfold INT_MAX. vm_compute. discriminate.
    + vm_compute. lia.
    + vm_compute. lia.
    + right. right. split; [|split; [cbn; lia|exists 32%nat; split; [reflexivity|lia]]].
      intros buffer. split; [reflexivity|]. repeat constructor; discriminate.
Defined.

(** X17.  A file written for one state is not read as another.  After a
    write that went through, a [File::read] over the same file by a [File]
    with another fingerprint or another application id, or for a state of
    another type, returns [false] without calling [state.read]. *)
Theorem written_file_is_refused_elsewhere
    (md5_raw_input : list byte -> list byte) (appid type version : Z)
    (state_write : Writer.t -> Writer.t) (state_read : Reader.t -> bool)
    (f : File.t) (n : nat) (io_md5 : File.write_result) (env : File.read_env)
    (fs : File.filesystem) (payload : list byte)
    (g : File.t) (other_type : Z) :
  written_in_full md5_raw_input appid type version f n io_md5 env fs payload ->
  let header := header_image appid type version (File._fingerprint f) in
  Writer._buffer (state_write {| Writer._buffer := header |}) = header ++ payload ->
  File._filename g = File._filename f ->
  File._fingerprint g <> File._fingerprint f \/ File.appid g <> appid
  \/ other_type <> type ->
  let written :=
    File.write md5_raw_input appid type version state_write f
               (File.Wrote n) io_md5 fs in
  exists g',
    File.read md5_raw_input other_type state_read g env (fst written)
    = File.Read_returns false None g'.
Proof.
  intros Hw header Hsw Hname Hdiff written.
  destruct (File_write_read_core md5_raw_input appid type version state_write
              state_read f n io_md5 env fs payload Hw Hsw) as (_ & Hfile & _).
  fold header written in Hfile.
  pose proof Hw as [Ha _ Ht Hv Hfp Hfit _ _ _].
  destruct (header_image_checks appid type version (File._fingerprint f) payload
              Ha Ht Hv Hfp) as (Hlen & _ & Happ & _ & Hty & _ & Hfinger).
  fold header in Hlen, Happ, Hty, Hfinger.
  rewrite <- Hname in Hfile.
  assert (Hfits : forall c, fst written !! File._filename g = Some c ->
                            Z.of_nat (length c) <= INT_MAX).
  { intros c Hc. assert (c = header ++ payload) by congruence. subst c. lia. }
  pose proof (File_read_spec md5_raw_input other_type state_read g env (fst written)
                Hfits) as Hspec.
  destruct (File.read md5_raw_input other_type state_read g env (fst written))
    as [ret [r|] g'|].
  - exfalso. destruct Hspec as (c & Hc & Hs & _).
    pose proof (File.acc_exists _ _ _ _ _ Hc) as Hex.
    assert (c = header ++ payload) by congruence. subst c.
    destruct Hc as [_ _ _ _ _ Happ']. destruct Hs as [Hty' _ Hfinger'].
    subst header.
    destruct Hdiff as [Hd|[Hd|Hd]]; apply Hd.
    + exact (eq_trans (eq_sym Hfinger') Hfinger).
    + exact (eq_trans (eq_sym Happ') Happ).
    + exact (eq_trans (eq_sym Hty') Hty).
  - destruct Hspec as [-> _]. now exists g'.
  - contradiction.
Qed.

Lemma written_file_is_refused_elsewhere_witness :
  let written :=
    File.write (fun _ => replicate 32 Byte.x61) 1 5 2 (Writer.write_uint32 123456)
               sample_file (File.Wrote 16) (File.Wrote 32) sample_fs in
  exists g',
    File.read (fun _ => replicate 32 Byte.x61) 6 (fun _ => true) sample_file
              full_delivery (fst written)
    = File.Read_returns false None g'.
Proof.
  apply (written_file_is_refused_elsewhere (fun _ => replicate 32 Byte.x61) 1 5 2
           (Writer.write_uint32 123456) (fun _ => true) sample_file 16
           (File.Wrote 32) full_delivery sample_fs (le_split 4 123456)
           sample_file 6).
  - exact sample_written_in_full.
  - reflexivity.
  - reflexivity.
  - right. right. discriminate.
Defined.

(** X18.  A hash file that could not be rewritten blocks the new file.
    When a commit writes the file but cannot open the .md5 file, the .md5
    file of an earlier commit stays; if it holds the 32 characters of a
    hash other than that of the new bytes, a [File::read] that follows with
    hashing on returns [false] without calling [state.read], although the
    file holds exactly the bytes committed. *)
Theorem stale_hash_refuses_new_file
    (md5_raw_input : list byte -> list byte) (state_type : Z)
    (state_read : Reader.t -> bool)
    (f : File.t) (writer : Writer.t) (n : nat) (env : File.read_env)
    (fs : File.filesystem) (saved : list byte) :
  File.hash f = true ->
  (length (Writer._buffer writer) <= n)%nat ->
  Z.of_nat (length (Writer._buffer writer)) <= INT_MAX ->
  fs !! (File._filename f +:+ ".md5") = Some saved ->
  length saved = 32%nat ->
  Forall (fun b => b <> Byte.x00) saved ->
  (32 <= File.md5_delivered env)%nat ->
  saved <> File.c_str (md5_raw_input (Writer._buffer writer)) ->
  let result :=
    File.commit_writer md5_raw_input f writer (File.Wrote n) File.Open_fails fs in
  fst result !! File._filename f = Some (Writer._buffer writer)
  /\ exists f',
       File.read md5_raw_input state_type state_read (snd result) env (fst result)
       = File.Read_returns false None f'.
Proof.
  intros Hh Hn Hfit Hold Hlen Hnz Hdel Hne result.
  pose proof (commit_lookup_filename md5_raw_input f writer n File.Open_fails fs Hn)
    as Hfile.
  pose proof (commit_lookup_md5 md5_raw_input f writer n File.Open_fails fs Hn)
    as Hmd5.
  rewrite Hh, Hold in Hmd5. fold result in Hfile, Hmd5.
  assert (Hobj : snd result = File.set_buffer f (Writer._buffer writer)).
  { subst result. now rewrite commit_writer_files by exact Hn. }
  split; [exact Hfile|]. rewrite Hobj.
  set (f1 := File.set_buffer f (Writer._buffer writer)).
  assert (Hfits : forall c, fst result !! File._filename f1 = Some c ->
                            Z.of_nat (length c) <= INT_MAX).
  { intros c Hc. change (File._filename f1) with (File._filename f) in Hc.
    assert (c = Writer._buffer writer) by congruence. now subst c. }
  pose proof (File_read_spec md5_raw_input state_type state_read f1 env (fst result)
                Hfits) as Hspec.
  destruct (File.read md5_raw_input state_type state_read f1 env (fst result))
    as [ret [r|] f'|].
  - exfalso. destruct Hspec as (c & Hc & _).
    pose proof (File.acc_exists _ _ _ _ _ Hc) as Hex.
    change (File._filename f1) with (File._filename f) in Hex.
    assert (c = Writer._buffer writer) by congruence. subst c.
    destruct Hc as [_ _ Hacc _ _ _].
    rewrite (saved_hash_compares md5_raw_input f1 _ saved env (fst result))
      in Hacc; try assumption.
    now apply bool_decide_eq_true in Hacc.
  - destruct Hspec as [-> _]. now exists f'.
  - contradiction.
Qed.

(** A file system with the hash file of an earlier commit. *)
Definition stale_fs : File.filesystem :=
  <["task.ckpt.md5" := replicate 32 Byte.x62]> sample_fs.

Lemma stale_hash_refuses_new_file_witness :
  let result :=
    File.commit_writer (fun _ => replicate 32 Byte.x61) sample_file sample_writer
                       (File.Wrote 3) File.Open_fails stale_fs in
  fst result !! File._filename sample_file = Some (Writer._buffer sample_writer)
  /\ exists f',
       File.read (fun _ => replicate 32 Byte.x61) 5 (fun _ => true) (snd result)
                 full_delivery (fst result)
       = File.Read_returns false None f'.
Proof.
  apply (stale_hash_refuses_new_file (fun _ => replicate 32 Byte.x61) 5
           (fun _ => true) sample_file sample_writer 3 full_delivery stale_fs
           (replicate 32 Byte.x62)).
  - reflexivity.
  - cbn. lia.
  - vm_compute. discriminate.
  - reflexivity.
  - reflexivity.
  - repeat constructor; discriminate.
  - cbn. lia.
  - vm_compute. discriminate.
Defined.

(** X19.  When the bytes the write of the temporary file reports are
    the bytes that reach the file, a reader never sees a half-committed
    state.  Whichever of its system calls a commit has reached, and
    whatever the write of the hash does, a [File::read] of the same file
    at that point that gets as far as calling [state.read] calls it on the
    complete new bytes or on the complete file as it was before the
    commit, never on a mixture.  Both are at most [INT_MAX] bytes long. *)
Theorem commit_is_atomic_for_readers
    (md5_raw_input : list byte -> list byte) (state_type : Z)
    (state_read : Reader.t -> bool)
    (f : File.t) (writer : Writer.t) (io_new io_md5 : File.write_result)
    (fs : File.filesystem)
    (g : File.t) (env : File.read_env) (s : File.filesystem)
    (ret : bool) (r : Reader.t) (g' : File.t) :
  File.reached_file io_new = true ->
  In s (File.commit_writer_states md5_raw_input f writer io_new io_md5 fs) ->
  File._filename g = File._filename f ->
  Z.of_nat (length (Writer._buffer writer)) <= INT_MAX ->
  (forall old, fs !! File._filename f = Some old ->
               Z.of_nat (length old) <= INT_MAX) ->
  File.read md5_raw_input state_type state_read g env s
    = File.Read_returns ret (Some r) g' ->
  r = File.payload_reader (Writer._buffer writer)
  \/ exists old, fs !! File._filename f = Some old /\ r = File.payload_reader old.
Proof.
  intros Hreached Hin Hname Hnew Hold Hread.
  destruct (commit_writer_states_inv md5_raw_input f writer io_new io_md5 fs Hreached)
    as [_ Hinv].
  cbv zeta in Hinv. rewrite List.Forall_forall in Hinv. specialize (Hinv s Hin).
  rewrite <- Hname in Hinv.
  assert (Hfits : forall c, s !! File._filename g = Some c ->
                            Z.of_nat (length c) <= INT_MAX).
  { intros c Hc. destruct Hinv as [Hsame|[[Hnone _]|Hbuf]].
    - apply Hold. now rewrite <- Hname, <- Hsame.
    - congruence.
    - assert (c = Writer._buffer writer) by congruence. now subst c. }
  pose proof (File_read_spec md5_raw_input state_type state_read g env s Hfits)
    as Hspec.
  rewrite Hread in Hspec. destruct Hspec as (c & Hc & _ & -> & _).
  pose proof (File.acc_exists _ _ _ _ _ Hc) as Hex.
  destruct Hinv as [Hsame|[[Hnone _]|Hbuf]].
  - right. exists c. split; [|reflexivity]. now rewrite <- Hname, <- Hsame.
  - congruence.
  - left. f_equal. congruence.
Qed.

(** Another image of the same state, to be committed over the first. *)
Definition newer_image : list byte :=
  le_split 4 File.MAGIC_NUM
  ++ [Byte.x01; Byte.x00; Byte.x05; Byte.x02]
  ++ le_split 4 77 ++ le_split 4 654321.

(** A read between the write of the temporary file and the removal of
    the old file: it is given the old bytes. *)
Lemma commit_is_atomic_for_readers_witness :
  File.payload_reader good_image
  = File.payload_reader (Writer._buffer {| Writer._buffer := newer_image |})
  \/ exists old, good_fs !! File._filename sample_file = Some old
                 /\ File.payload_reader good_image = File.payload_reader old.
Proof.
  apply (commit_is_atomic_for_readers (fun _ => []) 5 (fun _ => true) sample_file
           {| Writer._buffer := newer_image |} (File.Wrote 16) (File.Wrote 32)
           good_fs sample_file full_delivery
           (<["task.ckpt.new" := newer_image]> good_fs)
           true (File.payload_reader good_image)
           (File.set_buffer sample_file good_image)).
  - reflexivity.
  - vm_compute. left. reflexivity.
  - reflexivity.
  - vm_compute. discriminate.
  - intros old Hold. vm_compute in Hold. injection Hold as <-.
    vm_compute. discriminate.
  - vm_compute. reflexivity.
Defined.

(** The same commit seen at each of its system calls: a read gets the
    old bytes, then no file, then the new bytes. *)
Example commit_seen_by_reader :
  map (fun s => File.read (fun _ => []) 5 (fun _ => true) sample_file
                          full_delivery s)
      (File.commit_writer_states (fun _ => []) sample_file
         {| Writer._buffer := newer_image |} (File.Wrote 16) (File.Wrote 32) good_fs)
  = [ File.Read_returns true (Some (File.payload_reader good_image))
                        (File.set_buffer sample_file good_image);
      File.Read_returns false None sample_file;
      File.Read_returns true (Some (File.payload_reader newer_image))
                        (File.set_buffer sample_file newer_image);
      File.Read_returns true (Some (File.payload_reader newer_image))
                        (File.set_buffer sample_file newer_image) ].
Proof. vm_compute. reflexivity. Qed.

(** The same commit when the flush of the temporary file loses the last
    two bytes: the read after the rename is given the 14 bytes that
    landed. *)
Example torn_commit_seen_by_reader :
  let hashless := {| File._filename := "task.ckpt"; File._fingerprint := 77;
                     File._buffer := []; File.hash := false; File.appid := 1 |} in
  last (map (fun s => File.read (fun _ => []) 5 (fun _ => true) hashless
                                {| File.delivered := 14; File.md5_delivered := 32;
                                   File.md5hash_garbage := [] |} s)
            (File.commit_writer_states (fun _ => []) hashless
               {| Writer._buffer := newer_image |} (File.Lost_on_close 16 14)
               (File.Wrote 32) good_fs))
  = Some (File.Read_returns true
            (Some (File.payload_reader (firstn 14 newer_image)))
            (File.set_buffer hashless (firstn 14 newer_image))).
Proof. vm_compute. reflexivity. Qed.

(** ** Children *)

(** X20.  The file of a child made by [File::add_child] is named after
    its parent: the name of the parent, a dot, the name given.  It is
    never the file of the parent, children with different names never
    share a file, and a child takes the fingerprint of the parent but not
    its settings: hashing is on and [appid] is [FILE_APPID] again, and the
    buffer is empty. *)
Theorem add_child_names (FILE_APPID : Z) (f : File.t) (name1 name2 : string) :
  let child1 := File.add_child FILE_APPID f name1 in
  let child2 := File.add_child FILE_APPID f name2 in
  File._filename child1 = (File._filename f +:+ ".") +:+ name1
  /\ File._filename child1 <> File._filename f
  /\ (File._filename child1 = File._filename child2 <-> name1 = name2)
  /\ File._fingerprint child1 = File._fingerprint f
  /\ File.hash child1 = true
  /\ File.appid child1 = FILE_APPID
  /\ File._buffer child1 = [].
Proof.
  cbv zeta. unfold File.add_child, File.File.
  cbn [File._filename File._fingerprint File.hash File.appid File._buffer].
  split; [reflexivity|split; [|split; [|repeat split]]].
  - intros Heq. apply (f_equal String.length) in Heq.
    rewrite !String.app_length in Heq. cbn in Heq. lia.
  - split; [|now intros ->].
    intros Heq. now apply String.app_inv_r in Heq.
Qed.

Lemma String_app_assoc (s1 s2 s3 : string) :
  (s1 +:+ s2) +:+ s3 = s1 +:+ (s2 +:+ s3).
Proof.
  induction s1 as [|c s1 IH]; [reflexivity|].
  change (String c ((s1 +:+ s2) +:+ s3) = String c (s1 +:+ s2 +:+ s3)).
  now rewrite IH.
Qed.

(** The three files of a child against the three files of its parent:
    the only names they can share are the .md5 and .new files of the
    parent, with a child named md5 or new. *)
Lemma child_names_apart (name fn : string) (suffix : string) :
  In suffix [""; ".new"; ".md5"] ->
  let child := (fn +:+ ".") +:+ name in
  child +:+ suffix <> fn
  /\ (name <> "md5" -> child +:+ suffix <> fn +:+ ".md5")
  /\ (name <> "new" -> child +:+ suffix <> fn +:+ ".new").
Proof.
  intros Hsuf child. subst child.
  assert (Hlen : forall s, ((fn +:+ ".") +:+ name) +:+ suffix = fn +:+ s ->
                           "." +:+ name +:+ suffix = s).
  { intros s Heq. rewrite !String_app_assoc in Heq.
    now apply String.app_inv_r in Heq. }
  split; [|split].
  - intros Heq. apply (f_equal String.length) in Heq.
    rewrite !String.app_length in Heq. cbn in Heq. lia.
  - intros Hname Heq. apply Hlen in Heq.
    destruct Hsuf as [<-|[<-|[<-|[]]]].
    + apply Hname. apply (String.app_inv_l "" name "md5").
      exact (String.app_inv_r "." (name +:+ "") "md5" Heq).
    + apply (f_equal String.length) in Heq.
      rewrite !String.app_length in Heq. cbn in Heq. lia.
    + apply (f_equal String.length) in Heq.
      rewrite !String.app_length in Heq. cbn in Heq. lia.
  - intros Hname Heq. apply Hlen in Heq.
    destruct Hsuf as [<-|[<-|[<-|[]]]].
    + apply Hname. apply (String.app_inv_l "" name "new").
      exact (String.app_inv_r "." (name +:+ "") "new" Heq).
    + apply (f_equal String.length) in Heq.
      rewrite !String.app_length in Heq. cbn in Heq. lia.
    + apply (f_equal String.length) in Heq.
      rewrite !String.app_length in Heq. cbn in Heq. lia.
Qed.

Lemma String_app_nil_r (s : string) : s +:+ "" = s.
Proof.
  induction s as [|c s IH]; [reflexivity|].
  change (String c (s +:+ "") = String c s). now rewrite IH.
Qed.

(** X21.  Parent and child do not write over each other.  For a child
    made by [File::add_child] under a name other than md5 and new, a commit
    of the child, whatever its writes do, leaves the file of the parent and
    its .md5 and .new companions as they were, and a commit of the parent
    leaves the file of the child as it was. *)
Theorem child_and_parent_commit_apart
    (FILE_APPID : Z) (md5_raw_input : list byte -> list byte)
    (f : File.t) (name : string) (writer : Writer.t)
    (io_new io_md5 : File.write_result) (fs : File.filesystem) :
  name <> "md5" -> name <> "new" ->
  let child := File.add_child FILE_APPID f name in
  let by_child := File.commit_writer md5_raw_input child writer io_new io_md5 fs in
  let by_parent := File.commit_writer md5_raw_input f writer io_new io_md5 fs in
  fst by_child !! File._filename f = fs !! File._filename f
  /\ fst by_child !! (File._filename f +:+ ".md5")
     = fs !! (File._filename f +:+ ".md5")
  /\ fst by_child !! (File._filename f +:+ ".new")
     = fs !! (File._filename f +:+ ".new")
  /\ fst by_parent !! File._filename child = fs !! File._filename child.
Proof.
  intros Hmd5 Hnew child by_child by_parent.
  assert (Hplain : In "" [""; ".new"; ".md5"]) by (cbn; tauto).
  assert (Hsnew : In ".new" [""; ".new"; ".md5"]) by (cbn; tauto).
  assert (Hsmd5 : In ".md5" [""; ".new"; ".md5"]) by (cbn; tauto).
  destruct (child_names_apart name (File._filename f) "" Hplain) as (Ha1 & Ha2 & Ha3).
  destruct (child_names_apart name (File._filename f) ".new" Hsnew) as (Hb1 & Hb2 & Hb3).
  destruct (child_names_apart name (File._filename f) ".md5" Hsmd5) as (Hc1 & Hc2 & Hc3).
  cbv zeta in Ha1, Ha2, Ha3, Hb1, Hb2, Hb3, Hc1, Hc2, Hc3.
  rewrite String_app_nil_r in Ha1, Ha2, Ha3.
  subst by_child by_parent child. unfold File.add_child, File.File.
  split; [|split; [|split]].
  - apply commit_writer_frame; cbn [File._filename]; apply not_eq_sym; assumption.
  - apply commit_writer_frame; cbn [File._filename]; apply not_eq_sym; auto.
  - apply commit_writer_frame; cbn [File._filename]; apply not_eq_sym; auto.
  - cbn [File._filename]. apply commit_writer_frame; auto.
Qed.

Lemma child_and_parent_commit_apart_witness :
  let child := File.add_child 1 sample_file "stage2" in
  let by_child :=
    File.commit_writer (fun _ => []) child sample_writer (File.Wrote 3)
                       (File.Wrote 32) sample_fs in
  let by_parent :=
    File.commit_writer (fun _ => []) sample_file sample_writer (File.Wrote 3)
                       (File.Wrote 32) sample_fs in
  fst by_child !! File._filename sample_file = sample_fs !! File._filename sample_file
  /\ fst by_child !! (File._filename sample_file +:+ ".md5")
     = sample_fs !! (File._filename sample_file +:+ ".md5")
  /\ fst by_child !! (File._filename sample_file +:+ ".new")
     = sample_fs !! (File._filename sample_file +:+ ".new")
  /\ fst by_parent !! File._filename child = sample_fs !! File._filename child.
Proof.
  apply (child_and_parent_commit_apart 1 (fun _ => []) sample_file "stage2"
           sample_writer (File.Wrote 3) (File.Wrote 32) sample_fs); discriminate.
Defined.

(** * Proofs: polymult *)

Import Polymult.

(** ** Finite sums *)

Lemma sumZ_ext (f g : nat -> Z) (n : nat) :
  (forall i, (i < n)%nat -> f i = g i) -> sumZ f n = sumZ g n.
Proof.
  induction n as [|n IH]; intros Hfg; cbn; [reflexivity|].
  rewrite IH by (intros; apply Hfg; lia). rewrite Hfg by lia. reflexivity.
Qed.

Lemma sumZ_zero (f : nat -> Z) (n : nat) :
  (forall i, (i < n)%nat -> f i = 0) -> sumZ f n = 0.
Proof.
  induction n as [|n IH]; intros Hf; cbn; [reflexivity|].
  rewrite IH by (intros; apply Hf; lia). rewrite Hf by lia. reflexivity.
Qed.


Lemma sumZ_sub (f g : nat -> Z) (n : nat) :
  sumZ (fun i => f i - g i) n = sumZ f n - sumZ g n.
Proof. induction n as [|n IH]; cbn; [reflexivity|]. rewrite IH. lia. Qed.

Lemma sumZ_app (f : nat -> Z) (n m : nat) :
  sumZ f (n + m) = sumZ f n + sumZ (fun j => f (n + j)%nat) m.
Proof.
  induction m as [|m IH]; cbn.
  - rewrite Nat.add_0_r. lia.
  - rewrite Nat.add_succ_r. cbn. rewrite IH. lia.
Qed.


Lemma sumZ_rev (f : nat -> Z) (n : nat) :
  sumZ f n = sumZ (fun i => f (n - 1 - i)%nat) n.
Proof.
  induction n as [|n IH]; [reflexivity|].
  pose proof (sumZ_app (fun i => f (S n - 1 - i)%nat) 1 n) as Happ.
  change (1 + n)%nat with (S n) in Happ. rewrite Happ. cbn [sumZ].
  rewrite IH. replace (S n - 1 - 0)%nat with n by lia.
  rewrite Z.add_0_l, Z.add_comm. f_equal.
  apply sumZ_ext. intros i Hi. f_equal. lia.
Qed.

(** A sum with a single term that does not vanish. *)
Lemma sumZ_single (f : nat -> Z) (n p : nat) :
  (p < n)%nat -> (forall i, (i < n)%nat -> i <> p -> f i = 0) ->
  sumZ f n = f p.
Proof.
  intros Hp Hz. replace n with (p + (1 + (n - p - 1)))%nat by lia.
  rewrite sumZ_app, sumZ_app. cbn [sumZ].
  rewrite (sumZ_zero f p) by (intros; apply Hz; lia).
  rewrite (sumZ_zero (fun j => f (p + (1 + j))%nat)) by (intros; apply Hz; lia).
  rewrite Nat.add_0_r. lia.
Qed.

(** ** Coefficients of the list operations *)




Lemma length_table (f : nat -> Z) (n : nat) : length (table f n) = n.
Proof. unfold table. now rewrite length_map, length_seq. Qed.



Lemma length_poly_add (a b : list Z) :
  length (poly_add a b) = Nat.max (length a) (length b).
Proof. apply length_table. Qed.


(** [X^n * f] on coefficient functions. *)
Definition fshift (n : nat) (f : nat -> Z) (k : nat) : Z :=
  if (k <? n)%nat then 0 else f (k - n)%nat.


Lemma length_poly_shift (n : nat) (a : list Z) :
  length (poly_shift n a) = (n + length a)%nat.
Proof. unfold poly_shift. now rewrite length_app, length_replicate. Qed.







(** ** Convolution of coefficient functions *)

Definition fconv (f g : nat -> Z) (k : nat) : Z :=
  sumZ (fun i => f i * g (k - i)%nat) (S k).



Lemma fconv_comm (f g : nat -> Z) (k : nat) : fconv f g k = fconv g f k.
Proof.
  unfold fconv. rewrite sumZ_rev. apply sumZ_ext. intros i Hi.
  replace (k - (S k - 1 - i))%nat with i by lia.
  replace (S k - 1 - i)%nat with (k - i)%nat by lia. lia.
Qed.







(** The unit monomial [X^p]. *)
Definition delta (p k : nat) : Z := if (k =? p)%nat then 1 else 0.

Lemma fconv_delta_l (p : nat) (g : nat -> Z) (k : nat) :
  fconv (delta p) g k = fshift p g k.
Proof.
  unfold fconv, fshift. destruct (Nat.ltb_spec k p) as [Hlt|Hge].
  - apply sumZ_zero. intros i Hi. unfold delta.
    destruct (Nat.eqb_spec i p); lia.
  - rewrite (sumZ_single _ (S k) p) by
      (try lia; intros i Hi Hne; unfold delta; destruct (Nat.eqb_spec i p); lia).
    unfold delta. rewrite Nat.eqb_refl. lia.
Qed.

Lemma fconv_delta_r (f : nat -> Z) (q : nat) (k : nat) :
  fconv f (delta q) k = fshift q f k.
Proof. rewrite fconv_comm. apply fconv_delta_l. Qed.




(** ** The brute force kernel and the schoolbook loop *)


Lemma length_brute_force (a b : list Z) :
  length (brute_force a b) = (length a + length b - 1)%nat.
Proof. apply length_table. Qed.











(** ** Karatsuba *)


Lemma length_karatsuba (depth : nat) (kb : Z) (a b : list Z) :
  length (karatsuba depth kb a b) = (length a + length b - 1)%nat.
Proof.
  destruct depth as [|depth]; cbn [karatsuba]; [apply length_brute_force|].
  destruct (karatsuba_base kb a b); [apply length_brute_force|apply length_table].
Qed.

Lemma div2_succ_bounds (n : nat) :
  (2 <= n)%nat -> (Nat.div2 (S n) < n /\ n - Nat.div2 (S n) <= Nat.div2 (S n))%nat.
Proof.
  intros Hn. pose proof (Nat.div2_odd (S n)) as Hodd.
  destruct (Nat.odd (S n)); cbn [Nat.b2n] in Hodd; lia.
Qed.

(** The depth the entry point allows, the length of the longer input,
    is enough: every branch of the recursion ends in a base case. *)
Lemma karatsuba_depth_suffices (depth : nat) (kb : Z) (a b : list Z) :
  (Nat.max (length a) (length b) <= depth)%nat ->
  karatsuba_terminates depth kb a b = true.
Proof.
  revert a b. induction depth as [|depth IH]; intros a b Hd;
    cbn [karatsuba_terminates].
  - unfold karatsuba_base.
    replace (Nat.max (length a) (length b) <=? 1)%nat with true
      by (symmetry; apply Nat.leb_le; lia).
    now rewrite orb_true_r.
  - destruct (karatsuba_base kb a b) eqn:Hbase; [reflexivity|]. cbn [orb].
    unfold karatsuba_base in Hbase. apply orb_false_iff in Hbase as [_ Hn].
    apply Nat.leb_gt in Hn.
    set (n := Nat.max (length a) (length b)) in *.
    destruct (div2_succ_bounds n ltac:(lia)) as [Hlt Hle].
    set (half := Nat.div2 (S n)) in *.
    rewrite !IH; [reflexivity| | |];
      rewrite ?length_poly_add, ?length_take, ?length_drop; lia.
Qed.


(** ** Reduction modulo X^S - 1 *)






(** ** Implied ones and add-ins *)


















(** ** The poly-FFT kernel *)






(** ** The lengths of the poly-FFT *)

Lemma next_fft_size_ge (fuel n : nat) : (n <= next_fft_size fuel n)%nat.
Proof.
  revert n. induction fuel as [|fuel IH]; intros n; cbn [next_fft_size]; [lia|].
  destruct (is_fft_size n); [lia|]. specialize (IH (S n)). lia.
Qed.


Lemma divide_out_factor (fuel p n : nat) :
  exists e, n = (p ^ e * divide_out fuel p n)%nat.
Proof.
  revert n. induction fuel as [|fuel IH]; intros n; cbn [divide_out].
  - exists 0%nat. cbn. lia.
  - destruct ((1 <? p)%nat && (0 <? n)%nat && (n mod p =? 0)%nat) eqn:Hc.
    + apply andb_true_iff in Hc as [Hc Hm]. apply andb_true_iff in Hc as [Hp Hn].
      apply Nat.ltb_lt in Hp, Hn. apply Nat.eqb_eq in Hm.
      destruct (IH (n / p)%nat) as [e He]. exists (S e).
      rewrite Nat.pow_succ_r', <- Nat.mul_assoc, <- He.
      apply Nat.Div0.div_exact. exact Hm.
    + exists 0%nat. cbn. lia.
Qed.

(** A length the model takes for one of the poly-FFT is a product of
    powers of 2, 3 and 5. *)
Lemma is_fft_size_smooth (n : nat) :
  is_fft_size n = true -> exists a b c, n = (2 ^ a * 3 ^ b * 5 ^ c)%nat.
Proof.
  unfold is_fft_size. intros Hn. apply Nat.eqb_eq in Hn.
  destruct (divide_out_factor n 2 n) as [a Ha].
  destruct (divide_out_factor n 3 (divide_out n 2 n)) as [b Hb].
  destruct (divide_out_factor n 5 (divide_out n 3 (divide_out n 2 n))) as [c Hc].
  exists a, b, c. rewrite Hn in Hc. rewrite Ha at 1. rewrite Hb at 1. rewrite Hc at 1. lia.
Qed.

Lemma divide_out_pow (p : nat) (e fuel : nat) (q : nat) :
  (1 < p)%nat -> (e <= fuel)%nat -> (0 < q)%nat -> (q mod p <> 0)%nat ->
  divide_out fuel p (p ^ e * q) = q.
Proof.
  intros Hp. revert fuel. induction e as [|e IH]; intros fuel Hfuel Hq Hm.
  - rewrite Nat.pow_0_r, Nat.mul_1_l. destruct fuel; [reflexivity|].
    cbn [divide_out]. apply Nat.eqb_neq in Hm. now rewrite Hm, andb_false_r.
  - destruct fuel as [|fuel]; [lia|]. cbn [divide_out].
    assert (Hpos : (0 < p ^ S e * q)%nat).
    { apply Nat.mul_pos_pos; [|exact Hq]. apply Nat.neq_0_lt_0, Nat.pow_nonzero. lia. }
    assert (Heq : (p ^ S e * q = p ^ e * q * p)%nat) by (rewrite Nat.pow_succ_r'; lia).
    replace (1 <? p)%nat with true by (symmetry; apply Nat.ltb_lt; lia).
    replace (0 <? p ^ S e * q)%nat with true by (symmetry; apply Nat.ltb_lt; lia).
    rewrite Heq. rewrite Nat.Div0.mod_mul, Nat.div_mul by lia.
    cbn [andb Nat.eqb]. apply IH; [lia|exact Hq|exact Hm].
Qed.

Lemma pow_gt_exponent (e : nat) : (e < 2 ^ e)%nat.
Proof. apply Nat.pow_gt_lin_r. lia. Qed.

Lemma is_fft_size_pow2 (e : nat) : is_fft_size (2 ^ e) = true.
Proof.
  unfold is_fft_size.
  pose proof (divide_out_pow 2 e (2 ^ e) 1) as H2. rewrite Nat.mul_1_r in H2.
  rewrite H2; [|lia|pose proof (pow_gt_exponent e); lia|lia|cbn; lia].
  assert (H1 : forall p, (1 < p)%nat -> divide_out (2 ^ e) p 1 = 1%nat).
  { intros p Hp. pose proof (divide_out_pow p 0 (2 ^ e) 1) as H.
    rewrite Nat.pow_0_r, Nat.mul_1_l in H. apply H; [exact Hp|lia|lia|].
    rewrite Nat.mod_small by lia. lia. }
  rewrite !H1 by lia. reflexivity.
Qed.

(** The search finds the first length from [n] on, when there is one
    within its fuel. *)
Lemma next_fft_size_found (fuel n m : nat) :
  (n <= m < n + fuel)%nat -> is_fft_size m = true ->
  is_fft_size (next_fft_size fuel n) = true.
Proof.
  revert n. induction fuel as [|fuel IH]; intros n Hm Hfft; [lia|].
  cbn [next_fft_size]. destruct (is_fft_size n) eqn:Hn; [exact Hn|].
  apply IH; [|exact Hfft].
  assert (m <> n) by (intros ->; congruence). lia.
Qed.

Lemma next_fft_size_least (fuel n m : nat) :
  (n <= m < next_fft_size fuel n)%nat -> is_fft_size m = false.
Proof.
  revert n. induction fuel as [|fuel IH]; intros n Hm; cbn [next_fft_size] in Hm; [lia|].
  destruct (is_fft_size n) eqn:Hn; [lia|].
  destruct (Nat.eq_dec m n) as [->|Hne]; [exact Hn|]. apply (IH (S n)). lia.
Qed.

(** [polymult_fft_size n] is a product of powers of 2, 3 and 5 that is
    at least [n]. *)
Lemma polymult_fft_size_smooth (n : nat) :
  (0 < n)%nat ->
  (n <= polymult_fft_size n)%nat
  /\ exists a b c, polymult_fft_size n = (2 ^ a * 3 ^ b * 5 ^ c)%nat.
Proof.
  intros Hn. split; [apply next_fft_size_ge|].
  apply is_fft_size_smooth. unfold polymult_fft_size.
  apply (next_fft_size_found n n (2 ^ Nat.log2_up n)); [|apply is_fft_size_pow2].
  destruct (Nat.eq_dec n 1%nat) as [->|Hne]; [cbn; lia|].
  pose proof (Nat.log2_up_spec n ltac:(lia)) as [Hlo Hhi].
  split; [exact Hhi|].
  assert (Hs : Nat.log2_up n = S (pred (Nat.log2_up n))).
  { pose proof (Nat.log2_up_pos n ltac:(lia)). lia. }
  rewrite Hs, Nat.pow_succ_r'. lia.
Qed.

Lemma pow5_mod3 (c : nat) : ((5 ^ c) mod 3 <> 0)%nat.
Proof.
  assert (H : ((5 ^ c) mod 3 = 1 \/ (5 ^ c) mod 3 = 2)%nat).
  { induction c as [|c IH]; [left; reflexivity|].
    rewrite Nat.pow_succ_r', Nat.Div0.mul_mod.
    destruct IH as [-> | ->]; [right|left]; reflexivity. }
  lia.
Qed.

Lemma odd_mod2 (n : nat) : Nat.odd n = true -> (n mod 2 <> 0)%nat.
Proof.
  intros Hodd Hmod. apply Nat.Div0.mod_divides in Hmod as [k ->].
  rewrite Nat.odd_mul in Hodd. discriminate.
Qed.

Lemma odd_pow (a c : nat) : Nat.odd a = true -> Nat.odd (a ^ c) = true.
Proof.
  intros Ha. induction c as [|c IH]; [reflexivity|].
  now rewrite Nat.pow_succ_r', Nat.odd_mul, Ha, IH.
Qed.

(** Every product of powers of 2, 3 and 5 is taken for a length of the
    poly-FFT. *)
Lemma smooth_is_fft_size (a b c : nat) : is_fft_size (2 ^ a * 3 ^ b * 5 ^ c) = true.
Proof.
  unfold is_fft_size. set (n := (2 ^ a * 3 ^ b * 5 ^ c)%nat).
  assert (H2 : (0 < 2 ^ a)%nat) by (apply Nat.neq_0_lt_0, Nat.pow_nonzero; lia).
  assert (H3 : (0 < 3 ^ b)%nat) by (apply Nat.neq_0_lt_0, Nat.pow_nonzero; lia).
  assert (H5 : (0 < 5 ^ c)%nat) by (apply Nat.neq_0_lt_0, Nat.pow_nonzero; lia).
  pose proof (pow_gt_exponent a) as Ha.
  assert (Hb : (b < 3 ^ b)%nat) by (apply Nat.pow_gt_lin_r; lia).
  assert (Hc : (c < 5 ^ c)%nat) by (apply Nat.pow_gt_lin_r; lia).
  assert (Hxy : (2 ^ a * 1 <= 2 ^ a * 3 ^ b)%nat) by (apply Nat.mul_le_mono_l; lia).
  assert (Hyx : (1 * 3 ^ b <= 2 ^ a * 3 ^ b)%nat) by (apply Nat.mul_le_mono_r; lia).
  assert (Hxyz : (2 ^ a * 3 ^ b * 1 <= n)%nat) by (apply Nat.mul_le_mono_l; lia).
  assert (Hzn : (1 * 5 ^ c <= n)%nat) by (apply Nat.mul_le_mono_r; lia).
  assert (Hna : (a <= n)%nat) by lia.
  assert (Hnb : (b <= n)%nat) by lia.
  assert (Hnc : (c <= n)%nat) by lia.
  replace (divide_out n 2 n) with (3 ^ b * 5 ^ c)%nat.
  2:{ symmetry. unfold n at 2. rewrite <- Nat.mul_assoc.
      apply divide_out_pow; [lia|exact Hna|apply Nat.mul_pos_pos; assumption|].
      apply odd_mod2. rewrite Nat.odd_mul. now rewrite !odd_pow. }
  rewrite (divide_out_pow 3 b n (5 ^ c)); [|lia|exact Hnb|exact H5|apply pow5_mod3].
  pose proof (divide_out_pow 5 c n 1) as Hlast. rewrite Nat.mul_1_r in Hlast.
  rewrite Hlast; [reflexivity|lia|exact Hnc|lia|].
  rewrite Nat.mod_small by lia. lia.
Qed.

(** And it is the smallest of them. *)
Lemma polymult_fft_size_least (n a b c : nat) :
  (n <= 2 ^ a * 3 ^ b * 5 ^ c)%nat ->
  (polymult_fft_size n <= 2 ^ a * 3 ^ b * 5 ^ c)%nat.
Proof.
  intros Hn. destruct (Nat.le_gt_cases (polymult_fft_size n) (2 ^ a * 3 ^ b * 5 ^ c))
    as [Hle|Hgt]; [exact Hle|].
  pose proof (next_fft_size_least n n (2 ^ a * 3 ^ b * 5 ^ c) (conj Hn Hgt)) as Hno.
  rewrite smooth_is_fft_size in Hno. discriminate.
Qed.

(** The first lengths of the poly-FFT. *)
Example polymult_fft_sizes :
  map polymult_fft_size [1; 2; 5; 7; 11; 13; 17; 23; 26; 31; 97]%nat
  = [1; 2; 5; 8; 12; 15; 18; 24; 27; 32; 100]%nat.
Proof. vm_compute. reflexivity. Qed.

(** ** One multiplication under its plan *)








(** ** The loader against the reference *)






(** ** The entry points *)




(** ** The claims on polymult *)



(** Handles whose break points send the examples to brute force, to
    Karatsuba and to the poly-FFT. *)
Definition brute_handle : pmhandle := initial_handle 32 64.
Definition karatsuba_handle : pmhandle := initial_handle 2 64.
Definition fft_handle : pmhandle := initial_handle 2 4.

(** Runs of the three kernels.  NEGATE negates the stored coefficients
    and not the implied one; an RLP is unfolded about its first
    coefficient; MULHI and MULLO return the two ends of the product; the
    FMA options add and subtract; CIRCULAR wraps, whether the poly-FFT
    reduces by itself (size 4) or the reduction is emulated (size 7, and
    the other kernels). *)
Example polymult_runs :
  Forall (fun h =>
            polymult h [1; 2; 3] [4; 5; 6] 5 0 = Some [4; 13; 28; 27; 18]
            /\ polymult h [1; 2; 3] [4; 5; 6] 5 POLYMULT_INVEC2_NEGATE
               = Some [-4; -13; -28; -27; -18]
            /\ polymult h [1; 2; 3] [4; 5; 6] 6
                        (POLYMULT_INVEC1_NEGATE + POLYMULT_INVEC1_MONIC)
               = Some [-4; -13; -28; -23; -13; 6]
            /\ polymult h [1; 2; 3] [4; 5; 6] 7 POLYMULT_INVEC1_RLP
               = Some [12; 23; 32; 25; 28; 27; 18]
            /\ polymult h [1; 2; 3] [4; 5; 6] 2 POLYMULT_MULHI = Some [27; 18]
            /\ polymult h [1; 2; 3] [4; 5; 6] 2 POLYMULT_MULLO = Some [4; 13]
            /\ polymult_fma h [1; 2; 3] [4; 5; 6] 5 [1; 1; 1; 1; 1] POLYMULT_FMADD
               = Some [5; 14; 29; 28; 19]
            /\ polymult_fma h [1; 2; 3] [4; 5; 6] 5 [1; 1; 1; 1; 1] POLYMULT_FNMADD
               = Some [-3; -12; -27; -26; -17]
            /\ polymult h [1; 2; 3; 4] [1; 0; 0; 0; 1] 4 POLYMULT_CIRCULAR
               = Some [2; 4; 6; 8]
            /\ polymult h [1; 2; 3; 4] [1; 0; 0; 0; 1] 7 POLYMULT_CIRCULAR
               = Some [1 + 4; 2; 3; 4; 1; 2; 3])
         [brute_handle; karatsuba_handle; fft_handle]
  /\ map (fun h => impl (make_plan h 3 3 5 5 0 0))
         [brute_handle; karatsuba_handle; fft_handle] = [0; 1; 2]
  /\ emulate_circular (make_plan fft_handle 4 5 4 4 0 POLYMULT_CIRCULAR) = false
  /\ emulate_circular (make_plan fft_handle 4 5 7 7 0 POLYMULT_CIRCULAR) = true
  /\ schoolbook [1; 2; 3] [4; 5; 6] = [4; 13; 28; 27; 18]
  /\ schoolbook [3; 2; 1; 2; 3] [4; 5; 6] = [12; 23; 32; 25; 28; 27; 18].
Proof.
  split.
  - repeat constructor; vm_compute; reflexivity.
  - repeat split; vm_compute; reflexivity.
Qed.






(** ** The twiddle cache *)

Section TwiddleProofs.

Variable build_twiddles : Z -> list Z * list Z.

Lemma ensure_cases (h : pmhandle) (sz : Z) :
  (exists e, cache_lookup h sz = Some e
             /\ ensure build_twiddles h sz
                = use_twiddles h e true (cached_twiddles h) (cached_twiddles_count h))
  \/ (cache_lookup h sz = None
      /\ additions_enabled h = true
      /\ cached_twiddles_count h < CACHED_TWIDDLES_SLOTS
      /\ ensure build_twiddles h sz
         = use_twiddles h (built_entry build_twiddles sz) true
             (<[Z.to_nat (cached_twiddles_count h) := built_entry build_twiddles sz]>
                (cached_twiddles h))
             (cached_twiddles_count h + 1))
  \/ (cache_lookup h sz = None
      /\ (additions_enabled h = false
          \/ CACHED_TWIDDLES_SLOTS <= cached_twiddles_count h)
      /\ ensure build_twiddles h sz
         = use_twiddles h (built_entry build_twiddles sz) false (cached_twiddles h)
                        (cached_twiddles_count h)).
Proof.
  unfold ensure, additions_enabled, built_entry.
  destruct (cache_lookup h sz) as [e|]; [left; now exists e|right].
  destruct (build_twiddles sz) as [t1 t2]. cbn [fst snd].
  destruct (cached_twiddles_enabled h && negb (twiddle_cache_additions_disabled h));
    cbn [andb].
  - destruct (Z.ltb_spec (cached_twiddles_count h) CACHED_TWIDDLES_SLOTS).
    + left. auto.
    + right. auto.
  - right. auto.
Qed.

Lemma ensure_cache_ok (h : pmhandle) (sz : Z) :
  cache_ok h -> cache_ok (ensure build_twiddles h sz).
Proof.
  intros [Hslots Hcount].
  destruct (ensure_cases h sz) as [(e & _ & ->)|[(_ & _ & Hlt & ->)|(_ & _ & ->)]];
    split; cbn; rewrite ?length_insert; try assumption; lia.
Qed.

Lemma ensure_all_cache_ok (sizes : list Z) (h : pmhandle) :
  cache_ok h -> cache_ok (ensure_all build_twiddles h sizes).
Proof.
  revert h. induction sizes as [|sz sizes IH]; intros h Hok; [exact Hok|].
  cbn. apply IH. now apply ensure_cache_ok.
Qed.

End TwiddleProofs.

(** C5.  The twiddle cache never holds more than 40 entries.  Every
    [ensure] keeps the count between 0 and 40 and the array at its 40
    slots, and so does every run of them.  On a miss the newly built table
    is inserted, at the slot the count points to, when additions are
    enabled and the count is below 40, and the count grows by one;
    otherwise the freshly built table is used without being cached.  On
    a hit the cached table is used and the cache is left as it was. *)
Theorem twiddle_cache_bounded (build_twiddles : Z -> list Z * list Z)
    (h : pmhandle) (sz : Z) (sizes : list Z) :
  cache_ok h ->
  let h' := ensure build_twiddles h sz in
  let e := built_entry build_twiddles sz in
  (0 <= cached_twiddles_count h' <= 40
   /\ length (cached_twiddles h') = 40%nat)
  /\ cached_twiddles_count (ensure_all build_twiddles h sizes) <= 40
  /\ (cache_lookup h sz = None ->
      additions_enabled h = true -> cached_twiddles_count h < 40 ->
      cached_twiddles_count h' = cached_twiddles_count h + 1
      /\ cached_twiddles h'
         = <[Z.to_nat (cached_twiddles_count h) := e]> (cached_twiddles h)
      /\ cached_twiddles h' !! Z.to_nat (cached_twiddles_count h) = Some e
      /\ cur_twiddles1 h' = twiddles1 e /\ cur_twiddles2 h' = twiddles2 e)
  /\ (cache_lookup h sz = None ->
      additions_enabled h = false \/ 40 <= cached_twiddles_count h ->
      cached_twiddles_count h' = cached_twiddles_count h
      /\ cached_twiddles h' = cached_twiddles h
      /\ twiddles_are_from_cache h' = false
      /\ cur_twiddles1 h' = twiddles1 e /\ cur_twiddles2 h' = twiddles2 e)
  /\ (forall hit, cache_lookup h sz = Some hit ->
      cached_twiddles_count h' = cached_twiddles_count h
      /\ cached_twiddles h' = cached_twiddles h
      /\ cur_twiddles1 h' = twiddles1 hit /\ cur_twiddles2 h' = twiddles2 hit).
Proof.
  intros Hok h' e.
  pose proof (ensure_cache_ok build_twiddles h sz Hok) as [Hslots' Hcount'].
  pose proof (ensure_all_cache_ok build_twiddles sizes h Hok) as [_ Hall].
  destruct Hok as [Hslots Hcount].
  fold h' in Hslots', Hcount'. unfold CACHED_TWIDDLES_SLOTS in *.
  split; [split; lia|]. split; [lia|].
  destruct (ensure_cases build_twiddles h sz)
    as [(e0 & Hhit & Heq)|[(Hmiss & Hen & Hlt & Heq)|(Hmiss & Hno & Heq)]];
    fold h' in Heq; fold e in Heq; rewrite Heq; cbn;
    (split; [|split]).
  - intros Hnone. congruence.
  - intros Hnone. congruence.
  - intros hit Hhit'. assert (hit = e0) by congruence. subst hit. auto.
  - intros _ _ _. repeat split.
    apply list_lookup_insert_eq. unfold CACHED_TWIDDLES_SLOTS in *. lia.
  - intros _ [Hdis|Hfull]; [congruence|unfold CACHED_TWIDDLES_SLOTS in *; lia].
  - intros hit Hhit. congruence.
  - intros _ Hen Hlt. destruct Hno as [Hdis|Hfull];
      [congruence|unfold CACHED_TWIDDLES_SLOTS in *; lia].
  - intros _ _. repeat split.
  - intros hit Hhit. congruence.
Qed.

(** A handle whose cache is full, with the sizes 1 to 40. *)
Definition full_handle : pmhandle :=
  {| twiddles_initialized := 0;
     twiddles_are_from_cache := false;
     cur_twiddles1 := [];
     cur_twiddles2 := [];
     KARAT_BREAK := 32;
     FFT_BREAK := 64;
     L2_CACHE_SIZE := 256;
     cached_twiddles_enabled := true;
     twiddle_cache_additions_disabled := false;
     cached_twiddles :=
       map (fun n => {| size := Z.of_nat n; twiddles1 := []; twiddles2 := [] |})
           (seq 1 40);
     cached_twiddles_count := 40 |}.

Definition sample_tables (sz : Z) : list Z * list Z := ([sz], [sz + 1]).

Lemma twiddle_cache_bounded_witness :
  let h' := ensure sample_tables full_handle 48 in
  let e := built_entry sample_tables 48 in
  (0 <= cached_twiddles_count h' <= 40
   /\ length (cached_twiddles h') = 40%nat)
  /\ cached_twiddles_count (ensure_all sample_tables full_handle [48; 3; 96]) <= 40
  /\ (cache_lookup full_handle 48 = None ->
      additions_enabled full_handle = true -> cached_twiddles_count full_handle < 40 ->
      cached_twiddles_count h' = cached_twiddles_count full_handle + 1
      /\ cached_twiddles h'
         = <[Z.to_nat (cached_twiddles_count full_handle) := e]>
             (cached_twiddles full_handle)
      /\ cached_twiddles h' !! Z.to_nat (cached_twiddles_count full_handle) = Some e
      /\ cur_twiddles1 h' = twiddles1 e /\ cur_twiddles2 h' = twiddles2 e)
  /\ (cache_lookup full_handle 48 = None ->
      additions_enabled full_handle = false
      \/ 40 <= cached_twiddles_count full_handle ->
      cached_twiddles_count h' = cached_twiddles_count full_handle
      /\ cached_twiddles h' = cached_twiddles full_handle
      /\ twiddles_are_from_cache h' = false
      /\ cur_twiddles1 h' = twiddles1 e /\ cur_twiddles2 h' = twiddles2 e)
  /\ (forall hit, cache_lookup full_handle 48 = Some hit ->
      cached_twiddles_count h' = cached_twiddles_count full_handle
      /\ cached_twiddles h' = cached_twiddles full_handle
      /\ cur_twiddles1 h' = twiddles1 hit /\ cur_twiddles2 h' = twiddles2 hit).
Proof.
  apply (twiddle_cache_bounded sample_tables full_handle 48 [48; 3; 96]).
  split; [reflexivity|]. cbn. unfold CACHED_TWIDDLES_SLOTS. lia.
Defined.

Example twiddle_cache_runs :
  cached_twiddles_count
    (ensure_all sample_tables (initial_handle 32 64) [8; 16; 8; 24; 16]) = 3
  /\ twiddles_are_from_cache (ensure sample_tables full_handle 48) = false
  /\ cur_twiddles1 (ensure sample_tables full_handle 48) = [48]
  /\ cached_twiddles (ensure sample_tables full_handle 48)
     = cached_twiddles full_handle.
Proof. vm_compute. repeat split. Qed.

(** ** Preprocessed polys *)

(** C7.  For every pointer [p], [is_preprocessed_poly(p)] holds exactly
    when [p] is not NULL and the header located [sizeof(gwarray_header)]
    bytes before [p] has [self_ptr] equal to [p]; and the array
    polymult_preprocess returns, whose header starts exactly
    [sizeof(gwarray_header)] bytes before it, satisfies the predicate
    whenever it is an array, that is, not NULL. *)
Theorem preprocessed_poly_recognized (sizeof_gwarray_header : Z) (mem : memory)
    (p block lines elem fft : Z) (monics : bool) (options : Z) :
  block + sizeof_gwarray_header <> 0 ->
  let result := polymult_preprocess sizeof_gwarray_header mem block lines elem fft
                                    monics options in
  (is_preprocessed_poly sizeof_gwarray_header mem p = true
   <-> p <> 0 /\ self_ptr (mem (p - sizeof_gwarray_header)) = p)
  /\ snd result - sizeof_gwarray_header = block
  /\ self_ptr (fst result (snd result - sizeof_gwarray_header)) = snd result
  /\ is_preprocessed_poly sizeof_gwarray_header (fst result) (snd result) = true.
Proof.
  intros Hnonnull result.
  assert (Hrec : forall m q,
            is_preprocessed_poly sizeof_gwarray_header m q = true
            <-> q <> 0 /\ self_ptr (m (q - sizeof_gwarray_header)) = q).
  { intros m q. unfold is_preprocessed_poly, header_of.
    rewrite andb_true_iff, negb_true_iff, Z.eqb_neq, Z.eqb_eq. tauto. }
  assert (Hself : self_ptr (fst result (snd result - sizeof_gwarray_header))
                  = snd result).
  { subst result. unfold polymult_preprocess, store_header. cbn [fst snd].
    replace (block + sizeof_gwarray_header - sizeof_gwarray_header =? block) with true
      by (symmetry; apply Z.eqb_eq; lia).
    reflexivity. }
  split; [apply Hrec|]. split; [subst result; cbn; lia|]. split; [exact Hself|].
  apply Hrec. split; [exact Hnonnull|exact Hself].
Qed.

Definition blank_memory : memory :=
  fun _ => {| self_ptr := 0; num_lines := 0; element_size := 0;
              padded_element_size := 0; hdr_options := 0; hdr_fft_size := 0;
              monic_ones_included := false |}.

Lemma preprocessed_poly_recognized_witness :
  let result := polymult_preprocess 48 blank_memory 4096 128 520 0 false
                                    POLYMULT_INVEC1_MONIC in
  (is_preprocessed_poly 48 blank_memory 4144 = true
   <-> 4144 <> 0 /\ self_ptr (blank_memory (4144 - 48)) = 4144)
  /\ snd result - 48 = 4096
  /\ self_ptr (fst result (snd result - 48)) = snd result
  /\ is_preprocessed_poly 48 (fst result) (snd result) = true.
Proof.
  apply (preprocessed_poly_recognized 48 blank_memory 4144 4096 128 520 0 false
           POLYMULT_INVEC1_MONIC).
  discriminate.
Defined.

Example preprocessed_poly_example :
  let result := polymult_preprocess 48 blank_memory 4096 128 520 0 false
                                    POLYMULT_INVEC1_MONIC in
  snd result = 4144
  /\ is_preprocessed_poly 48 blank_memory 4144 = false
  /\ is_preprocessed_poly 48 (fst result) 4144 = true
  /\ is_preprocessed_poly 48 (fst result) 0 = false
  /\ preprocessed_element_size 48 (fst result) 4144 = 576
  /\ preprocessed_poly_size 48 (fst result) 4144 = 73728.
Proof. vm_compute. repeat split. Qed.

(** * Further properties of the polymult interface *)

(** The option bits of polymult.h lines 100-127, the two shorthands
    left out. *)
Definition option_bits : list Z :=
  [ POLYMULT_INVEC1_MONIC; POLYMULT_INVEC2_MONIC; POLYMULT_INVEC1_RLP;
    POLYMULT_INVEC2_RLP; POLYMULT_INVEC1_NEGATE; POLYMULT_INVEC2_NEGATE;
    POLYMULT_PRE_FFT; POLYMULT_PRE_COMPRESS; POLYMULT_CIRCULAR; POLYMULT_MULHI;
    POLYMULT_MULLO; POLYMULT_MULMID; POLYMULT_NO_UNFFT; POLYMULT_STARTNEXTFFT;
    POLYMULT_NEXTFFT; POLYMULT_FMADD; POLYMULT_FMSUB; POLYMULT_FNMADD ].

Lemma option_bits_powers :
  option_bits = map (fun k => 2 ^ Z.of_nat k) (seq 0 18).
Proof. reflexivity. Qed.

Lemma has_option_pow2 (options k : Z) :
  0 <= k -> has_option options (2 ^ k) = Z.testbit options k.
Proof.
  intros Hk. unfold has_option.
  assert (Hland : Z.land options (2 ^ k) = if Z.testbit options k then 2 ^ k else 0).
  { apply Z.bits_inj'. intros n Hn. rewrite Z.land_spec, Z.pow2_bits_eqb by lia.
    destruct (Z.eqb_spec k n) as [->|Hne].
    - rewrite andb_true_r. destruct (Z.testbit options n) eqn:Hb.
      + rewrite Z.pow2_bits_eqb by lia. now rewrite Z.eqb_refl.
      + now rewrite Z.bits_0.
    - rewrite andb_false_r. destruct (Z.testbit options k).
      + rewrite Z.pow2_bits_eqb by lia. symmetry. now apply Z.eqb_neq.
      + now rewrite Z.bits_0. }
  rewrite Hland. destruct (Z.testbit options k); [|reflexivity].
  assert (0 < 2 ^ k) by (apply Z.pow_pos_nonneg; lia).
  destruct (Z.eqb_spec (2 ^ k) 0); [lia|reflexivity].
Qed.

Lemma option_bit_position (f : Z) :
  In f option_bits -> exists k, f = 2 ^ k /\ 0 <= k < 18.
Proof.
  rewrite option_bits_powers, in_map_iff. intros (k & <- & Hk).
  apply in_seq in Hk. exists (Z.of_nat k). split; [reflexivity|lia].
Qed.

(** X22.  The options of polymult.h do not overlap: or-ing one option
    into an options word sets that option and changes no other, so a word
    built with [|] has exactly the options it was built from, and the
    empty word has none. *)
Theorem option_bits_are_independent (options f g : Z) :
  In f option_bits -> In g option_bits ->
  has_option (Z.lor options f) g = (has_option options g || bool_decide (f = g))
  /\ has_option 0 g = false.
Proof.
  intros Hf Hg.
  destruct (option_bit_position f Hf) as (j & -> & Hj).
  destruct (option_bit_position g Hg) as (k & -> & Hk).
  rewrite !has_option_pow2 by lia.
  rewrite Z.lor_spec, Z.pow2_bits_eqb, Z.bits_0 by lia.
  split; [|reflexivity]. f_equal.
  destruct (Z.eqb_spec j k) as [->|Hne].
  - symmetry. now apply bool_decide_eq_true.
  - symmetry. apply bool_decide_eq_false. intros Heq.
    apply Z.pow_inj_r in Heq; lia.
Qed.

Lemma option_bits_are_independent_witness :
  has_option (Z.lor POLYMULT_CIRCULAR POLYMULT_INVEC1_MONIC) POLYMULT_MULHI
  = (has_option POLYMULT_CIRCULAR POLYMULT_MULHI
     || bool_decide (POLYMULT_INVEC1_MONIC = POLYMULT_MULHI))
  /\ has_option 0 POLYMULT_MULHI = false.
Proof.
  apply (option_bits_are_independent POLYMULT_CIRCULAR POLYMULT_INVEC1_MONIC
           POLYMULT_MULHI).
  - unfold option_bits. cbn. tauto.
  - unfold option_bits. cbn. tauto.
Defined.
